(** * SPMatch command-line driver: a shallow embedding of [src/spmatch.cpp]

    The development follows the driver of the PatchMatch-Stereo program:
    [setDefaults], [main], [writeDisparityMap] and the stream extractor
    [operator>>] for [Params::OutOfBounds].  Everything the driver calls but
    does not define (Boost.Program_options' tokenizer and lexical casts, the
    file system, the image loader, the disparity core, [Image::normalize] and
    the floating-point formatter) enters through one record of
    collaborators, [Env]; the driver's own control flow, its string
    arithmetic on the output path and its CSV loops are embedded as written. *)

From Stdlib Require Import String Ascii List ZArith Lia Bool Floats.
From Stdlib Require Import DecimalString.
From Stdlib Require DecimalNat DecimalFacts Finite.
Import ListNotations.
Open Scope string_scope.

(** ** Exceptions and the effect monad *)

(** The exception objects that cross the driver.  [po_error] stands for
    the family [boost::program_options::error]; [io_error] for what the image
    library throws. *)
Inductive po_error_kind : Type :=
| unknown_option
| invalid_command_line_syntax
| too_many_positional_options
| multiple_occurrences
| multiple_values_not_allowed
| at_least_one_value_required
| invalid_option_value
| invalid_bool_value
| required_option.

Inductive exn : Type :=
| runtime_error (what : string)
| out_of_range (what : string)
| po_error (kind : po_error_kind) (subject : string)
| io_error (what : string).

(** ** [std::string] members used by the driver *)

Module StdString.

(** [size_t] is 64 bits wide; [npos] is its largest value. *)
Definition size_t_bits : Z := 64.
Definition npos : Z := 2 ^ size_t_bits - 1.

Definition size (s : string) : Z := Z.of_nat (String.length s).

Fixpoint take (n : nat) (s : string) : string :=
  match n, s with
  | S n', String c s' => String c (take n' s')
  | _, _ => EmptyString
  end.

Fixpoint drop (n : nat) (s : string) : string :=
  match n, s with
  | S n', String _ s' => drop n' s'
  | _, _ => s
  end.

(** Index of the last occurrence of [c], if any. *)
Fixpoint last_index (s : string) (c : ascii) : option nat :=
  match s with
  | EmptyString => None
  | String a s' =>
      match last_index s' c with
      | Some i => Some (S i)
      | None => if Ascii.eqb a c then Some 0%nat else None
      end
  end.

(** [s.rfind(c)]: position of the last [c], or [npos]. *)
Definition rfind (s : string) (c : ascii) : Z :=
  match last_index s c with
  | Some i => Z.of_nat i
  | None => npos
  end.

(** [s.insert(pos, t)]: throws [std::out_of_range] when [pos > size()]. *)
Definition insert (s : string) (pos : Z) (t : string) : exn + string :=
  if (size s <? pos)%Z then inl (out_of_range "basic_string::insert")
  else inr (take (Z.to_nat pos) s ++ t ++ drop (Z.to_nat pos) s).

(** [s.replace(pos, len, t)]: throws [std::out_of_range] when
    [pos > size()]; otherwise the characters [pos, pos + min(len, size() - pos))]
    give way to [t]. *)
Definition replace (s : string) (pos len : Z) (t : string) : exn + string :=
  if (size s <? pos)%Z then inl (out_of_range "basic_string::replace")
  else
    let n := Z.min len (size s - pos) in
    inr (take (Z.to_nat pos) s ++ t ++ drop (Z.to_nat (pos + n)) s).

(** [v.at(i)] on a [std::vector]. *)
Definition at_ {A : Type} (v : list A) (i : nat) : exn + A :=
  match nth_error v i with
  | Some a => inr a
  | None => inl (out_of_range "vector::_M_range_check")
  end.

End StdString.

(** ** Formatted extraction from a [std::istream] *)

Module IStream.

(** What the extractor can observe of a stream: the characters not yet
    consumed and the [skipws] format flag. *)
Record istream : Type := { buf : string; skipws : bool }.

(** [std::isspace] in the "C" locale. *)
Definition isspace (c : ascii) : bool :=
  existsb (Ascii.eqb c)
    [" "%char; "009"%char; "010"%char; "011"%char; "012"%char; "013"%char].

Fixpoint skip_ws (s : string) : string :=
  match s with
  | String c s' => if isspace c then skip_ws s' else s
  | EmptyString => EmptyString
  end.

(** The longest prefix free of white space, and what follows it. *)
Fixpoint read_word (s : string) : string * string :=
  match s with
  | EmptyString => (EmptyString, EmptyString)
  | String c s' =>
      if isspace c then (EmptyString, s)
      else let (w, r) := read_word s' in (String c w, r)
  end.

(** [in >> token] for a [std::string]: leading white space is skipped when
    [skipws] is set, then characters are taken up to the next white space.
    When nothing can be taken the string is left empty. *)
Definition extract_string (i : istream) : string * istream :=
  let b := if skipws i then skip_ws (buf i) else buf i in
  let (token, rest) := read_word b in
  (token, {| buf := rest; skipws := skipws i |}).

End IStream.

(** ** [Params::OutOfBounds] and its extractor (spmatch.cpp, lines 249-268) *)

Inductive OutOfBounds : Type :=
| REPEAT_PIXEL
| BLACK_PIXEL
| ZERO_COST
| ERROR
| NAN_COST.

(** [std::istream& operator>>(std::istream& in, Params::OutOfBounds& selection)].
    The result carries the stream after the extraction and the value assigned
    to [selection]. *)
Definition operator_shr (in_ : IStream.istream)
  : exn + (IStream.istream * OutOfBounds) :=
  let (token, in') := IStream.extract_string in_ in
  if String.eqb token "repeat" then inr (in', REPEAT_PIXEL)
  else if String.eqb token "black" then inr (in', BLACK_PIXEL)
  else if String.eqb token "zero" then inr (in', ZERO_COST)
  else if String.eqb token "error" then inr (in', ERROR)
  else if String.eqb token "nan" then inr (in', NAN_COST)
  else inl (runtime_error "Invalid OutOfBounds selection").

(** ** The parameter block (global [params]) *)

(** [struct Params], with the field types the option table of [main] binds
    them at: [double] as a binary64 float, [int] and [unsigned] as integers. *)
Record Params : Type := {
  ALFA : float;
  TAU_COL : float;
  TAU_GRAD : float;
  GAMMA : float;
  WINDOW_SIZE : Z;
  MIN_D : Z;
  MAX_D : Z;
  ITERATIONS : Z;
  MAX_SLOPE : float;
  NORMALIZE_GRADIENTS : bool;
  OUT_OF_BOUNDS : OutOfBounds;
  RESIZE_WINDOWS : bool;
  PLANES_SATURATION : bool;
  USE_PSEUDORAND : bool;
  CONST_DISPARITIES : bool;
  LOG : Z
}.

(** [void setDefaults(void)] (lines 152-176) assigns every field of the
    global, so the block it leaves does not depend on the one it found. *)
Definition setDefaults : Params := {|
  ALFA := 0.5;
  TAU_COL := 60;
  TAU_GRAD := 30;
  GAMMA := 15;
  WINDOW_SIZE := 35;
  MIN_D := 0;
  MAX_D := 70;
  ITERATIONS := 3;
  MAX_SLOPE := 45;
  NORMALIZE_GRADIENTS := true;
  OUT_OF_BOUNDS := NAN_COST;
  RESIZE_WINDOWS := true;
  PLANES_SATURATION := true;
  USE_PSEUDORAND := false;
  CONST_DISPARITIES := false;
  LOG := 1
|}.

(** The variables the option table of [main] writes through pointers: the
    locals [outputPath] and [inputImages], and the global [params]. *)
Record Vars : Type := {
  outputPath : string;
  inputImages : list string;
  params : Params
}.

Module Assign.

Definition on_params (f : Params -> Params) (v : Vars) : Vars :=
  {| outputPath := outputPath v; inputImages := inputImages v;
     params := f (params v) |}.

Definition to_outputPath (s : string) (v : Vars) : Vars :=
  {| outputPath := s; inputImages := inputImages v; params := params v |}.

Definition to_inputImages (l : list string) (v : Vars) : Vars :=
  {| outputPath := outputPath v; inputImages := l; params := params v |}.

Definition to_LOG (x : Z) : Vars -> Vars := on_params (fun p =>
  {| ALFA := ALFA p; TAU_COL := TAU_COL p; TAU_GRAD := TAU_GRAD p;
     GAMMA := GAMMA p; WINDOW_SIZE := WINDOW_SIZE p; MIN_D := MIN_D p;
     MAX_D := MAX_D p; ITERATIONS := ITERATIONS p; MAX_SLOPE := MAX_SLOPE p;
     NORMALIZE_GRADIENTS := NORMALIZE_GRADIENTS p;
     OUT_OF_BOUNDS := OUT_OF_BOUNDS p; RESIZE_WINDOWS := RESIZE_WINDOWS p;
     PLANES_SATURATION := PLANES_SATURATION p;
     USE_PSEUDORAND := USE_PSEUDORAND p;
     CONST_DISPARITIES := CONST_DISPARITIES p; LOG := x |}).

Definition to_ALFA (x : float) : Vars -> Vars := on_params (fun p =>
  {| ALFA := x; TAU_COL := TAU_COL p; TAU_GRAD := TAU_GRAD p;
     GAMMA := GAMMA p; WINDOW_SIZE := WINDOW_SIZE p; MIN_D := MIN_D p;
     MAX_D := MAX_D p; ITERATIONS := ITERATIONS p; MAX_SLOPE := MAX_SLOPE p;
     NORMALIZE_GRADIENTS := NORMALIZE_GRADIENTS p;
     OUT_OF_BOUNDS := OUT_OF_BOUNDS p; RESIZE_WINDOWS := RESIZE_WINDOWS p;
     PLANES_SATURATION := PLANES_SATURATION p;
     USE_PSEUDORAND := USE_PSEUDORAND p;
     CONST_DISPARITIES := CONST_DISPARITIES p; LOG := LOG p |}).

Definition to_TAU_COL (x : float) : Vars -> Vars := on_params (fun p =>
  {| ALFA := ALFA p; TAU_COL := x; TAU_GRAD := TAU_GRAD p;
     GAMMA := GAMMA p; WINDOW_SIZE := WINDOW_SIZE p; MIN_D := MIN_D p;
     MAX_D := MAX_D p; ITERATIONS := ITERATIONS p; MAX_SLOPE := MAX_SLOPE p;
     NORMALIZE_GRADIENTS := NORMALIZE_GRADIENTS p;
     OUT_OF_BOUNDS := OUT_OF_BOUNDS p; RESIZE_WINDOWS := RESIZE_WINDOWS p;
     PLANES_SATURATION := PLANES_SATURATION p;
     USE_PSEUDORAND := USE_PSEUDORAND p;
     CONST_DISPARITIES := CONST_DISPARITIES p; LOG := LOG p |}).

Definition to_TAU_GRAD (x : float) : Vars -> Vars := on_params (fun p =>
  {| ALFA := ALFA p; TAU_COL := TAU_COL p; TAU_GRAD := x;
     GAMMA := GAMMA p; WINDOW_SIZE := WINDOW_SIZE p; MIN_D := MIN_D p;
     MAX_D := MAX_D p; ITERATIONS := ITERATIONS p; MAX_SLOPE := MAX_SLOPE p;
     NORMALIZE_GRADIENTS := NORMALIZE_GRADIENTS p;
     OUT_OF_BOUNDS := OUT_OF_BOUNDS p; RESIZE_WINDOWS := RESIZE_WINDOWS p;
     PLANES_SATURATION := PLANES_SATURATION p;
     USE_PSEUDORAND := USE_PSEUDORAND p;
     CONST_DISPARITIES := CONST_DISPARITIES p; LOG := LOG p |}).

Definition to_GAMMA (x : float) : Vars -> Vars := on_params (fun p =>
  {| ALFA := ALFA p; TAU_COL := TAU_COL p; TAU_GRAD := TAU_GRAD p;
     GAMMA := x; WINDOW_SIZE := WINDOW_SIZE p; MIN_D := MIN_D p;
     MAX_D := MAX_D p; ITERATIONS := ITERATIONS p; MAX_SLOPE := MAX_SLOPE p;
     NORMALIZE_GRADIENTS := NORMALIZE_GRADIENTS p;
     OUT_OF_BOUNDS := OUT_OF_BOUNDS p; RESIZE_WINDOWS := RESIZE_WINDOWS p;
     PLANES_SATURATION := PLANES_SATURATION p;
     USE_PSEUDORAND := USE_PSEUDORAND p;
     CONST_DISPARITIES := CONST_DISPARITIES p; LOG := LOG p |}).

Definition to_WINDOW_SIZE (x : Z) : Vars -> Vars := on_params (fun p =>
  {| ALFA := ALFA p; TAU_COL := TAU_COL p; TAU_GRAD := TAU_GRAD p;
     GAMMA := GAMMA p; WINDOW_SIZE := x; MIN_D := MIN_D p;
     MAX_D := MAX_D p; ITERATIONS := ITERATIONS p; MAX_SLOPE := MAX_SLOPE p;
     NORMALIZE_GRADIENTS := NORMALIZE_GRADIENTS p;
     OUT_OF_BOUNDS := OUT_OF_BOUNDS p; RESIZE_WINDOWS := RESIZE_WINDOWS p;
     PLANES_SATURATION := PLANES_SATURATION p;
     USE_PSEUDORAND := USE_PSEUDORAND p;
     CONST_DISPARITIES := CONST_DISPARITIES p; LOG := LOG p |}).

Definition to_MIN_D (x : Z) : Vars -> Vars := on_params (fun p =>
  {| ALFA := ALFA p; TAU_COL := TAU_COL p; TAU_GRAD := TAU_GRAD p;
     GAMMA := GAMMA p; WINDOW_SIZE := WINDOW_SIZE p; MIN_D := x;
     MAX_D := MAX_D p; ITERATIONS := ITERATIONS p; MAX_SLOPE := MAX_SLOPE p;
     NORMALIZE_GRADIENTS := NORMALIZE_GRADIENTS p;
     OUT_OF_BOUNDS := OUT_OF_BOUNDS p; RESIZE_WINDOWS := RESIZE_WINDOWS p;
     PLANES_SATURATION := PLANES_SATURATION p;
     USE_PSEUDORAND := USE_PSEUDORAND p;
     CONST_DISPARITIES := CONST_DISPARITIES p; LOG := LOG p |}).

Definition to_MAX_D (x : Z) : Vars -> Vars := on_params (fun p =>
  {| ALFA := ALFA p; TAU_COL := TAU_COL p; TAU_GRAD := TAU_GRAD p;
     GAMMA := GAMMA p; WINDOW_SIZE := WINDOW_SIZE p; MIN_D := MIN_D p;
     MAX_D := x; ITERATIONS := ITERATIONS p; MAX_SLOPE := MAX_SLOPE p;
     NORMALIZE_GRADIENTS := NORMALIZE_GRADIENTS p;
     OUT_OF_BOUNDS := OUT_OF_BOUNDS p; RESIZE_WINDOWS := RESIZE_WINDOWS p;
     PLANES_SATURATION := PLANES_SATURATION p;
     USE_PSEUDORAND := USE_PSEUDORAND p;
     CONST_DISPARITIES := CONST_DISPARITIES p; LOG := LOG p |}).

Definition to_ITERATIONS (x : Z) : Vars -> Vars := on_params (fun p =>
  {| ALFA := ALFA p; TAU_COL := TAU_COL p; TAU_GRAD := TAU_GRAD p;
     GAMMA := GAMMA p; WINDOW_SIZE := WINDOW_SIZE p; MIN_D := MIN_D p;
     MAX_D := MAX_D p; ITERATIONS := x; MAX_SLOPE := MAX_SLOPE p;
     NORMALIZE_GRADIENTS := NORMALIZE_GRADIENTS p;
     OUT_OF_BOUNDS := OUT_OF_BOUNDS p; RESIZE_WINDOWS := RESIZE_WINDOWS p;
     PLANES_SATURATION := PLANES_SATURATION p;
     USE_PSEUDORAND := USE_PSEUDORAND p;
     CONST_DISPARITIES := CONST_DISPARITIES p; LOG := LOG p |}).

Definition to_MAX_SLOPE (x : float) : Vars -> Vars := on_params (fun p =>
  {| ALFA := ALFA p; TAU_COL := TAU_COL p; TAU_GRAD := TAU_GRAD p;
     GAMMA := GAMMA p; WINDOW_SIZE := WINDOW_SIZE p; MIN_D := MIN_D p;
     MAX_D := MAX_D p; ITERATIONS := ITERATIONS p; MAX_SLOPE := x;
     NORMALIZE_GRADIENTS := NORMALIZE_GRADIENTS p;
     OUT_OF_BOUNDS := OUT_OF_BOUNDS p; RESIZE_WINDOWS := RESIZE_WINDOWS p;
     PLANES_SATURATION := PLANES_SATURATION p;
     USE_PSEUDORAND := USE_PSEUDORAND p;
     CONST_DISPARITIES := CONST_DISPARITIES p; LOG := LOG p |}).

Definition to_NORMALIZE_GRADIENTS (x : bool) : Vars -> Vars :=
  on_params (fun p =>
  {| ALFA := ALFA p; TAU_COL := TAU_COL p; TAU_GRAD := TAU_GRAD p;
     GAMMA := GAMMA p; WINDOW_SIZE := WINDOW_SIZE p; MIN_D := MIN_D p;
     MAX_D := MAX_D p; ITERATIONS := ITERATIONS p; MAX_SLOPE := MAX_SLOPE p;
     NORMALIZE_GRADIENTS := x;
     OUT_OF_BOUNDS := OUT_OF_BOUNDS p; RESIZE_WINDOWS := RESIZE_WINDOWS p;
     PLANES_SATURATION := PLANES_SATURATION p;
     USE_PSEUDORAND := USE_PSEUDORAND p;
     CONST_DISPARITIES := CONST_DISPARITIES p; LOG := LOG p |}).

Definition to_OUT_OF_BOUNDS (x : OutOfBounds) : Vars -> Vars :=
  on_params (fun p =>
  {| ALFA := ALFA p; TAU_COL := TAU_COL p; TAU_GRAD := TAU_GRAD p;
     GAMMA := GAMMA p; WINDOW_SIZE := WINDOW_SIZE p; MIN_D := MIN_D p;
     MAX_D := MAX_D p; ITERATIONS := ITERATIONS p; MAX_SLOPE := MAX_SLOPE p;
     NORMALIZE_GRADIENTS := NORMALIZE_GRADIENTS p;
     OUT_OF_BOUNDS := x; RESIZE_WINDOWS := RESIZE_WINDOWS p;
     PLANES_SATURATION := PLANES_SATURATION p;
     USE_PSEUDORAND := USE_PSEUDORAND p;
     CONST_DISPARITIES := CONST_DISPARITIES p; LOG := LOG p |}).

Definition to_RESIZE_WINDOWS (x : bool) : Vars -> Vars := on_params (fun p =>
  {| ALFA := ALFA p; TAU_COL := TAU_COL p; TAU_GRAD := TAU_GRAD p;
     GAMMA := GAMMA p; WINDOW_SIZE := WINDOW_SIZE p; MIN_D := MIN_D p;
     MAX_D := MAX_D p; ITERATIONS := ITERATIONS p; MAX_SLOPE := MAX_SLOPE p;
     NORMALIZE_GRADIENTS := NORMALIZE_GRADIENTS p;
     OUT_OF_BOUNDS := OUT_OF_BOUNDS p; RESIZE_WINDOWS := x;
     PLANES_SATURATION := PLANES_SATURATION p;
     USE_PSEUDORAND := USE_PSEUDORAND p;
     CONST_DISPARITIES := CONST_DISPARITIES p; LOG := LOG p |}).

Definition to_PLANES_SATURATION (x : bool) : Vars -> Vars :=
  on_params (fun p =>
  {| ALFA := ALFA p; TAU_COL := TAU_COL p; TAU_GRAD := TAU_GRAD p;
     GAMMA := GAMMA p; WINDOW_SIZE := WINDOW_SIZE p; MIN_D := MIN_D p;
     MAX_D := MAX_D p; ITERATIONS := ITERATIONS p; MAX_SLOPE := MAX_SLOPE p;
     NORMALIZE_GRADIENTS := NORMALIZE_GRADIENTS p;
     OUT_OF_BOUNDS := OUT_OF_BOUNDS p; RESIZE_WINDOWS := RESIZE_WINDOWS p;
     PLANES_SATURATION := x;
     USE_PSEUDORAND := USE_PSEUDORAND p;
     CONST_DISPARITIES := CONST_DISPARITIES p; LOG := LOG p |}).

Definition to_USE_PSEUDORAND (x : bool) : Vars -> Vars := on_params (fun p =>
  {| ALFA := ALFA p; TAU_COL := TAU_COL p; TAU_GRAD := TAU_GRAD p;
     GAMMA := GAMMA p; WINDOW_SIZE := WINDOW_SIZE p; MIN_D := MIN_D p;
     MAX_D := MAX_D p; ITERATIONS := ITERATIONS p; MAX_SLOPE := MAX_SLOPE p;
     NORMALIZE_GRADIENTS := NORMALIZE_GRADIENTS p;
     OUT_OF_BOUNDS := OUT_OF_BOUNDS p; RESIZE_WINDOWS := RESIZE_WINDOWS p;
     PLANES_SATURATION := PLANES_SATURATION p;
     USE_PSEUDORAND := x;
     CONST_DISPARITIES := CONST_DISPARITIES p; LOG := LOG p |}).

Definition to_CONST_DISPARITIES (x : bool) : Vars -> Vars :=
  on_params (fun p =>
  {| ALFA := ALFA p; TAU_COL := TAU_COL p; TAU_GRAD := TAU_GRAD p;
     GAMMA := GAMMA p; WINDOW_SIZE := WINDOW_SIZE p; MIN_D := MIN_D p;
     MAX_D := MAX_D p; ITERATIONS := ITERATIONS p; MAX_SLOPE := MAX_SLOPE p;
     NORMALIZE_GRADIENTS := NORMALIZE_GRADIENTS p;
     OUT_OF_BOUNDS := OUT_OF_BOUNDS p; RESIZE_WINDOWS := RESIZE_WINDOWS p;
     PLANES_SATURATION := PLANES_SATURATION p;
     USE_PSEUDORAND := USE_PSEUDORAND p;
     CONST_DISPARITIES := x; LOG := LOG p |}).

End Assign.

(** ** Images, observable events and the driver's monad *)

(** Modelled from the spec: the [Image] class that spmatch.cpp compiles
    against (with [size], [get], [setPath], [normalize] and [write]) is not
    among the sources; include/image.hpp (lines 23-49) declares an older one,
    with the fields below and without these members.  A disparity map is "a
    dense W x H array of floating-point disparity" over the pixel coordinates
    "(w, h) with 0 <= w < W, 0 <= h < H": [size(0)] is W, [size(1)] is H and
    [get(w, h)] reads the array.  [setPath] replaces the path [write] will
    use. *)
Record Image : Type := {
  imgPath : string;
  pix : nat -> nat -> float;
  width : nat;
  height : nat;
  channels : nat
}.

Definition size (i : Image) (dim : nat) : nat :=
  match dim with 0%nat => width i | _ => height i end.

Definition get (i : Image) (w h : nat) : float := pix i w h.

Definition setPath (i : Image) (path : string) : Image :=
  {| imgPath := path; pix := pix i; width := width i; height := height i;
     channels := channels i |}.

(** [class StereoImagePair] as image.hpp declares it (lines 72-93): a left
    and a right image, built from two paths.  Line 214 of spmatch.cpp builds
    it that way.  The header spmatch.cpp includes, stereo.hpp, is not among
    the sources; the declaration of [computeDisparity] in image.hpp (line 88,
    one [Image] returned) is not the one the call of lines 217-219 fits. *)
Record StereoImagePair : Type := { leftImg : Image; rightImg : Image }.

(** What a run of the program does to the world, in order. *)
Inductive Event : Type :=
| EvStdout (text : string)
| EvOpenInput (path : string)
| EvLoadImage (path : string)
| EvComputeDisparity (p : Params)
| EvWriteText (path content : string)
| EvWriteImage (img : Image).

(** A computation leaves a trace of events and either throws or returns. *)
Definition M (A : Type) : Type := (list Event * (exn + A))%type.

Definition ret {A : Type} (a : A) : M A := ([], inr a).
Definition throw {A : Type} (e : exn) : M A := ([], inl e).
Definition emit (ev : Event) : M unit := ([ev], inr tt).
Definition lift {A : Type} (r : exn + A) : M A := ([], r).

Definition bind {A B : Type} (m : M A) (k : A -> M B) : M B :=
  match m with
  | (t, inl e) => (t, inl e)
  | (t, inr a) => let (t', r) := k a in ((t ++ t')%list, r)
  end.

Declare Scope driver_scope.
Delimit Scope driver_scope with driver.
Notation "x <- m ;; k" := (bind m (fun x => k))
  (at level 61, m at next level, right associativity) : driver_scope.
Notation "m ;; k" := (bind m (fun _ => k))
  (at level 61, right associativity) : driver_scope.
Open Scope driver_scope.

(** How a process ends: [main] returns a code, or an exception nobody
    catches reaches [std::terminate]. *)
Inductive Outcome : Type :=
| Returned (code : Z)
| Terminated (e : exn).

Definition run (m : M Z) : list Event * Outcome :=
  match m with
  | (t, inr code) => (t, Returned code)
  | (t, inl e) => (t, Terminated e)
  end.

(** ** The option table of [main] (lines 52-103) *)

Module ProgramOptions.

Inductive value_type : Type :=
| TString | TStrings | TInt | TUnsigned | TDouble | TBool | TOutOfBounds.

Definition sem (T : value_type) : Type :=
  match T with
  | TString => string
  | TStrings => list string
  | TInt => Z
  | TUnsigned => Z
  | TDouble => float
  | TBool => bool
  | TOutOfBounds => OutOfBounds
  end.

(** [po::value<T>(&x)] with its modifiers. *)
Record typed_value (T : value_type) : Type := {
  store_to : sem T -> Vars -> Vars;
  default_value : option (sem T);
  implicit_value : option (sem T);
  multitoken : bool;
  required : bool
}.
Arguments store_to {T}.
Arguments default_value {T}.
Arguments implicit_value {T}.
Arguments multitoken {T}.
Arguments required {T}.

Definition value (T : value_type) (f : sem T -> Vars -> Vars) : typed_value T :=
  {| store_to := f; default_value := None; implicit_value := None;
     multitoken := false; required := false |}.

Definition with_default {T : value_type} (tv : typed_value T) (v : sem T)
  : typed_value T :=
  {| store_to := store_to tv; default_value := Some v;
     implicit_value := implicit_value tv; multitoken := multitoken tv;
     required := required tv |}.

Definition with_implicit {T : value_type} (tv : typed_value T) (v : sem T)
  : typed_value T :=
  {| store_to := store_to tv; default_value := default_value tv;
     implicit_value := Some v; multitoken := multitoken tv;
     required := required tv |}.

Definition with_multitoken {T : value_type} (tv : typed_value T)
  : typed_value T :=
  {| store_to := store_to tv; default_value := default_value tv;
     implicit_value := implicit_value tv; multitoken := true;
     required := required tv |}.

Definition with_required {T : value_type} (tv : typed_value T)
  : typed_value T :=
  {| store_to := store_to tv; default_value := default_value tv;
     implicit_value := implicit_value tv; multitoken := multitoken tv;
     required := true |}.

(** An option with no value ("help") or with a typed one. *)
Inductive value_semantic : Type :=
| untyped_value
| typed (T : value_type) (tv : typed_value T).

Record option_description : Type := {
  long_name : string;
  short_name : option ascii;
  semantic : value_semantic;
  description : string
}.

Definition opt (long : string) (short : option ascii) (s : value_semantic)
           (descr : string) : option_description :=
  {| long_name := long; short_name := short; semantic := s;
     description := descr |}.

(** One option as the command-line parser hands it to [store]. *)
Record basic_option : Type := {
  string_key : string;
  tokens : list string
}.

(** [boost::any] as the variables map holds it. *)
Inductive any : Type :=
| any_untyped (s : string)
| any_typed (T : value_type) (v : sem T).

(** [po::variable_value]: the value, whether it is a default, and the
    assignment [notify] will run for it. *)
Record variable_value : Type := {
  held : any;
  defaulted : bool;
  notifier : Vars -> Vars
}.

Definition variables_map : Type := list (string * variable_value).

Fixpoint find (m : variables_map) (key : string) : option variable_value :=
  match m with
  | [] => None
  | (k, v) :: m' => if String.eqb k key then Some v else find m' key
  end.

(** [vMap.count(key)]. *)
Definition count (m : variables_map) (key : string) : nat :=
  match find m key with Some _ => 1 | None => 0 end.

Fixpoint set (m : variables_map) (key : string) (v : variable_value)
  : variables_map :=
  match m with
  | [] => [(key, v)]
  | (k, v0) :: m' =>
      if String.eqb k key then (k, v) :: m' else (k, v0) :: set m' key v
  end.

Fixpoint find_option (desc : list option_description) (key : string)
  : option option_description :=
  match desc with
  | [] => None
  | d :: desc' =>
      if String.eqb (long_name d) key then Some d else find_option desc' key
  end.

End ProgramOptions.
Import ProgramOptions.

(** [generalOpts] (lines 55-62). *)
Definition generalOpts : list option_description := [
  opt "help" (Some "h"%char) untyped_value "Help";
  opt "output" (Some "o"%char)
      (typed TString (with_default (value TString Assign.to_outputPath)
                                   "disparity.png"))
      "The path/name of the output files";
  opt "inputs" (Some "I"%char)
      (typed TStrings
         (with_required (with_multitoken (value TStrings Assign.to_inputImages))))
      "Left and right images";
  opt "log" (Some "l"%char) (typed TInt (value TInt Assign.to_LOG))
      "Log level {0,...,3}"
].

(** [paramsOpts] (lines 63-93). *)
Definition paramsOpts : list option_description := [
  opt "alfa" None (typed TDouble (value TDouble Assign.to_ALFA)) "ALFA constant";
  opt "tau_col" None (typed TDouble (value TDouble Assign.to_TAU_COL))
      "TAU_COL constant";
  opt "tau_grad" None (typed TDouble (value TDouble Assign.to_TAU_GRAD))
      "TAU_GRAD constant";
  opt "gamma" None (typed TDouble (value TDouble Assign.to_GAMMA)) "GAMMA constant";
  opt "window_size" (Some "w"%char)
      (typed TUnsigned (value TUnsigned Assign.to_WINDOW_SIZE))
      "Pixel size of the matching window";
  opt "min_d" (Some "m"%char) (typed TInt (value TInt Assign.to_MIN_D))
      "Minimum disparity";
  opt "max_d" (Some "M"%char) (typed TInt (value TInt Assign.to_MAX_D))
      "Maximum disparity";
  opt "iteration" (Some "i"%char) (typed TUnsigned (value TUnsigned Assign.to_ITERATIONS))
      "Number of iterations per view";
  opt "max_slope" None (typed TDouble (value TDouble Assign.to_MAX_SLOPE))
      "Maximum slope of each window";
  opt "normalize_gradients" None
      (typed TBool (with_implicit (value TBool Assign.to_NORMALIZE_GRADIENTS) true))
      "Whether the gradient map should be normalized";
  opt "out_of_bounds" None
      (typed TOutOfBounds (value TOutOfBounds Assign.to_OUT_OF_BOUNDS))
      "Out of bounds action. One of {repeat, black, zero, error, nan}";
  opt "resize_window" None
      (typed TBool (with_implicit (value TBool Assign.to_RESIZE_WINDOWS) true))
      "Whether slanted windows should be smaller";
  opt "planes_saturation" None
      (typed TBool (with_implicit (value TBool Assign.to_PLANES_SATURATION) true))
      "Force any internal value to be saturated";
  opt "use_pseudorand" None
      (typed TBool (with_implicit (value TBool Assign.to_USE_PSEUDORAND) true))
      "Use pseudorandom numbers (repeatable computation)";
  opt "const_disparities" None
      (typed TBool (with_implicit (value TBool Assign.to_CONST_DISPARITIES) true))
      "Always use constant planes"
].

(** [positionalOpts.add("inputs", 2)] (lines 95-96). *)
Definition positionalOpts : list (string * nat) := [("inputs", 2%nat)].

(** The caption of [allOpts] (lines 98-102); "\n" is the line feed. *)
Definition newline : string := String "010"%char EmptyString.

Definition caption : string :=
  "" ++ "SPMatch. " ++
  "Stereo matching with slanted support windows" ++ newline ++
  "Implementation of Cipollone R." ++ newline ++
  "Usage:" ++ newline ++
  "  spmatch <left_image> <right_image>" ++ newline.

(** [allOpts.add(generalOpts).add(paramsOpts)] (line 103). *)
Definition allOpts : list option_description := generalOpts ++ paramsOpts.

(** ** The collaborators of the driver *)

(** Modelled from the spec: the body of [StereoImagePair::computeDisparity]
    is not among the sources; only its call in [writeDisparityMap] is.  The
    spec gives its interface: "The core consumes two immutable [ImageView]s
    and a [Params] struct; it emits two [DisparityMap]s."  The call site reads
    the result through [.first] and [.second].  The core may throw. *)
Definition disparity_core : Type :=
  Params -> StereoImagePair -> exn + (Image * Image).

(** Everything the driver calls and does not define. *)
Record Env : Type := {
  (** [po::command_line_parser(argc, argv).options(..).positional(..).run()] *)
  command_line_parser :
    list option_description -> list (string * nat) -> list string ->
    exn + list basic_option;
  (** [operator<<] of an [options_description] with the given caption *)
  options_text : string -> list option_description -> string;
  (** [boost::lexical_cast] to [int], [unsigned] and [double] *)
  lexical_cast_int : string -> option Z;
  lexical_cast_unsigned : string -> option Z;
  lexical_cast_double : string -> option float;
  (** Boost's reading of a [bool] option value *)
  validate_bool : string -> option bool;
  (** whether [std::ifstream f(path)] is [good()] *)
  ifstream_good : string -> bool;
  (** whether [std::ofstream f(path)] could open its file *)
  ofstream_good : string -> bool;
  (** the constructor [StereoImage(const string&)] *)
  Image_load : string -> exn + Image;
  computeDisparity : disparity_core;
  (** [Image::normalize()] and [Image::write()] *)
  normalize : Image -> Image;
  Image_write : Image -> exn + unit;
  (** [operator<<] of a [double] under [std::setprecision(n)] *)
  format_double : Z -> float -> string
}.

(** ** Storing and notifying parsed options *)

Module Store.

Definition and_then {A B : Type} (r : exn + A) (k : A -> exn + B) : exn + B :=
  match r with
  | inl e => inl e
  | inr a => k a
  end.

(** [validators::get_single_string]. *)
Definition get_single_string (xs : list string) (allow_empty : bool)
  : exn + string :=
  match xs with
  | [] => if allow_empty then inr EmptyString
          else inl (po_error at_least_one_value_required "")
  | [s] => inr s
  | _ => inl (po_error multiple_values_not_allowed "")
  end.

(** [validators::check_first_occurrence]. *)
Definition check_first_occurrence (old : option any) : exn + unit :=
  match old with
  | Some _ => inl (po_error multiple_occurrences "")
  | None => inr tt
  end.

Definition as_strings (old : option any) : list string :=
  match old with
  | Some (any_typed T v) =>
      match T return sem T -> list string with
      | TStrings => fun l => l
      | _ => fun _ => []
      end v
  | _ => []
  end.

(** [boost::lexical_cast<Params::OutOfBounds>(s)]: the extractor of the
    program runs on a stream over [s] with [skipws] cleared; what it throws
    passes through, and characters left behind make the cast fail. *)
Definition lexical_cast_OutOfBounds (s : string) : exn + option OutOfBounds :=
  match operator_shr {| IStream.buf := s; IStream.skipws := false |} with
  | inl e => inl e
  | inr (in', selection) =>
      match IStream.buf in' with
      | EmptyString => inr (Some selection)
      | _ => inr None
      end
  end.

Definition or_invalid {A : Type} (s : string) (r : option A) : exn + A :=
  match r with
  | Some a => inr a
  | None => inl (po_error invalid_option_value s)
  end.

(** [validate(any&, const vector<string>&, T*, long)] for each [T] of the
    table. *)
Definition validate (env : Env) (T : value_type) (old : option any)
           (xs : list string) : exn + sem T :=
  match T return exn + sem T with
  | TStrings => inr (as_strings old ++ xs)%list
  | TString =>
      and_then (check_first_occurrence old) (fun _ =>
      get_single_string xs false)
  | TInt =>
      and_then (check_first_occurrence old) (fun _ =>
      and_then (get_single_string xs false) (fun s =>
      or_invalid s (lexical_cast_int env s)))
  | TUnsigned =>
      and_then (check_first_occurrence old) (fun _ =>
      and_then (get_single_string xs false) (fun s =>
      or_invalid s (lexical_cast_unsigned env s)))
  | TDouble =>
      and_then (check_first_occurrence old) (fun _ =>
      and_then (get_single_string xs false) (fun s =>
      or_invalid s (lexical_cast_double env s)))
  | TBool =>
      and_then (check_first_occurrence old) (fun _ =>
      and_then (get_single_string xs true) (fun s =>
      match validate_bool env s with
      | Some b => inr b
      | None => inl (po_error invalid_bool_value s)
      end))
  | TOutOfBounds =>
      and_then (check_first_occurrence old) (fun _ =>
      and_then (get_single_string xs false) (fun s =>
      and_then (lexical_cast_OutOfBounds s) (or_invalid s)))
  end.

Definition explicit (T : value_type) (tv : typed_value T) (v : sem T)
  : variable_value :=
  {| held := any_typed T v; defaulted := false; notifier := store_to tv v |}.

(** One turn of the first loop of [po::store]. *)
Definition store_option (env : Env) (desc : list option_description)
           (m : variables_map) (o : basic_option) : exn + variables_map :=
  let key := string_key o in
  if String.eqb key "" then inr m
  else
    match find_option desc key with
    | None => inl (po_error unknown_option key)
    | Some d =>
        let old := option_map held (find m key) in
        match semantic d with
        | untyped_value =>
            match old with
            | Some _ => inl (po_error multiple_occurrences key)
            | None =>
                if (1 <? List.length (tokens o))%nat
                then inl (po_error multiple_values_not_allowed key)
                else inr (set m key
                            {| held := any_untyped (hd EmptyString (tokens o));
                               defaulted := false;
                               notifier := fun v => v |})
            end
        | typed T tv =>
            match tokens o, implicit_value tv with
            | [], Some v => inr (set m key (explicit T tv v))
            | xs, _ =>
                and_then (validate env T old xs) (fun v =>
                inr (set m key (explicit T tv v)))
            end
        end
    end.

Fixpoint store_options (env : Env) (desc : list option_description)
         (m : variables_map) (parsed : list basic_option)
  : exn + variables_map :=
  match parsed with
  | [] => inr m
  | o :: rest =>
      and_then (store_option env desc m o) (fun m' =>
      store_options env desc m' rest)
  end.

(** The second loop of [po::store]: defaults for the options not given. *)
Definition apply_default (m : variables_map) (d : option_description)
  : variables_map :=
  match find m (long_name d), semantic d with
  | None, typed T tv =>
      match default_value tv with
      | Some v =>
          set m (long_name d)
            {| held := any_typed T v; defaulted := true;
               notifier := store_to tv v |}
      | None => m
      end
  | _, _ => m
  end.

(** [po::store(parsed, vMap)] *)
Definition store (env : Env) (desc : list option_description)
           (parsed : list basic_option) (m : variables_map)
  : exn + variables_map :=
  and_then (store_options env desc m parsed) (fun m' =>
  inr (fold_left apply_default desc m')).

Definition is_required (d : option_description) : bool :=
  match semantic d with
  | typed _ tv => required tv
  | untyped_value => false
  end.

Definition missing_required (desc : list option_description)
           (m : variables_map) : option option_description :=
  List.find (fun d => is_required d && (count m (long_name d) =? 0)%nat) desc.

(** [po::notify(vMap)]: required options are checked first, then every
    stored value is assigned to the variable it was declared with. *)
Definition notify (desc : list option_description) (m : variables_map)
           (vars : Vars) : exn + Vars :=
  match missing_required desc m with
  | Some d => inl (po_error required_option (long_name d))
  | None => inr (fold_left (fun v kv => notifier (snd kv) v) m vars)
  end.

End Store.

(** ** [writeDisparityMap] (lines 199-242) *)

(** [for (size_t i = from; i < from + n; ++i) body(i)] on a state [S]. *)
Fixpoint for_loop {S : Type} (i n : nat) (body : nat -> S -> S) (s : S) : S :=
  match n with
  | 0%nat => s
  | Datatypes.S n' => for_loop (Datatypes.S i) n' body (body i s)
  end.

(** [operator<<] of a [size_t]. *)
Definition format_size_t (n : nat) : string :=
  NilZero.string_of_uint (Nat.to_uint n).

(** What one turn of the inner loop sends to a CSV stream (lines 226-229). *)
Definition csv_line (env : Env) (w h : nat) (d : float) : string :=
  format_size_t w ++ ", " ++ format_size_t h ++ ", " ++
  format_double env 8 d ++ newline.

(** The two nested loops (lines 224-231) on the pair of stream buffers
    [(leftDispCsv, rightDispCsv)]; both loops are bounded by the sizes of
    [leftDisp]. *)
Definition csv_loops (env : Env) (leftDisp rightDisp : Image)
  : string * string :=
  for_loop 0 (size leftDisp 0) (fun w st =>
    for_loop 0 (size leftDisp 1) (fun h st =>
      (fst st ++ csv_line env w h (get leftDisp w h),
       snd st ++ csv_line env w h (get rightDisp w h))) st)
    (EmptyString, EmptyString).

(** An [std::ofstream] that could not open its file swallows what it is
    sent; no exception is enabled on it. *)
Definition ofstream_close (env : Env) (path content : string) : M unit :=
  if ofstream_good env path then emit (EvWriteText path content) else ret tt.

(** [img.write()]: the collaborator returns or throws; a write that
    returned is recorded. *)
Definition write (env : Env) (img : Image) : M unit :=
  _ <- lift (Image_write env img) ;; emit (EvWriteImage img).

(** The constructor of [StereoImagePair] (image.hpp, lines 82-83): the
    members are initialised in declaration order. *)
Definition load (env : Env) (path : string) : M Image :=
  img <- lift (Image_load env path) ;;
  _ <- emit (EvLoadImage path) ;;
  ret img.

Definition mkStereoImagePair (env : Env) (leftImgPath rightImgPath : string)
  : M StereoImagePair :=
  l <- load env leftImgPath ;;
  r <- load env rightImgPath ;;
  ret {| leftImg := l; rightImg := r |}.

Definition writeDisparityMap (env : Env) (params : Params)
           (leftImgPath rightImgPath disparityPath : string) : M unit :=
  (* Set the paths *)
  let extPos := StdString.rfind disparityPath "."%char in
  leftDisparityPath <- lift (StdString.insert disparityPath extPos "L") ;;
  rightDisparityPath <- lift (StdString.insert disparityPath extPos "R") ;;
  leftDisparityTextPath <-
    lift (StdString.replace disparityPath extPos 10 "L.csv") ;;
  rightDisparityTextPath <-
    lift (StdString.replace disparityPath extPos 10 "R.csv") ;;
  (* Read the two stereo images *)
  stereo <- mkStereoImagePair env leftImgPath rightImgPath ;;
  (* Run the algorithm *)
  _ <- emit (EvComputeDisparity params) ;;
  disparities <- lift (computeDisparity env params stereo) ;;
  let leftDisp := fst disparities in
  let rightDisp := snd disparities in
  (* Write to text files *)
  let csv := csv_loops env leftDisp rightDisp in
  _ <- ofstream_close env leftDisparityTextPath (fst csv) ;;
  _ <- ofstream_close env rightDisparityTextPath (snd csv) ;;
  (* Normalization before converting to uint8 *)
  let leftDisp := normalize env leftDisp in
  let rightDisp := normalize env rightDisp in
  (* Write the result to image *)
  _ <- write env (setPath leftDisp leftDisparityPath) ;;
  write env (setPath rightDisp rightDisparityPath).

(** ** [main] (lines 42-137) *)

(* [DEBUG] is not defined (line 21): lines 128-131 are not compiled. *)

(** The loop of lines 121-126. *)
Fixpoint check_inputs (env : Env) (inputImages : list string) : M unit :=
  match inputImages with
  | [] => ret tt
  | s :: rest =>
      _ <- emit (EvOpenInput s) ;;
      if negb (ifstream_good env s)
      then throw (runtime_error ("File not found: " ++ s))
      else check_inputs env rest
  end.

(** Lines 105-107: the command line is parsed and stored in [vMap]. *)
Definition parse_and_store (env : Env) (argv : list string)
  : exn + variables_map :=
  Store.and_then (command_line_parser env allOpts positionalOpts argv)
    (fun parsed => Store.store env allOpts parsed []).

(** The variables before the command line is read: the locals are empty,
    the global holds the defaults (line 45). *)
Definition initial_vars : Vars :=
  {| outputPath := EmptyString; inputImages := []; params := setDefaults |}.

Definition help_text (env : Env) : string :=
  options_text env caption allOpts ++ newline.

Definition main_body (env : Env) (argv : list string) : M Z :=
  vMap <- lift (parse_and_store env argv) ;;
  (* Help *)
  if (0 <? count vMap "help")%nat then
    _ <- emit (EvStdout (help_text env)) ;;
    ret 1%Z
  else
    (* Check options *)
    vars <- lift (Store.notify allOpts vMap initial_vars) ;;
    if negb (List.length (inputImages vars) =? 2)%nat
    then throw (runtime_error "Need two images")
    else
      _ <- check_inputs env (inputImages vars) ;;
      (* run *)
      l <- lift (StdString.at_ (inputImages vars) 0) ;;
      r <- lift (StdString.at_ (inputImages vars) 1) ;;
      _ <- writeDisparityMap env (params vars) l r (outputPath vars) ;;
      ret 0%Z.

Definition main (env : Env) (argv : list string) : list Event * Outcome :=
  run (main_body env argv).

(** ** A concrete world to run the driver in *)

Module Example.

Definition is_digit (c : ascii) : bool :=
  (48 <=? nat_of_ascii c)%nat && (nat_of_ascii c <=? 57)%nat.

Fixpoint decimal_from (acc : Z) (s : string) : option Z :=
  match s with
  | EmptyString => Some acc
  | String c s' =>
      if is_digit c
      then decimal_from (10 * acc + Z.of_nat (nat_of_ascii c - 48)) s'
      else None
  end.

(** Digits only, at least one. *)
Definition decimal (s : string) : option Z :=
  match s with
  | EmptyString => None
  | _ => decimal_from 0 s
  end.

Definition cast_int (s : string) : option Z :=
  match s with
  | String "-"%char s' => option_map Z.opp (decimal s')
  | _ => decimal s
  end.

Definition cast_unsigned (s : string) : option Z :=
  match decimal s with
  | Some z => if (z <? 2 ^ 32)%Z then Some z else None
  | None => None
  end.

Definition cast_double (s : string) : option float :=
  if String.eqb s "0.5" then Some 0.5%float
  else if String.eqb s "1" then Some 1%float
  else if String.eqb s "0" then Some 0%float
  else None.

Definition read_bool (s : string) : option bool :=
  if existsb (String.eqb s) [""; "on"; "yes"; "1"; "true"] then Some true
  else if existsb (String.eqb s) ["off"; "no"; "0"; "false"] then Some false
  else None.

Definition is_option_token (s : string) : bool :=
  match s with
  | String "-"%char (String _ _) => true
  | _ => false
  end.

(** The leading tokens that are not options, and the rest. *)
Fixpoint values (args : list string) : list string * list string :=
  match args with
  | a :: rest =>
      if is_option_token a then ([], args)
      else let (vs, r) := values rest in (a :: vs, r)
  | [] => ([], [])
  end.

Definition max_tokens (d : option_description) : option nat :=
  match semantic d with
  | untyped_value => Some 0%nat
  | typed _ tv => if multitoken tv then None else Some 1%nat
  end.

Definition min_tokens (d : option_description) : nat :=
  match semantic d with
  | untyped_value => 0
  | typed _ tv =>
      match implicit_value tv with Some _ => 0 | None => 1 end
  end.

(** A command-line reader for the long style [--name value ...] with
    positional arguments; [fuel] bounds the number of tokens read. *)
Fixpoint read_args (fuel : nat) (desc : list option_description)
         (positional : list (string * nat)) (seen : nat)
         (args : list string) : exn + list basic_option :=
  match fuel, args with
  | _, [] => inr []
  | 0%nat, _ => inl (po_error invalid_command_line_syntax "")
  | S fuel', String "-"%char (String "-"%char name) :: rest =>
      match find_option desc name with
      | None => inl (po_error unknown_option name)
      | Some d =>
          let (vs, rest') := values rest in
          let taken :=
            match max_tokens d with
            | Some n => firstn n vs
            | None => vs
            end in
          let left := skipn (List.length taken) vs in
          if (List.length taken <? min_tokens d)%nat
          then inl (po_error invalid_command_line_syntax name)
          else
            Store.and_then
              (read_args fuel' desc positional seen (left ++ rest')%list)
              (fun os => inr ({| string_key := name; tokens := taken |} :: os))
      end
  | S fuel', a :: rest =>
      match positional with
      | (name, limit) :: _ =>
          if (seen <? limit)%nat
          then
            Store.and_then
              (read_args fuel' desc positional (S seen) rest)
              (fun os => inr ({| string_key := name; tokens := [a] |} :: os))
          else inl (po_error too_many_positional_options a)
      | [] => inl (po_error too_many_positional_options a)
      end
  end.

(** [argv[0]] names the program and is not an argument. *)
Definition parser (desc : list option_description)
           (positional : list (string * nat)) (argv : list string)
  : exn + list basic_option :=
  read_args (List.length argv) desc positional 0 (tl argv).

Definition listing (cap : string) (desc : list option_description) : string :=
  cap ++ String.concat "" (map (fun d => "  --" ++ long_name d ++ newline) desc).

(** A two by two image. *)
Definition ramp (path : string) (base : float) : Image :=
  {| imgPath := path;
     pix := fun w h => if (w =? 0)%nat then base else (base + 1)%float;
     width := 2; height := 2; channels := 1 |}.

Definition show (precision : Z) (d : float) : string :=
  if PrimFloat.eqb d 3 then "3"
  else if PrimFloat.eqb d 4 then "4"
  else if PrimFloat.eqb d 7 then "7"
  else if PrimFloat.eqb d 8 then "8"
  else "?".

(** A world with the given readable input files and writable output
    files; its core answers with two fixed maps. *)
Definition world (readable : list string) (writable : string -> bool) : Env :=
  {| command_line_parser := parser;
     options_text := listing;
     lexical_cast_int := cast_int;
     lexical_cast_unsigned := cast_unsigned;
     lexical_cast_double := cast_double;
     validate_bool := read_bool;
     ifstream_good := fun p => existsb (String.eqb p) readable;
     ofstream_good := writable;
     Image_load := fun p =>
       if existsb (String.eqb p) readable then inr (ramp p 0)
       else inl (io_error p);
     computeDisparity := fun _ _ => inr (ramp "" 3, ramp "" 7);
     normalize := fun i => i;
     Image_write := fun i =>
       if writable (imgPath i) then inr tt else inl (io_error (imgPath i));
     format_double := show |}.

Definition both : list string := ["left.png"; "right.png"].

Definition everywhere (_ : string) : bool := true.

(** Every path is writable but those that end in ".csv". *)
Definition not_csv (p : string) : bool :=
  negb (String.eqb (StdString.drop (String.length p - 4) p) ".csv").

(** The world in which both inputs exist and every output can be written,
    and the one in which the CSV files cannot. *)
Definition plain : Env := world both everywhere.
Definition csv_locked : Env := world both not_csv.

(** What [main] finds in [vMap] and in its variables at a command line
    that is stored and notified without error. *)
Definition stored (env : Env) (argv : list string) : variables_map :=
match parse_and_store env argv with
| inr m => m
| inl _ => []
end.

Definition notified (env : Env) (argv : list string) : Vars :=
match Store.notify allOpts (stored env argv) initial_vars with
| inr v => v
| inl _ => initial_vars
end.

End Example.

(** ** The vocabulary of the properties *)

(** The five tokens the help text of [--out_of_bounds] lists. *)
Definition accepted_tokens : list string :=
  ["repeat"; "black"; "zero"; "error"; "nan"].

(** Which events touch pixel data: loading an image, running the core and
    writing disparities out.  Opening an input file to see that it exists and
    printing the help text do not. *)
Definition touches_pixels (ev : Event) : bool :=
  match ev with
  | EvLoadImage _ | EvComputeDisparity _ | EvWriteText _ _ | EvWriteImage _ =>
      true
  | EvStdout _ | EvOpenInput _ => false
  end.

(** What closing a text stream adds to the trace. *)
Definition text_events (env : Env) (path content : string) : list Event :=
  if ofstream_good env path then [EvWriteText path content] else [].

(** The parameter blocks the spec calls invalid. *)
Definition invalid_parameters (p : Params) : Prop :=
  Z.even (WINDOW_SIZE p) = true \/
  (MAX_D p <= MIN_D p)%Z \/
  (MAX_D p <= 0)%Z.

(** An uncaught exception ends the process through [std::terminate], never
    with status 0. *)
Definition exits_nonzero (o : Outcome) : Prop :=
  match o with
  | Returned c => c <> 0%Z
  | Terminated _ => True
  end.

(** The part of the spec's exit-code rule that concerns the text outputs: a run
    that gets to its outputs and cannot open one of the two CSV files does
    not exit with 0. *)
Definition unwritable_output_exits_nonzero (env : Env) (argv : list string)
  : Prop :=
  forall vMap vars tL tR,
    parse_and_store env argv = inr vMap ->
    count vMap "help" = 0%nat ->
    Store.notify allOpts vMap initial_vars = inr vars ->
    StdString.replace (outputPath vars)
      (StdString.rfind (outputPath vars) "."%char) 10 "L.csv" = inr tL ->
    StdString.replace (outputPath vars)
      (StdString.rfind (outputPath vars) "."%char) 10 "R.csv" = inr tR ->
    ofstream_good env tL = false \/ ofstream_good env tR = false ->
    exits_nonzero (snd (main env argv)).

(** The lines of a file, one after the other. *)
Definition join (l : list string) : string := fold_right append "" l.

(** The lines of a CSV file as the spec words them: one line "w, h,
    disparity" per pixel, for w from 0 to W - 1 and, inside, h from 0 to
    H - 1. *)
Definition csv_rows (env : Env) (W H : nat) (f : nat -> nat -> float)
  : list string :=
  flat_map (fun w => map (fun h => csv_line env w h (f w h)) (seq 0 H))
           (seq 0 W).

(** ** The check of the parameter block *)

(** [invalid_parameters] as a test. *)
Definition invalid_parametersb (p : Params) : bool :=
  Z.even (WINDOW_SIZE p) || (MAX_D p <=? MIN_D p)%Z || (MAX_D p <=? 0)%Z.

(** Modelled from the spec: the check of the parameter block.  The driver
    has none (lines 116-134 pass the block on as [po::notify] left it), and
    the code that could have one, the constructor of [StereoImage] and the
    body of [StereoImagePair::computeDisparity], is not among the sources.
    The spec says: "Invalid-parameters: even WINDOW_SIZE, MAX_D <= MIN_D,
    MAX_D <= 0, unrecognized enum - fatal before any computation."  The enum
    is read by [operator>>], which is in the sources.  For the three other
    cases the core is taken to refuse the block on entry, before it computes
    anything, with an exception [invalid] the spec does not name; on any
    other block it is the computation [compute]. *)
Definition validating_core (invalid : exn) (compute : disparity_core)
  : disparity_core :=
  fun p stereo =>
    if invalid_parametersb p then inl invalid else compute p stereo.


(** The world [Example.plain] with a core that checks its block. *)
Module Checked.

Definition invalid : exn := runtime_error "Invalid parameters".

Definition world : Env :=
  {| command_line_parser := command_line_parser Example.plain;
     options_text := options_text Example.plain;
     lexical_cast_int := lexical_cast_int Example.plain;
     lexical_cast_unsigned := lexical_cast_unsigned Example.plain;
     lexical_cast_double := lexical_cast_double Example.plain;
     validate_bool := validate_bool Example.plain;
     ifstream_good := ifstream_good Example.plain;
     ofstream_good := ofstream_good Example.plain;
     Image_load := Image_load Example.plain;
     computeDisparity :=
       validating_core invalid (computeDisparity Example.plain);
     normalize := normalize Example.plain;
     Image_write := Image_write Example.plain;
     format_double := format_double Example.plain |}.

End Checked.

(** ** Text made of lines, and the files a run leaves *)

(** The character "\n". *)
Definition line_feed : ascii := "010"%char.

(** A text made of the given lines, each ended by a line feed. *)
Definition terminated (ls : list string) : string :=
  join (map (fun l => l ++ String line_feed EmptyString) ls).

(** The lines of a text: what stands between two line feeds, and what
    follows the last one when that is not empty. *)
Fixpoint lines (s : string) : list string :=
  match s with
  | EmptyString => []
  | String c s' =>
      if Ascii.eqb c line_feed then EmptyString :: lines s'
      else
        match lines s' with
        | [] => [String c EmptyString]
        | l :: ls => String c l :: ls
        end
  end.

(** What a file holds: text, or an encoded image. *)
Inductive FileContent : Type :=
| TextFile (content : string)
| ImageFile (img : Image).

Definition written_by (ev : Event) (path : string) : option FileContent :=
  match ev with
  | EvWriteText p content =>
      if String.eqb p path then Some (TextFile content) else None
  | EvWriteImage img =>
      if String.eqb (imgPath img) path then Some (ImageFile img) else None
  | _ => None
  end.

(** What the run with trace [t] leaves at [path]: the last thing written
    there, if anything was. *)
Definition file_after (t : list Event) (path : string) : option FileContent :=
  fold_left (fun held ev =>
               match written_by ev path with
               | Some content => Some content
               | None => held
               end) t None.

(** The line of a pixel as the spec words it, "w, h, disparity" with the
    disparity at precision 8, and the lines of a map of dimensions W and H in
    row-major order of (w, h), w being the outer index. *)
Definition pixel_line (env : Env) (w h : nat) (d : float) : string :=
  format_size_t w ++ ", " ++ format_size_t h ++ ", " ++ format_double env 8 d.

Definition pixel_lines (env : Env) (W H : nat) (f : nat -> nat -> float)
  : list string :=
  flat_map (fun w => map (fun h => pixel_line env w h (f w h)) (seq 0 H))
           (seq 0 W).

(** The spec's statement on the CSV files: after every run that completes,
    the two text paths hold the lines of the two maps. *)
Definition completed_runs_leave_both_csv_files (env : Env)
           (argv : list string) : Prop :=
  snd (main env argv) = Returned 0 ->
  forall vMap vars l r il ir dl dr tL tR,
    parse_and_store env argv = inr vMap ->
    Store.notify allOpts vMap initial_vars = inr vars ->
    inputImages vars = [l; r] ->
    Image_load env l = inr il ->
    Image_load env r = inr ir ->
    computeDisparity env (params vars) {| leftImg := il; rightImg := ir |}
    = inr (dl, dr) ->
    StdString.replace (outputPath vars)
      (StdString.rfind (outputPath vars) "."%char) 10 "L.csv" = inr tL ->
    StdString.replace (outputPath vars)
      (StdString.rfind (outputPath vars) "."%char) 10 "R.csv" = inr tR ->
    file_after (fst (main env argv)) tL
    = Some (TextFile (terminated
                        (pixel_lines env (size dl 0) (size dl 1) (get dl)))) /\
    file_after (fst (main env argv)) tR
    = Some (TextFile (terminated
                        (pixel_lines env (size dl 0) (size dl 1) (get dr)))).

(** ** The usage text *)

(** The caption of the usage text, line by line (lines 98-102). *)
Definition usage_lines : list string :=
  ["SPMatch. Stereo matching with slanted support windows";
   "Implementation of Cipollone R.";
   "Usage:";
   "  spmatch <left_image> <right_image>"].

(** The names under which the usage text lists the options (lines 55-92). *)
Definition option_names : list string :=
  ["help"; "output"; "inputs"; "log";
   "alfa"; "tau_col"; "tau_grad"; "gamma"; "window_size"; "min_d"; "max_d";
   "iteration"; "max_slope"; "normalize_gradients"; "out_of_bounds";
   "resize_window"; "planes_saturation"; "use_pseudorand";
   "const_disparities"].

(** The spec's statement on help: whenever "--help" is among the
    arguments, the run prints a text and returns 1. *)
Definition help_is_shown_whenever_asked (env : Env) (argv : list string)
  : Prop :=
  In "--help" (tl argv) ->
  exists text, main env argv = ([EvStdout text], Returned 1).

(** ** The vocabulary of the further properties *)

(** The token the help text of [--out_of_bounds] gives for each variant
    ("One of {repeat, black, zero, error, nan}", line 80). *)
Definition token_of (selection : OutOfBounds) : string :=
  match selection with
  | REPEAT_PIXEL => "repeat"
  | BLACK_PIXEL => "black"
  | ZERO_COST => "zero"
  | ERROR => "error"
  | NAN_COST => "nan"
  end.

(** What an extraction starts from: the buffer, after the white space that
    [skipws] makes it skip. *)
Definition unread (in_ : IStream.istream) : string :=
  if IStream.skipws in_ then IStream.skip_ws (IStream.buf in_)
  else IStream.buf in_.

(** The variable each option of lines 57-92 is declared with, read at the
    option's type: "output" is bound to [outputPath], "inputs" to
    [inputImages], "log" to [params.LOG], and so on; "help" is bound to
    nothing. *)
Definition bound_variable (key : string) (vars : Vars) : option any :=
  if String.eqb key "output"
  then Some (any_typed TString (outputPath vars))
  else if String.eqb key "inputs"
  then Some (any_typed TStrings (inputImages vars))
  else if String.eqb key "log"
  then Some (any_typed TInt (LOG (params vars)))
  else if String.eqb key "alfa"
  then Some (any_typed TDouble (ALFA (params vars)))
  else if String.eqb key "tau_col"
  then Some (any_typed TDouble (TAU_COL (params vars)))
  else if String.eqb key "tau_grad"
  then Some (any_typed TDouble (TAU_GRAD (params vars)))
  else if String.eqb key "gamma"
  then Some (any_typed TDouble (GAMMA (params vars)))
  else if String.eqb key "window_size"
  then Some (any_typed TUnsigned (WINDOW_SIZE (params vars)))
  else if String.eqb key "min_d"
  then Some (any_typed TInt (MIN_D (params vars)))
  else if String.eqb key "max_d"
  then Some (any_typed TInt (MAX_D (params vars)))
  else if String.eqb key "iteration"
  then Some (any_typed TUnsigned (ITERATIONS (params vars)))
  else if String.eqb key "max_slope"
  then Some (any_typed TDouble (MAX_SLOPE (params vars)))
  else if String.eqb key "normalize_gradients"
  then Some (any_typed TBool (NORMALIZE_GRADIENTS (params vars)))
  else if String.eqb key "out_of_bounds"
  then Some (any_typed TOutOfBounds (OUT_OF_BOUNDS (params vars)))
  else if String.eqb key "resize_window"
  then Some (any_typed TBool (RESIZE_WINDOWS (params vars)))
  else if String.eqb key "planes_saturation"
  then Some (any_typed TBool (PLANES_SATURATION (params vars)))
  else if String.eqb key "use_pseudorand"
  then Some (any_typed TBool (USE_PSEUDORAND (params vars)))
  else if String.eqb key "const_disparities"
  then Some (any_typed TBool (CONST_DISPARITIES (params vars)))
  else None.

(** An entry of the variables map agrees with the option table when its
    key names an option and its notifier is the assignment that option was
    declared with, applied to the value the entry holds. *)
Definition entry_bound (desc : list option_description)
           (kv : string * variable_value) : Prop :=
  match find_option desc (fst kv) with
  | Some d =>
      match semantic d with
      | untyped_value => forall vars, notifier (snd kv) vars = vars
      | typed T tv =>
          exists x : sem T,
            held (snd kv) = any_typed T x /\ notifier (snd kv) = store_to tv x
      end
  | None => False
  end.

(** A variables map whose entries agree with the table and whose keys are
    all different. *)
Definition well_bound (desc : list option_description) (m : variables_map)
  : Prop :=
  Forall (entry_bound desc) m /\ NoDup (map fst m).

(** The tokens the parsed options give to [key], in order. *)
Definition tokens_for (key : string) (parsed : list basic_option)
  : list string :=
  flat_map (fun o => if String.eqb (string_key o) key then tokens o else [])
           parsed.

(** Whether the parser found no option named [key]. *)
Definition not_given (key : string) (parsed : list basic_option) : Prop :=
  forall o, In o parsed -> string_key o <> key.

(** Reading back the coordinate [operator<<] printed. *)
Definition read_size_t (s : string) : option nat :=
  option_map Nat.of_uint (NilZero.uint_of_string s).

Definition is_digit (c : ascii) : bool :=
  (48 <=? nat_of_ascii c)%nat && (nat_of_ascii c <=? 57)%nat.

(** The decimal digits a string starts with, and what follows them. *)
Fixpoint leading_digits (s : string) : string * string :=
  match s with
  | EmptyString => (EmptyString, EmptyString)
  | String c s' =>
      if is_digit c
      then let (d, r) := leading_digits s' in (String c d, r)
      else (EmptyString, s)
  end.

(** Reading a CSV line back: the two coordinates and the text of the
    disparity, up to the end of the string. *)
Definition read_csv_line (line : string) : option (nat * nat * string) :=
  let (w, r1) := leading_digits line in
  match r1 with
  | String ","%char (String " "%char r2) =>
      let (h, r3) := leading_digits r2 in
      match r3 with
      | String ","%char (String " "%char r4) =>
          match read_size_t w, read_size_t h with
          | Some w', Some h' => Some (w', h', r4)
          | _, _ => None
          end
      | _ => None
      end
  | _ => None
  end.

(** A world in which a late stage fails: the left disparity image cannot be
    written. *)
Module Faults.

Definition left_image_locked : Env :=
  Example.world Example.both
    (fun p => negb (String.eqb p "disparityL.png")).

End Faults.

(** The string an [any] holds. *)
Definition held_string (a : option any) : option string :=
  match a with
  | Some (any_typed T v) =>
      match T return sem T -> option string with
      | TString => fun s => Some s
      | _ => fun _ => None
      end v
  | _ => None
  end.

(** The option [-o, --output] of line 57, and the entry [po::store] makes
    of its default. *)
Definition output_option : option_description :=
  opt "output" (Some "o"%char)
      (typed TString (with_default (value TString Assign.to_outputPath)
                                   "disparity.png"))
      "The path/name of the output files".

Definition default_output : variable_value :=
  {| held := any_typed TString "disparity.png"; defaulted := true;
     notifier := Assign.to_outputPath "disparity.png" |}.

(** * Properties *)

(** ** Strings *)

Section StringFacts.

Import StdString.

Lemma append_empty_r (s : string) : s ++ "" = s.
Proof. induction s as [|c s IH]; simpl; [reflexivity | now rewrite IH]. Qed.

Lemma append_associative (a b c : string) : (a ++ b) ++ c = a ++ (b ++ c).
Proof. induction a as [|x a IH]; simpl; [reflexivity | now rewrite IH]. Qed.

Lemma length_append (a b : string) :
  String.length (a ++ b) = (String.length a + String.length b)%nat.
Proof. induction a as [|x a IH]; simpl; [reflexivity | now rewrite IH]. Qed.

Lemma take_append (a b : string) : take (String.length a) (a ++ b) = a.
Proof. induction a as [|x a IH]; simpl; [now destruct b | now rewrite IH]. Qed.

Lemma drop_append (a b : string) : drop (String.length a) (a ++ b) = b.
Proof. induction a as [|x a IH]; simpl; [now destruct b | exact IH]. Qed.

Lemma drop_plus (n m : nat) (s : string) : drop (n + m) s = drop m (drop n s).
Proof.
  revert s; induction n as [|n IH]; intros s; simpl.
  - reflexivity.
  - destruct s as [|c s]; simpl; [now destruct m | apply IH].
Qed.

Lemma drop_all (n : nat) (s : string) :
  (String.length s <= n)%nat -> drop n s = "".
Proof.
  revert s; induction n as [|n IH]; intros [|c s]; simpl; intros H;
    try reflexivity; try lia.
  apply IH; lia.
Qed.

(** A string has no last occurrence of [c] exactly when [c] is not one of
    its characters. *)
Lemma last_index_None (s : string) (c : ascii) :
  last_index s c = None <-> ~ In c (list_ascii_of_string s).
Proof.
  induction s as [|a s IH]; simpl.
  - split; [intros _ [] | reflexivity].
  - destruct (last_index s c) as [i|].
    + split; [discriminate |].
      intros H. exfalso. destruct IH as [_ IH].
      assert (Hs : ~ In c (list_ascii_of_string s)) by tauto.
      specialize (IH Hs). discriminate.
    + destruct (Ascii.eqb_spec a c) as [->|Hne].
      * split; [discriminate | intros H; exfalso; apply H; now left].
      * split; [| reflexivity].
        intros _ [Heq|Hin]; [contradiction |].
        destruct IH as [IH _]. now apply IH.
Qed.

Lemma rfind_absent (s : string) (c : ascii) :
  ~ In c (list_ascii_of_string s) -> rfind s c = npos.
Proof.
  intros H. unfold rfind. now rewrite (proj2 (last_index_None s c) H).
Qed.

(** The last occurrence of [c] in [stem ++ c :: ext], when [ext] is free of
    it, is right after [stem]. *)
Lemma last_index_append (stem ext : string) (c : ascii) :
  ~ In c (list_ascii_of_string ext) ->
  last_index (stem ++ String c ext) c = Some (String.length stem).
Proof.
  intros H. induction stem as [|a stem IH]; simpl.
  - rewrite (proj2 (last_index_None ext c) H). now rewrite Ascii.eqb_refl.
  - now rewrite IH.
Qed.

Lemma rfind_append (stem ext : string) (c : ascii) :
  ~ In c (list_ascii_of_string ext) ->
  rfind (stem ++ String c ext) c = size stem.
Proof.
  intros H. unfold rfind, size. now rewrite last_index_append.
Qed.

Lemma insert_at (stem rest t : string) :
  insert (stem ++ rest) (size stem) t = inr (stem ++ t ++ rest).
Proof.
  unfold insert, size. rewrite length_append.
  destruct (Z.ltb_spec (Z.of_nat (String.length stem + String.length rest))
              (Z.of_nat (String.length stem))) as [H|H]; [lia |].
  rewrite Nat2Z.id, take_append, drop_append. reflexivity.
Qed.

(** [replace] at the end of [stem]: [len] characters of [rest] go, what is
    beyond them stays. *)
Lemma replace_at (stem rest t : string) (len : nat) :
  replace (stem ++ rest) (size stem) (Z.of_nat len) t =
  inr (stem ++ t ++ drop len rest).
Proof.
  unfold replace, size. rewrite length_append.
  destruct (Z.ltb_spec (Z.of_nat (String.length stem + String.length rest))
              (Z.of_nat (String.length stem))) as [H|H]; [lia |].
  rewrite Nat2Z.id, take_append.
  do 3 f_equal.
  destruct (Z.min_spec (Z.of_nat len)
              (Z.of_nat (String.length stem + String.length rest)
               - Z.of_nat (String.length stem))) as [[Hlt ->]|[Hge ->]].
  - replace (Z.to_nat (Z.of_nat (String.length stem) + Z.of_nat len))
      with (String.length stem + len)%nat by lia.
    now rewrite drop_plus, drop_append.
  - replace (Z.to_nat (Z.of_nat (String.length stem) +
               (Z.of_nat (String.length stem + String.length rest)
                - Z.of_nat (String.length stem))))
      with (String.length stem + String.length rest)%nat by lia.
    rewrite drop_plus, drop_append.
    rewrite !drop_all; [reflexivity | lia | lia].
Qed.

Lemma insert_npos (s t : string) :
  (size s < npos)%Z -> insert s npos t = inl (out_of_range "basic_string::insert").
Proof.
  intros H. unfold insert.
  destruct (Z.ltb_spec (size s) npos); [reflexivity | lia].
Qed.

End StringFacts.

(** ** The [OutOfBounds] extractor *)

Section Extractor.

Import IStream.

Lemma read_word_splits (s w r : string) :
  read_word s = (w, r) -> s = w ++ r.
Proof.
  revert w r; induction s as [|c s IH]; simpl; intros w r H.
  - now inversion H.
  - destruct (isspace c).
    + now inversion H.
    + destruct (read_word s) as [w' r'] eqn:E. inversion H; subst.
      simpl. f_equal. now apply IH.
Qed.

(** What [operator>>] decides depends on the extracted token alone. *)
Lemma operator_shr_by_token (in_ : istream) :
  let token := fst (extract_string in_) in
  let rest := snd (extract_string in_) in
  operator_shr in_ =
  if String.eqb token "repeat" then inr (rest, REPEAT_PIXEL)
  else if String.eqb token "black" then inr (rest, BLACK_PIXEL)
  else if String.eqb token "zero" then inr (rest, ZERO_COST)
  else if String.eqb token "error" then inr (rest, ERROR)
  else if String.eqb token "nan" then inr (rest, NAN_COST)
  else inl (runtime_error "Invalid OutOfBounds selection").
Proof.
  unfold operator_shr. now destruct (extract_string in_) as [token rest].
Qed.

Lemma operator_shr_rejects (in_ : istream) :
  ~ In (fst (extract_string in_)) accepted_tokens ->
  operator_shr in_ = inl (runtime_error "Invalid OutOfBounds selection").
Proof.
  intros H. rewrite operator_shr_by_token. cbv zeta.
  repeat match goal with
         | |- context [String.eqb ?a ?b] =>
             destruct (String.eqb_spec a b) as [E|_];
             [exfalso; apply H; rewrite E; simpl; tauto |]
         end.
  reflexivity.
Qed.

Lemma operator_shr_accepts (in_ : istream) (r : istream * OutOfBounds) :
  operator_shr in_ = inr r -> In (fst (extract_string in_)) accepted_tokens.
Proof.
  intros H.
  destruct (in_dec string_dec (fst (extract_string in_)) accepted_tokens)
    as [Hin|Hout]; [exact Hin |].
  rewrite (operator_shr_rejects in_ Hout) in H. discriminate.
Qed.

(** The cast that [po::store] runs on the value of [--out_of_bounds]
    succeeds on the five tokens and on nothing else. *)
Lemma lexical_cast_OutOfBounds_accepts (s : string) (v : OutOfBounds) :
  Store.lexical_cast_OutOfBounds s = inr (Some v) -> In s accepted_tokens.
Proof.
  unfold Store.lexical_cast_OutOfBounds. intros H.
  destruct (operator_shr {| buf := s; skipws := false |})
    as [e|[in' sel]] eqn:E; [discriminate |].
  pose proof (operator_shr_accepts _ _ E) as Hin.
  rewrite operator_shr_by_token in E. cbv zeta in E.
  unfold extract_string in *. simpl in *.
  destruct (read_word s) as [w r] eqn:Ew. simpl in *.
  apply read_word_splits in Ew.
  assert (Hr : buf in' = r).
  { repeat match type of E with
           | context [String.eqb ?a ?b] => destruct (String.eqb a b)
           end; inversion E; reflexivity. }
  rewrite Hr in H. destruct r; [| discriminate].
  rewrite append_empty_r in Ew. now subst.
Qed.

Lemma lexical_cast_OutOfBounds_rejects (s : string) :
  ~ In s accepted_tokens ->
  forall v, Store.lexical_cast_OutOfBounds s <> inr (Some v).
Proof.
  intros H v E. apply H. eapply lexical_cast_OutOfBounds_accepts; eauto.
Qed.

End Extractor.

(** C6.  [operator>>] maps the token it extracts from the stream to a variant:
    "repeat", "black", "zero", "error" and "nan" give [REPEAT_PIXEL],
    [BLACK_PIXEL], [ZERO_COST], [ERROR] and [NAN_COST]; the extraction
    succeeds if and only if the token is one of these five, and any other
    token raises [runtime_error "Invalid OutOfBounds selection"].  The same
    holds for the value of [--out_of_bounds] as [po::store] casts it. *)
Theorem operator_shr_five_tokens :
  forall in_ : IStream.istream,
    let token := fst (IStream.extract_string in_) in
    let rest := snd (IStream.extract_string in_) in
    (token = "repeat" -> operator_shr in_ = inr (rest, REPEAT_PIXEL)) /\
    (token = "black" -> operator_shr in_ = inr (rest, BLACK_PIXEL)) /\
    (token = "zero" -> operator_shr in_ = inr (rest, ZERO_COST)) /\
    (token = "error" -> operator_shr in_ = inr (rest, ERROR)) /\
    (token = "nan" -> operator_shr in_ = inr (rest, NAN_COST)) /\
    ((exists r, operator_shr in_ = inr r) <-> In token accepted_tokens) /\
    (~ In token accepted_tokens ->
     operator_shr in_ = inl (runtime_error "Invalid OutOfBounds selection")) /\
    (Store.lexical_cast_OutOfBounds "repeat" = inr (Some REPEAT_PIXEL) /\
     Store.lexical_cast_OutOfBounds "black" = inr (Some BLACK_PIXEL) /\
     Store.lexical_cast_OutOfBounds "zero" = inr (Some ZERO_COST) /\
     Store.lexical_cast_OutOfBounds "error" = inr (Some ERROR) /\
     Store.lexical_cast_OutOfBounds "nan" = inr (Some NAN_COST)) /\
    (forall s, (exists v, Store.lexical_cast_OutOfBounds s = inr (Some v))
               <-> In s accepted_tokens).
Proof.
  intros in_ token rest.
  pose proof (operator_shr_by_token in_) as E. cbv zeta in E.
  fold token rest in E.
  repeat split.
  - intros H. rewrite E, H. reflexivity.
  - intros H. rewrite E, H. reflexivity.
  - intros H. rewrite E, H. reflexivity.
  - intros H. rewrite E, H. reflexivity.
  - intros H. rewrite E, H. reflexivity.
  - intros [r Hr]. exact (operator_shr_accepts in_ r Hr).
  - intros Hin. rewrite E. simpl in Hin.
    destruct Hin as [<-|[<-|[<-|[<-|[<-|[]]]]]]; simpl; eexists; reflexivity.
  - exact (operator_shr_rejects in_).
  - intros [v Hv]. exact (lexical_cast_OutOfBounds_accepts s v Hv).
  - intros Hin. simpl in Hin.
    destruct Hin as [<-|[<-|[<-|[<-|[<-|[]]]]]]; eexists; reflexivity.
Qed.

Lemma operator_shr_five_tokens_witness :
  operator_shr {| IStream.buf := "  nan rest"; IStream.skipws := true |}
  = inr ({| IStream.buf := " rest"; IStream.skipws := true |}, NAN_COST) /\
  operator_shr {| IStream.buf := "white"; IStream.skipws := false |}
  = inl (runtime_error "Invalid OutOfBounds selection").
Proof.
  split.
  - apply (proj1 (proj2 (proj2 (proj2 (proj2
             (operator_shr_five_tokens
                {| IStream.buf := "  nan rest"; IStream.skipws := true |})))))).
    reflexivity.
  - apply (proj1 (proj2 (proj2 (proj2 (proj2 (proj2 (proj2
             (operator_shr_five_tokens
                {| IStream.buf := "white"; IStream.skipws := false |})))))))).
    cbn. intros H.
    repeat (destruct H as [H|H]; [discriminate H |]). exact H.
Defined.

(** ** The runs of [writeDisparityMap] *)

Section WriteDisparityMap.

Variable env : Env.
Variable params : Params.
Variables leftImgPath rightImgPath disparityPath : string.

Let extPos := StdString.rfind disparityPath "."%char.

Ltac stages H :=
  repeat match type of H with
         | context [match ?x with inl _ => _ | inr _ => _ end] =>
             let E := fresh "E" in
             destruct x as [?|?] eqn:E;
             cbn [lift bind emit ret fst snd app] in H;
             try discriminate H
         | context [if ?b then _ else _] =>
             let E := fresh "E" in
             destruct b eqn:E;
             cbn [lift bind emit ret fst snd app] in H;
             try discriminate H
         end.

(** A run that returns went through every stage, and its trace is the
    one below. *)
Lemma writeDisparityMap_returns (t : list Event) :
  writeDisparityMap env params leftImgPath rightImgPath disparityPath
    = (t, inr tt) ->
  exists pL pR tL tR il ir dl dr,
    StdString.insert disparityPath extPos "L" = inr pL /\
    StdString.insert disparityPath extPos "R" = inr pR /\
    StdString.replace disparityPath extPos 10 "L.csv" = inr tL /\
    StdString.replace disparityPath extPos 10 "R.csv" = inr tR /\
    Image_load env leftImgPath = inr il /\
    Image_load env rightImgPath = inr ir /\
    computeDisparity env params {| leftImg := il; rightImg := ir |}
      = inr (dl, dr) /\
    Image_write env (setPath (normalize env dl) pL) = inr tt /\
    Image_write env (setPath (normalize env dr) pR) = inr tt /\
    t = ([EvLoadImage leftImgPath; EvLoadImage rightImgPath;
          EvComputeDisparity params]
         ++ text_events env tL (fst (csv_loops env dl dr))
         ++ text_events env tR (snd (csv_loops env dl dr))
         ++ [EvWriteImage (setPath (normalize env dl) pL);
             EvWriteImage (setPath (normalize env dr) pR)])%list.
Proof.
  unfold writeDisparityMap, mkStereoImagePair, load, write, ofstream_close.
  fold extPos. intros H.
  cbn [lift bind emit ret fst snd app] in H.
  stages H.
  all: repeat match goal with
              | x : (Image * Image)%type |- _ => destruct x
              | x : unit |- _ => destruct x
              end.
  all: cbn [fst snd] in *.
  all: unfold text_events.
  all: do 8 eexists; repeat (split; [reflexivity || eassumption |]).
  all: repeat match goal with
              | E : ofstream_good env _ = _ |- _ => rewrite E; clear E
              end.
  all: inversion H; reflexivity.
Qed.

(** Conversely, when every stage succeeds the run returns. *)
Lemma writeDisparityMap_runs (pL pR tL tR : string) (il ir dl dr : Image) :
  StdString.insert disparityPath extPos "L" = inr pL ->
  StdString.insert disparityPath extPos "R" = inr pR ->
  StdString.replace disparityPath extPos 10 "L.csv" = inr tL ->
  StdString.replace disparityPath extPos 10 "R.csv" = inr tR ->
  Image_load env leftImgPath = inr il ->
  Image_load env rightImgPath = inr ir ->
  computeDisparity env params {| leftImg := il; rightImg := ir |}
    = inr (dl, dr) ->
  Image_write env (setPath (normalize env dl) pL) = inr tt ->
  Image_write env (setPath (normalize env dr) pR) = inr tt ->
  writeDisparityMap env params leftImgPath rightImgPath disparityPath =
  (([EvLoadImage leftImgPath; EvLoadImage rightImgPath;
     EvComputeDisparity params]
    ++ text_events env tL (fst (csv_loops env dl dr))
    ++ text_events env tR (snd (csv_loops env dl dr))
    ++ [EvWriteImage (setPath (normalize env dl) pL);
        EvWriteImage (setPath (normalize env dr) pR)])%list, inr tt).
Proof.
  intros HpL HpR HtL HtR Hil Hir Hcore HwL HwR.
  unfold writeDisparityMap, mkStereoImagePair, load, write, ofstream_close,
    text_events.
  fold extPos. rewrite HpL, HpR, HtL, HtR, Hil, Hir.
  cbn [emit ret bind lift]. rewrite Hcore. cbn [lift bind fst snd].
  rewrite HwL, HwR.
  destruct (ofstream_good env tL); destruct (ofstream_good env tR);
    reflexivity.
Qed.

(** Once the four paths are derived and both images load, the trace of the
    run starts with the two loads and the call of the core, whatever the
    parameters are and whatever happens next. *)
Lemma writeDisparityMap_reaches_core (pL tL : string) (il ir : Image) :
  StdString.insert disparityPath extPos "L" = inr pL ->
  StdString.replace disparityPath extPos 10 "L.csv" = inr tL ->
  Image_load env leftImgPath = inr il ->
  Image_load env rightImgPath = inr ir ->
  exists rest,
    fst (writeDisparityMap env params leftImgPath rightImgPath disparityPath)
    = ([EvLoadImage leftImgPath; EvLoadImage rightImgPath;
        EvComputeDisparity params] ++ rest)%list.
Proof.
  intros HpL HtL Hil Hir.
  assert (HpR : exists pR, StdString.insert disparityPath extPos "R" = inr pR).
  { unfold StdString.insert in *.
    destruct (StdString.size disparityPath <? extPos)%Z;
      [discriminate | eauto]. }
  assert (HtR : exists tR,
             StdString.replace disparityPath extPos 10 "R.csv" = inr tR).
  { unfold StdString.replace in *.
    destruct (StdString.size disparityPath <? extPos)%Z;
      [discriminate | eauto]. }
  destruct HpR as [pR HpR]. destruct HtR as [tR HtR].
  unfold writeDisparityMap, mkStereoImagePair, load, ofstream_close, write.
  fold extPos. rewrite HpL, HpR, HtL, HtR, Hil, Hir.
  cbn [emit ret bind lift fst snd app].
  repeat match goal with
         | |- context [match ?x with inl _ => _ | inr _ => _ end] =>
             destruct x as [?|?]; cbn [emit ret bind lift fst snd app]
         | |- context [if ?b then _ else _] =>
             destruct b; cbn [emit ret bind lift fst snd app]
         end.
  all: eexists; reflexivity.
Qed.

End WriteDisparityMap.

(** ** The stages of [main] *)

Section MainStages.

Variable env : Env.
Variable argv : list string.

Lemma main_parse_error (e : exn) :
  parse_and_store env argv = inl e ->
  main env argv = ([], Terminated e).
Proof.
  intros H. unfold main, main_body. rewrite H. reflexivity.
Qed.

Lemma main_help (vMap : variables_map) :
  parse_and_store env argv = inr vMap ->
  count vMap "help" <> 0%nat ->
  main env argv = ([EvStdout (help_text env)], Returned 1).
Proof.
  intros H Hh. unfold main, main_body. rewrite H. cbn [lift bind].
  destruct (Nat.ltb_spec 0 (count vMap "help")) as [_|Hle]; [| lia].
  reflexivity.
Qed.

Lemma main_notify_error (vMap : variables_map) (e : exn) :
  parse_and_store env argv = inr vMap ->
  count vMap "help" = 0%nat ->
  Store.notify allOpts vMap initial_vars = inl e ->
  main env argv = ([], Terminated e).
Proof.
  intros H Hh Hn. unfold main, main_body. rewrite H. cbn [lift bind].
  rewrite Hh, Hn. reflexivity.
Qed.

Lemma main_wrong_count (vMap : variables_map) (vars : Vars) :
  parse_and_store env argv = inr vMap ->
  count vMap "help" = 0%nat ->
  Store.notify allOpts vMap initial_vars = inr vars ->
  List.length (inputImages vars) <> 2%nat ->
  main env argv = ([], Terminated (runtime_error "Need two images")).
Proof.
  intros H Hh Hn Hl. unfold main, main_body. rewrite H. cbn [lift bind].
  rewrite Hh, Hn. cbn [lift bind Nat.ltb Nat.leb app].
  destruct (Nat.eqb_spec (List.length (inputImages vars)) 2) as [E|_];
    [contradiction | reflexivity].
Qed.

(** With two inputs named and no help asked, [main] is the loop over the
    inputs followed by [writeDisparityMap]. *)
Lemma main_two_inputs (vMap : variables_map) (vars : Vars) (l r : string) :
  parse_and_store env argv = inr vMap ->
  count vMap "help" = 0%nat ->
  Store.notify allOpts vMap initial_vars = inr vars ->
  inputImages vars = [l; r] ->
  main env argv =
  run (_ <- check_inputs env [l; r] ;;
       _ <- writeDisparityMap env (params vars) l r (outputPath vars) ;;
       ret 0%Z).
Proof.
  intros H Hh Hn Hi. unfold main, main_body. rewrite H. cbn [lift bind].
  rewrite Hh, Hn. cbn [lift bind Nat.ltb Nat.leb app].
  rewrite Hi. cbn [List.length Nat.eqb negb StdString.at_ nth_error].
  destruct (check_inputs env [l; r]) as [t [e|[]]]; cbn [bind lift app];
    [reflexivity |].
  destruct (_ <- writeDisparityMap env (params vars) l r (outputPath vars) ;;
            ret 0%Z) as [t' r0].
  reflexivity.
Qed.

Lemma check_inputs_two (l r : string) :
  check_inputs env [l; r] =
  if ifstream_good env l then
    if ifstream_good env r then ([EvOpenInput l; EvOpenInput r], inr tt)
    else ([EvOpenInput l; EvOpenInput r],
          inl (runtime_error ("File not found: " ++ r)))
  else ([EvOpenInput l], inl (runtime_error ("File not found: " ++ l))).
Proof.
  cbn [check_inputs emit bind].
  destruct (ifstream_good env l); destruct (ifstream_good env r);
    reflexivity.
Qed.

(** With an unreadable input the run stops in the loop of lines 121-126. *)
Lemma main_missing_input (vMap : variables_map) (vars : Vars) (l r : string) :
  parse_and_store env argv = inr vMap ->
  count vMap "help" = 0%nat ->
  Store.notify allOpts vMap initial_vars = inr vars ->
  inputImages vars = [l; r] ->
  ifstream_good env l = false \/ ifstream_good env r = false ->
  main env argv =
  if ifstream_good env l
  then ([EvOpenInput l; EvOpenInput r],
        Terminated (runtime_error ("File not found: " ++ r)))
  else ([EvOpenInput l],
        Terminated (runtime_error ("File not found: " ++ l))).
Proof.
  intros H Hh Hn Hi Hbad.
  rewrite (main_two_inputs vMap vars l r H Hh Hn Hi), check_inputs_two.
  destruct (ifstream_good env l); [| reflexivity].
  destruct (ifstream_good env r); [| reflexivity].
  destruct Hbad; discriminate.
Qed.

(** With both inputs readable the run enters [writeDisparityMap]. *)
Lemma main_enters_writeDisparityMap
      (vMap : variables_map) (vars : Vars) (l r : string) :
  parse_and_store env argv = inr vMap ->
  count vMap "help" = 0%nat ->
  Store.notify allOpts vMap initial_vars = inr vars ->
  inputImages vars = [l; r] ->
  ifstream_good env l = true ->
  ifstream_good env r = true ->
  main env argv =
  let w := writeDisparityMap env (params vars) l r (outputPath vars) in
  (([EvOpenInput l; EvOpenInput r] ++ fst w)%list,
   match snd w with
   | inr _ => Returned 0
   | inl e => Terminated e
   end).
Proof.
  intros H Hh Hn Hi Hl Hr.
  rewrite (main_two_inputs vMap vars l r H Hh Hn Hi), check_inputs_two.
  rewrite Hl, Hr. cbv zeta.
  destruct (writeDisparityMap env (params vars) l r (outputPath vars))
    as [t [e|[]]]; cbn; [reflexivity |].
  now rewrite app_nil_r.
Qed.

End MainStages.

(** ** Missing inputs and output paths without an extension *)

(** C7.  When the command line names two input images and one of them
    cannot be opened, no image is loaded, the core is not run, nothing is
    written and the exit status is not 0; unless help was asked for, the run
    ends with the uncaught [runtime_error] "File not found: " followed by the
    first path that cannot be opened. *)
Theorem unreadable_input_is_fatal :
  forall (env : Env) (argv : list string) (vMap : variables_map) (vars : Vars)
         (l r : string),
    parse_and_store env argv = inr vMap ->
    Store.notify allOpts vMap initial_vars = inr vars ->
    inputImages vars = [l; r] ->
    ifstream_good env l = false \/ ifstream_good env r = false ->
    (forallb (fun ev => negb (touches_pixels ev)) (fst (main env argv)) = true /\
     snd (main env argv) <> Returned 0) /\
    (count vMap "help" = 0%nat ->
     main env argv =
     if ifstream_good env l
     then ([EvOpenInput l; EvOpenInput r],
           Terminated (runtime_error ("File not found: " ++ r)))
     else ([EvOpenInput l],
           Terminated (runtime_error ("File not found: " ++ l)))).
Proof.
  intros env argv vMap vars l r H Hn Hi Hbad.
  destruct (Nat.eq_dec (count vMap "help") 0) as [Hh|Hh].
  - pose proof (main_missing_input env argv vMap vars l r H Hh Hn Hi Hbad) as E.
    split; [| intros _; exact E].
    rewrite E. destruct (ifstream_good env l); cbn; split;
      try reflexivity; discriminate.
  - rewrite (main_help env argv vMap H Hh).
    split; [split; [reflexivity | discriminate] | intros E; contradiction].
Qed.

Lemma unreadable_input_is_fatal_witness :
  main Example.plain ["spmatch"; "left.png"; "missing.png"]
  = ([EvOpenInput "left.png"; EvOpenInput "missing.png"],
     Terminated (runtime_error "File not found: missing.png")).
Proof.
  refine (proj2 (unreadable_input_is_fatal
                   Example.plain
                   ["spmatch"; "left.png"; "missing.png"]
                   (Example.stored Example.plain
                      ["spmatch"; "left.png"; "missing.png"])
                   (Example.notified Example.plain
                      ["spmatch"; "left.png"; "missing.png"])
                   "left.png" "missing.png" _ _ _ _) _).
  - vm_compute. reflexivity.
  - vm_compute. reflexivity.
  - vm_compute. reflexivity.
  - right. vm_compute. reflexivity.
  - vm_compute. reflexivity.
Defined.

(** C9.  The four output paths are derived at the position [rfind] gives for
    the last '.' of the output argument.  When the argument has no '.', that
    position is [npos] and the first [insert] throws [std::out_of_range]:
    [writeDisparityMap] ends there with an empty trace, so no image has been
    loaded and no file written. *)
Theorem output_without_dot_throws :
  forall (env : Env) (params : Params)
         (leftImgPath rightImgPath disparityPath : string),
    (StdString.size disparityPath < StdString.npos)%Z ->
    ~ In "."%char (list_ascii_of_string disparityPath) ->
    writeDisparityMap env params leftImgPath rightImgPath disparityPath
    = ([], inl (out_of_range "basic_string::insert")).
Proof.
  intros env params l r out Hsize Hdot.
  unfold writeDisparityMap.
  rewrite (rfind_absent out "."%char Hdot), (insert_npos out "L" Hsize).
  reflexivity.
Qed.

Lemma output_without_dot_throws_witness :
  writeDisparityMap Example.plain
    setDefaults "left.png" "right.png" "result"
  = ([], inl (out_of_range "basic_string::insert")).
Proof.
  apply output_without_dot_throws.
  - reflexivity.
  - cbn. intros H. repeat (destruct H as [H|H]; [discriminate H |]). exact H.
Defined.

(** ** Parameter validation in the driver *)

Section StoreFacts.

Variable env : Env.

(** [po::store] cannot get past an [--out_of_bounds] value that is not one
    of the five tokens. *)
Lemma store_option_rejects_token (m : variables_map) (tok : string) :
  ~ In tok accepted_tokens ->
  exists e,
    Store.store_option env allOpts m
      {| string_key := "out_of_bounds"; tokens := [tok] |} = inl e.
Proof.
  intros Hbad. unfold Store.store_option. cbn [string_key tokens].
  change (String.eqb "out_of_bounds" "") with false. cbv iota.
  change (find_option allOpts "out_of_bounds")
    with (Some (opt "out_of_bounds" None
                  (typed TOutOfBounds
                     (value TOutOfBounds Assign.to_OUT_OF_BOUNDS))
                  "Out of bounds action. One of {repeat, black, zero, error, nan}")).
  cbn [semantic opt implicit_value value Store.validate].
  destruct (option_map held (find m "out_of_bounds")) as [old|];
    cbn [Store.check_first_occurrence Store.and_then Store.get_single_string];
    [eexists; reflexivity |].
  destruct (Store.lexical_cast_OutOfBounds tok) as [e|[v|]] eqn:E;
    cbn [Store.and_then Store.or_invalid].
  - eexists; reflexivity.
  - exfalso. exact (lexical_cast_OutOfBounds_rejects tok Hbad v E).
  - eexists; reflexivity.
Qed.

Lemma store_options_reject_token
      (parsed : list basic_option) (m : variables_map) (tok : string) :
  In {| string_key := "out_of_bounds"; tokens := [tok] |} parsed ->
  ~ In tok accepted_tokens ->
  exists e, Store.store_options env allOpts m parsed = inl e.
Proof.
  intros Hin Hbad. revert m.
  induction parsed as [|o rest IH]; intros m; [destruct Hin |].
  cbn [Store.store_options].
  destruct Hin as [->|Hin].
  - destruct (store_option_rejects_token m tok Hbad) as [e ->].
    eexists; reflexivity.
  - destruct (Store.store_option env allOpts m o) as [e|m'];
      cbn [Store.and_then]; [eexists; reflexivity | now apply IH].
Qed.

Lemma parse_and_store_rejects_token
      (argv : list string) (parsed : list basic_option) (tok : string) :
  command_line_parser env allOpts positionalOpts argv = inr parsed ->
  In {| string_key := "out_of_bounds"; tokens := [tok] |} parsed ->
  ~ In tok accepted_tokens ->
  exists e, parse_and_store env argv = inl e.
Proof.
  intros Hp Hin Hbad. unfold parse_and_store, Store.store.
  rewrite Hp. cbn [Store.and_then].
  destruct (store_options_reject_token parsed [] tok Hin Hbad) as [e ->].
  eexists; reflexivity.
Qed.

End StoreFacts.

Section PathFacts.

Import StdString.

Lemma last_index_bound (s : string) (c : ascii) (i : nat) :
  last_index s c = Some i -> (i < String.length s)%nat.
Proof.
  revert i; induction s as [|a s IH]; simpl; intros i H; [discriminate |].
  destruct (last_index s c) as [j|].
  - inversion H; subst. specialize (IH j eq_refl). lia.
  - destruct (Ascii.eqb a c); inversion H; lia.
Qed.

Lemma rfind_present (s : string) (c : ascii) :
  In c (list_ascii_of_string s) -> (0 <= rfind s c < size s)%Z.
Proof.
  intros Hin. unfold rfind, size.
  destruct (last_index s c) as [i|] eqn:E.
  - apply last_index_bound in E. lia.
  - exfalso. apply (proj1 (last_index_None s c) E). exact Hin.
Qed.

Lemma insert_within (s t : string) (pos : Z) :
  (pos <= size s)%Z -> exists p, insert s pos t = inr p.
Proof.
  intros H. unfold insert.
  destruct (Z.ltb_spec (size s) pos); [lia | eauto].
Qed.

Lemma replace_within (s t : string) (pos len : Z) :
  (pos <= size s)%Z -> exists p, replace s pos len t = inr p.
Proof.
  intros H. unfold replace.
  destruct (Z.ltb_spec (size s) pos); [lia | eauto].
Qed.

End PathFacts.

(** X14.  What the driver itself checks of the parameters.  An
    [--out_of_bounds] token outside the five makes [po::store] throw before
    anything else happens.  Nothing else is checked between the command line
    and line 217: for every parameter block the command line yields, when
    help is not asked for, two readable inputs are named, the output path has
    a '.' and both images load, the run opens and loads the two images and
    calls the core with that block. *)
Theorem driver_parameter_checks :
  forall (env : Env) (argv : list string),
    (forall parsed tok,
        command_line_parser env allOpts positionalOpts argv = inr parsed ->
        In {| string_key := "out_of_bounds"; tokens := [tok] |} parsed ->
        ~ In tok accepted_tokens ->
        exists e, main env argv = ([], Terminated e)) /\
    (forall vMap vars l r il ir,
        parse_and_store env argv = inr vMap ->
        count vMap "help" = 0%nat ->
        Store.notify allOpts vMap initial_vars = inr vars ->
        inputImages vars = [l; r] ->
        ifstream_good env l = true ->
        ifstream_good env r = true ->
        In "."%char (list_ascii_of_string (outputPath vars)) ->
        Image_load env l = inr il ->
        Image_load env r = inr ir ->
        exists rest,
          fst (main env argv)
          = ([EvOpenInput l; EvOpenInput r; EvLoadImage l; EvLoadImage r;
              EvComputeDisparity (params vars)] ++ rest)%list).
Proof.
  intros env argv. split.
  - intros parsed tok Hp Hin Hbad.
    destruct (parse_and_store_rejects_token env argv parsed tok Hp Hin Hbad)
      as [e He].
    exists e. exact (main_parse_error env argv e He).
  - intros vMap vars l r il ir H Hh Hn Hi Hl Hr Hdot Hil Hir.
    rewrite (main_enters_writeDisparityMap env argv vMap vars l r
               H Hh Hn Hi Hl Hr).
    cbv zeta. cbn [fst].
    pose proof (rfind_present (outputPath vars) "."%char Hdot) as Hpos.
    destruct (insert_within (outputPath vars) "L"
                (StdString.rfind (outputPath vars) "."%char)) as [pL HpL];
      [lia |].
    destruct (replace_within (outputPath vars) "L.csv"
                (StdString.rfind (outputPath vars) "."%char) 10) as [tL HtL];
      [lia |].
    destruct (writeDisparityMap_reaches_core env (params vars) l r
                (outputPath vars) pL tL il ir HpL HtL Hil Hir) as [rest ->].
    exists rest. reflexivity.
Qed.

Lemma driver_parameter_checks_witness :
  (exists e,
      main Example.plain
        ["spmatch"; "left.png"; "right.png"; "--out_of_bounds"; "white"]
      = ([], Terminated e)) /\
  (exists rest,
      fst (main Example.plain
             ["spmatch"; "left.png"; "right.png"; "--max_d"; "0"])
      = ([EvOpenInput "left.png"; EvOpenInput "right.png";
          EvLoadImage "left.png"; EvLoadImage "right.png";
          EvComputeDisparity
            (params (Assign.to_MAX_D 0 initial_vars))] ++ rest)%list).
Proof.
  split.
  - refine (proj1 (driver_parameter_checks
                     Example.plain
                     ["spmatch"; "left.png"; "right.png";
                      "--out_of_bounds"; "white"])
              [ {| string_key := "inputs"; tokens := ["left.png"] |};
                {| string_key := "inputs"; tokens := ["right.png"] |};
                {| string_key := "out_of_bounds"; tokens := ["white"] |} ]
              "white" _ _ _).
    + vm_compute. reflexivity.
    + cbn. tauto.
    + cbn. intros H.
      repeat (destruct H as [H|H]; [discriminate H |]). exact H.
  - refine (proj2 (driver_parameter_checks
                     Example.plain
                     ["spmatch"; "left.png"; "right.png"; "--max_d"; "0"])
              (Example.stored Example.plain
                 ["spmatch"; "left.png"; "right.png"; "--max_d"; "0"])
              (Assign.to_inputImages ["left.png"; "right.png"]
                 (Assign.to_outputPath "disparity.png"
                    (Assign.to_MAX_D 0 initial_vars)))
              "left.png" "right.png"
              (Example.ramp "left.png" 0) (Example.ramp "right.png" 0)
              _ _ _ _ _ _ _ _ _).
    + vm_compute. reflexivity.
    + vm_compute. reflexivity.
    + vm_compute. reflexivity.
    + reflexivity.
    + vm_compute. reflexivity.
    + vm_compute. reflexivity.
    + cbn. tauto.
    + vm_compute. reflexivity.
    + vm_compute. reflexivity.
Defined.

(** ** Exit codes *)

(** C3, as stated, fails: where "disparityL.csv" and "disparityR.csv" cannot
    be opened for writing, [spmatch left.png right.png] writes no text file,
    writes the two images and returns 0. *)
Lemma unwritable_csv_exits_zero :
  ofstream_good Example.csv_locked "disparityL.csv" = false /\
  ofstream_good Example.csv_locked "disparityR.csv" = false /\
  snd (main Example.csv_locked ["spmatch"; "left.png"; "right.png"])
  = Returned 0 /\
  map touches_pixels
    (fst (main Example.csv_locked ["spmatch"; "left.png"; "right.png"]))
  = [false; false; true; true; true; true; true] /\
  ~ unwritable_output_exits_nonzero
      Example.csv_locked ["spmatch"; "left.png"; "right.png"].
Proof.
  pose (argv := ["spmatch"; "left.png"; "right.png"]).
  assert (Hexit : snd (main Example.csv_locked argv) = Returned 0)
    by (vm_compute; reflexivity).
  split; [vm_compute; reflexivity |].
  split; [vm_compute; reflexivity |].
  split; [exact Hexit |].
  split; [vm_compute; reflexivity |].
  intros H.
  specialize (H (Example.stored Example.csv_locked argv)
                (Example.notified Example.csv_locked argv)
                "disparityL.csv" "disparityR.csv").
  assert (Hnz : exits_nonzero (snd (main Example.csv_locked argv))).
  { apply H.
    - vm_compute. reflexivity.
    - vm_compute. reflexivity.
    - vm_compute. reflexivity.
    - vm_compute. reflexivity.
    - vm_compute. reflexivity.
    - left. vm_compute. reflexivity. }
  rewrite Hexit in Hnz. apply Hnz. reflexivity.
Qed.

(** C3, amended.  [main] returns only 0 or 1.  It returns 1 exactly when the
    stored command line counts "help".  It returns 0 exactly when the command
    line is stored and notified without error, names two inputs that can be
    opened, and [writeDisparityMap] returns.  In every other case the run ends
    on an uncaught exception: the one thrown while the command line is parsed
    and stored, the one [po::notify] throws, "Need two images", "File not
    found: ..." for an input that cannot be opened, or whatever
    [writeDisparityMap] throws. *)
Theorem exit_codes :
  forall (env : Env) (argv : list string),
    (forall c, snd (main env argv) = Returned c -> c = 0%Z \/ c = 1%Z) /\
    (snd (main env argv) = Returned 1 <->
     exists vMap,
       parse_and_store env argv = inr vMap /\ count vMap "help" <> 0%nat) /\
    (snd (main env argv) = Returned 0 <->
     exists vMap vars l r t,
       parse_and_store env argv = inr vMap /\
       count vMap "help" = 0%nat /\
       Store.notify allOpts vMap initial_vars = inr vars /\
       inputImages vars = [l; r] /\
       ifstream_good env l = true /\
       ifstream_good env r = true /\
       writeDisparityMap env (params vars) l r (outputPath vars)
       = (t, inr tt)) /\
    (forall e, parse_and_store env argv = inl e ->
               snd (main env argv) = Terminated e) /\
    (forall vMap,
        parse_and_store env argv = inr vMap ->
        count vMap "help" = 0%nat ->
        (forall e, Store.notify allOpts vMap initial_vars = inl e ->
                   snd (main env argv) = Terminated e) /\
        (forall vars,
            Store.notify allOpts vMap initial_vars = inr vars ->
            (List.length (inputImages vars) <> 2%nat ->
             snd (main env argv)
             = Terminated (runtime_error "Need two images")) /\
            (forall l r,
                inputImages vars = [l; r] ->
                (ifstream_good env l = false ->
                 snd (main env argv)
                 = Terminated (runtime_error ("File not found: " ++ l))) /\
                (ifstream_good env l = true ->
                 ifstream_good env r = false ->
                 snd (main env argv)
                 = Terminated (runtime_error ("File not found: " ++ r))) /\
                (forall t e,
                    ifstream_good env l = true ->
                    ifstream_good env r = true ->
                    writeDisparityMap env (params vars) l r (outputPath vars)
                    = (t, inl e) ->
                    snd (main env argv) = Terminated e)))).
Proof.
  intros env argv.
  (* the stages, one after the other *)
  assert (Hlast :
    forall vMap, parse_and_store env argv = inr vMap ->
    count vMap "help" = 0%nat ->
    (forall e, Store.notify allOpts vMap initial_vars = inl e ->
               snd (main env argv) = Terminated e) /\
    (forall vars,
        Store.notify allOpts vMap initial_vars = inr vars ->
        (List.length (inputImages vars) <> 2%nat ->
         snd (main env argv) = Terminated (runtime_error "Need two images")) /\
        (forall l r,
            inputImages vars = [l; r] ->
            (ifstream_good env l = false ->
             snd (main env argv)
             = Terminated (runtime_error ("File not found: " ++ l))) /\
            (ifstream_good env l = true ->
             ifstream_good env r = false ->
             snd (main env argv)
             = Terminated (runtime_error ("File not found: " ++ r))) /\
            (forall t e,
                ifstream_good env l = true ->
                ifstream_good env r = true ->
                writeDisparityMap env (params vars) l r (outputPath vars)
                = (t, inl e) ->
                snd (main env argv) = Terminated e)))).
  { intros vMap H Hh. split.
    - intros e Hn. now rewrite (main_notify_error env argv vMap e H Hh Hn).
    - intros vars Hn. split.
      + intros Hl. now rewrite (main_wrong_count env argv vMap vars H Hh Hn Hl).
      + intros l r Hi. repeat split.
        * intros Hbad.
          rewrite (main_missing_input env argv vMap vars l r H Hh Hn Hi
                     (or_introl Hbad)), Hbad.
          reflexivity.
        * intros Hok Hbad.
          rewrite (main_missing_input env argv vMap vars l r H Hh Hn Hi
                     (or_intror Hbad)), Hok.
          reflexivity.
        * intros t e Hl Hr Hw.
          rewrite (main_enters_writeDisparityMap env argv vMap vars l r
                     H Hh Hn Hi Hl Hr), Hw.
          reflexivity. }
  (* every run falls in one of the cases *)
  assert (Hcases :
    (exists e, snd (main env argv) = Terminated e) \/
    (snd (main env argv) = Returned 1 /\
     exists vMap,
       parse_and_store env argv = inr vMap /\ count vMap "help" <> 0%nat) \/
    (snd (main env argv) = Returned 0 /\
     exists vMap vars l r t,
       parse_and_store env argv = inr vMap /\
       count vMap "help" = 0%nat /\
       Store.notify allOpts vMap initial_vars = inr vars /\
       inputImages vars = [l; r] /\
       ifstream_good env l = true /\
       ifstream_good env r = true /\
       writeDisparityMap env (params vars) l r (outputPath vars)
       = (t, inr tt))).
  { destruct (parse_and_store env argv) as [e|vMap] eqn:H.
    { left. exists e. now rewrite (main_parse_error env argv e H). }
    destruct (Nat.eq_dec (count vMap "help") 0) as [Hh|Hh].
    2:{ right; left. rewrite (main_help env argv vMap H Hh). eauto. }
    destruct (Hlast vMap eq_refl Hh) as [Hne Hnv].
    destruct (Store.notify allOpts vMap initial_vars) as [e|vars] eqn:Hn.
    { left. exists e. now apply Hne. }
    destruct (Hnv vars eq_refl) as [Hcount Htwo].
    destruct (inputImages vars) as [|l [|r [|x rest]]] eqn:Hi;
      try (left; eexists; apply Hcount; cbn; lia).
    destruct (Htwo l r eq_refl) as [Hl [Hr Hw]].
    destruct (ifstream_good env l) eqn:El; [| left; eexists; now apply Hl].
    destruct (ifstream_good env r) eqn:Er; [| left; eexists; now apply Hr].
    destruct (writeDisparityMap env (params vars) l r (outputPath vars))
      as [t [e|[]]] eqn:Ew.
    { left. exists e. now apply (Hw t e). }
    right; right. split.
    - rewrite (main_enters_writeDisparityMap env argv vMap vars l r
                 H Hh Hn Hi El Er), Ew.
      reflexivity.
    - exists vMap, vars, l, r, t. repeat split; auto. }
  split; [| split; [| split; [| split]]].
  - intros c Hc.
    destruct Hcases as [[e He]|[[H1 _]|[H0 _]]]; rewrite Hc in *;
      [discriminate | inversion H1; auto | inversion H0; auto].
  - split.
    + intros H1.
      destruct Hcases as [[e He]|[[_ Hv]|[H0 _]]]; rewrite H1 in *;
        [discriminate | exact Hv | discriminate].
    + intros [vMap [H Hh]]. now rewrite (main_help env argv vMap H Hh).
  - split.
    + intros H0.
      destruct Hcases as [[e He]|[[H1 _]|[_ Hv]]]; rewrite H0 in *;
        [discriminate | discriminate | exact Hv].
    + intros [vMap [vars [l [r [t [H [Hh [Hn [Hi [Hl [Hr Hw]]]]]]]]]]].
      rewrite (main_enters_writeDisparityMap env argv vMap vars l r
                 H Hh Hn Hi Hl Hr), Hw.
      reflexivity.
  - intros e H. now rewrite (main_parse_error env argv e H).
  - exact Hlast.
Qed.

Lemma exit_codes_witness :
  snd (main Example.plain ["spmatch"; "left.png"; "right.png"]) = Returned 0 /\
  snd (main Example.plain ["spmatch"; "--help"]) = Returned 1 /\
  snd (main Example.plain ["spmatch"; "--bogus"])
  = Terminated (po_error unknown_option "bogus") /\
  snd (main Example.plain ["spmatch"; "left.png"])
  = Terminated (runtime_error "Need two images").
Proof.
  split; [| split; [| split]].
  - apply (proj2 (proj1 (proj2 (proj2
             (exit_codes Example.plain ["spmatch"; "left.png"; "right.png"]))))).
    exists (Example.stored Example.plain ["spmatch"; "left.png"; "right.png"]),
           (Example.notified Example.plain
              ["spmatch"; "left.png"; "right.png"]),
           "left.png", "right.png",
           (fst (writeDisparityMap Example.plain setDefaults
                   "left.png" "right.png" "disparity.png")).
    repeat split; vm_compute; reflexivity.
  - apply (proj2 (proj1 (proj2
             (exit_codes Example.plain ["spmatch"; "--help"])))).
    exists (Example.stored Example.plain ["spmatch"; "--help"]).
    split; vm_compute; [reflexivity | discriminate].
  - apply (proj1 (proj2 (proj2 (proj2
             (exit_codes Example.plain ["spmatch"; "--bogus"]))))).
    vm_compute. reflexivity.
  - destruct (exit_codes Example.plain ["spmatch"; "left.png"])
      as [_ [_ [_ [_ Hstages]]]].
    assert (Hs : parse_and_store Example.plain ["spmatch"; "left.png"]
                 = inr (Example.stored Example.plain ["spmatch"; "left.png"]))
      by (vm_compute; reflexivity).
    assert (Hh : count (Example.stored Example.plain ["spmatch"; "left.png"])
                   "help" = 0%nat)
      by (vm_compute; reflexivity).
    destruct (Hstages _ Hs Hh) as [_ Hnotified].
    assert (Hn : Store.notify allOpts
                   (Example.stored Example.plain ["spmatch"; "left.png"])
                   initial_vars
                 = inr (Example.notified Example.plain ["spmatch"; "left.png"]))
      by (vm_compute; reflexivity).
    destruct (Hnotified _ Hn) as [Hcount _].
    apply Hcount. vm_compute. discriminate.
Defined.

(** ** The CSV files *)

Section CsvFacts.

Lemma join_app (a b : list string) : join (a ++ b) = join a ++ join b.
Proof.
  induction a as [|x a IH]; simpl; [reflexivity |].
  now rewrite IH, append_associative.
Qed.

Lemma join_flat_map {A : Type} (F : A -> list string) (l : list A) :
  join (flat_map F l) = join (map (fun x => join (F x)) l).
Proof.
  induction l as [|x l IH]; simpl; [reflexivity |].
  now rewrite join_app, IH.
Qed.

Lemma for_loop_ext {S : Type} (body body' : nat -> S -> S) :
  (forall j s, body j s = body' j s) ->
  forall n i s, for_loop i n body s = for_loop i n body' s.
Proof.
  intros Hext n; induction n as [|n IH]; intros i s; simpl;
    [reflexivity |].
  now rewrite Hext, IH.
Qed.

(** A loop that appends to two buffers appends the joined pieces. *)
Lemma for_loop_appends (f g : nat -> string) :
  forall n i (st : string * string),
    for_loop i n (fun j st => (fst st ++ f j, snd st ++ g j)) st
    = (fst st ++ join (map f (seq i n)), snd st ++ join (map g (seq i n))).
Proof.
  induction n as [|n IH]; intros i [a b]; simpl.
  - now rewrite !append_empty_r.
  - rewrite IH. simpl. now rewrite !append_associative.
Qed.

Lemma csv_loops_rows (env : Env) (leftDisp rightDisp : Image) :
  csv_loops env leftDisp rightDisp =
  (join (csv_rows env (width leftDisp) (height leftDisp) (pix leftDisp)),
   join (csv_rows env (width leftDisp) (height leftDisp) (pix rightDisp))).
Proof.
  unfold csv_loops, csv_rows, size, get.
  rewrite (for_loop_ext _
             (fun w st =>
                (fst st ++ join (map (fun h => csv_line env w h (pix leftDisp w h))
                                     (seq 0 (height leftDisp))),
                 snd st ++ join (map (fun h => csv_line env w h (pix rightDisp w h))
                                     (seq 0 (height leftDisp)))))).
  - rewrite for_loop_appends. simpl fst; simpl snd.
    now rewrite !join_flat_map.
  - intros w st.
    exact (for_loop_appends
             (fun h => csv_line env w h (pix leftDisp w h))
             (fun h => csv_line env w h (pix rightDisp w h))
             (height leftDisp) 0 st).
Qed.

Lemma rows_length {A : Type} (g : nat -> nat -> A) (H : nat) :
  forall n a,
    List.length (flat_map (fun w => map (g w) (seq 0 H)) (seq a n))
    = (n * H)%nat.
Proof.
  induction n as [|n IH]; intros a; simpl; [reflexivity |].
  now rewrite length_app, length_map, length_seq, IH.
Qed.

Lemma rows_nth {A : Type} (g : nat -> nat -> A) (H : nat) :
  forall n a k h,
    (k < n)%nat -> (h < H)%nat ->
    nth_error (flat_map (fun w => map (g w) (seq 0 H)) (seq a n)) (k * H + h)
    = Some (g (a + k)%nat h).
Proof.
  induction n as [|n IH]; intros a k h Hk Hh; [lia |].
  simpl flat_map. destruct k as [|k].
  - simpl Nat.add at 1.
    rewrite nth_error_app1 by (now rewrite length_map, length_seq).
    rewrite nth_error_map, nth_error_seq.
    destruct (Nat.ltb_spec h H); [| lia].
    simpl. now rewrite Nat.add_0_r.
  - rewrite nth_error_app2 by (rewrite length_map, length_seq; simpl; lia).
    rewrite length_map, length_seq.
    replace (S k * H + h - H)%nat with (k * H + h)%nat by (simpl; lia).
    rewrite IH by lia. f_equal. f_equal. lia.
Qed.

Lemma csv_rows_length (env : Env) (W H : nat) (f : nat -> nat -> float) :
  List.length (csv_rows env W H f) = (W * H)%nat.
Proof. unfold csv_rows. apply rows_length. Qed.

Lemma csv_rows_nth (env : Env) (W H : nat) (f : nat -> nat -> float)
      (w h : nat) :
  (w < W)%nat -> (h < H)%nat ->
  nth_error (csv_rows env W H f) (w * H + h)
  = Some (csv_line env w h (f w h)).
Proof.
  intros Hw Hh. unfold csv_rows.
  now rewrite (rows_nth (fun w h => csv_line env w h (f w h)) H W 0 w h Hw Hh).
Qed.

End CsvFacts.

(** ** The pair of disparity maps *)

(** C2.  In a run of [writeDisparityMap] that returns, the disparity core
    was called once, on the pair of the two loaded stereo images, and gave
    back two maps: the first goes to the left outputs (the "L" text file and,
    normalized, the "L" image), the second to the right outputs. *)
Theorem core_takes_two_images_and_returns_two_maps :
  forall (env : Env) (params : Params)
         (leftImgPath rightImgPath disparityPath : string) (t : list Event),
    writeDisparityMap env params leftImgPath rightImgPath disparityPath
    = (t, inr tt) ->
    exists leftImage rightImage leftDisp rightDisp pL pR tL tR,
      Image_load env leftImgPath = inr leftImage /\
      Image_load env rightImgPath = inr rightImage /\
      computeDisparity env params
        {| leftImg := leftImage; rightImg := rightImage |}
      = inr (leftDisp, rightDisp) /\
      StdString.insert disparityPath
        (StdString.rfind disparityPath "."%char) "L" = inr pL /\
      StdString.insert disparityPath
        (StdString.rfind disparityPath "."%char) "R" = inr pR /\
      StdString.replace disparityPath
        (StdString.rfind disparityPath "."%char) 10 "L.csv" = inr tL /\
      StdString.replace disparityPath
        (StdString.rfind disparityPath "."%char) 10 "R.csv" = inr tR /\
      t = ([EvLoadImage leftImgPath; EvLoadImage rightImgPath;
            EvComputeDisparity params]
           ++ text_events env tL
                (join (csv_rows env (size leftDisp 0) (size leftDisp 1)
                         (get leftDisp)))
           ++ text_events env tR
                (join (csv_rows env (size leftDisp 0) (size leftDisp 1)
                         (get rightDisp)))
           ++ [EvWriteImage (setPath (normalize env leftDisp) pL);
               EvWriteImage (setPath (normalize env rightDisp) pR)])%list.
Proof.
  intros env params l r out t Hrun.
  destruct (writeDisparityMap_returns env params l r out t Hrun)
    as [pL [pR [tL [tR [il [ir [dl [dr
        [HpL [HpR [HtL [HtR [Hil [Hir [Hcore [HwL [HwR Ht]]]]]]]]]]]]]]]]].
  exists il, ir, dl, dr, pL, pR, tL, tR.
  rewrite csv_loops_rows in Ht. cbn [fst snd] in Ht.
  repeat (split; [assumption |]). exact Ht.
Qed.

Lemma core_takes_two_images_and_returns_two_maps_witness :
  exists t leftDisp rightDisp,
    writeDisparityMap Example.plain
      setDefaults "left.png" "right.png" "disparity.png" = (t, inr tt) /\
    get leftDisp 0 0 = 3%float /\ get rightDisp 0 0 = 7%float /\
    In (EvWriteImage (setPath leftDisp "disparityL.png")) t /\
    In (EvWriteImage (setPath rightDisp "disparityR.png")) t.
Proof.
  eexists.
  destruct (core_takes_two_images_and_returns_two_maps
              Example.plain
              setDefaults "left.png" "right.png" "disparity.png" _ eq_refl)
    as [il [ir [dl [dr [pL [pR [tL [tR
        [Hil [Hir [Hcore [HpL [HpR [HtL [HtR Ht]]]]]]]]]]]]]]].
  exists dl, dr.
  inversion Hcore; subst dl dr. inversion HpL; subst pL.
  inversion HpR; subst pR.
  split; [reflexivity |]. split; [reflexivity |]. split; [reflexivity |].
  split; cbn; tauto.
Defined.

(** ** The four output paths *)

(** X1.  For an output argument [stem ++ "." ++ ext] whose extension has no '.',
    the image paths are [stem ++ "L." ++ ext] and [stem ++ "R." ++ ext]; the
    text paths are [stem ++ "L.csv"] and [stem ++ "R.csv"] followed by what
    [replace(extPos, 10, ..)] leaves of the extension, that is by the
    extension without its first nine characters.  With at most nine
    characters in the extension nothing is left. *)
Theorem output_paths_of_stem_and_extension :
  forall (stem ext : string),
    ~ In "."%char (list_ascii_of_string ext) ->
    let disparityPath := stem ++ "." ++ ext in
    let extPos := StdString.rfind disparityPath "."%char in
    StdString.insert disparityPath extPos "L" = inr (stem ++ "L." ++ ext) /\
    StdString.insert disparityPath extPos "R" = inr (stem ++ "R." ++ ext) /\
    StdString.replace disparityPath extPos 10 "L.csv"
    = inr (stem ++ "L.csv" ++ StdString.drop 9 ext) /\
    StdString.replace disparityPath extPos 10 "R.csv"
    = inr (stem ++ "R.csv" ++ StdString.drop 9 ext) /\
    ((String.length ext <= 9)%nat -> StdString.drop 9 ext = "").
Proof.
  intros stem ext Hext disparityPath extPos.
  assert (Hpos : extPos = StdString.size stem).
  { unfold extPos, disparityPath. cbn [append].
    exact (rfind_append stem ext "."%char Hext). }
  rewrite Hpos. unfold disparityPath.
  repeat split.
  - exact (insert_at stem ("." ++ ext) "L").
  - exact (insert_at stem ("." ++ ext) "R").
  - exact (replace_at stem ("." ++ ext) "L.csv" 10).
  - exact (replace_at stem ("." ++ ext) "R.csv" 10).
  - intros Hlen. now apply drop_all.
Qed.

Lemma output_paths_of_stem_and_extension_witness :
  StdString.insert "out/disparity.png"
    (StdString.rfind "out/disparity.png" "."%char) "L"
  = inr "out/disparityL.png" /\
  StdString.replace "out/disparity.png"
    (StdString.rfind "out/disparity.png" "."%char) 10 "R.csv"
  = inr "out/disparityR.csv".
Proof.
  assert (Hext : ~ In "."%char (list_ascii_of_string "png")).
  { cbn. intros H.
    repeat (destruct H as [H|H]; [discriminate H |]). exact H. }
  pose proof (output_paths_of_stem_and_extension "out/disparity" "png" Hext)
    as [HL [_ [_ [HR _]]]].
  split; [exact HL | exact HR].
Defined.

(** C5 at an extension of ten characters:
    [spmatch left.png right.png --output out/d.0123456789] sends its text to
    "out/dL.csv9" and "out/dR.csv9", not to "out/dL.csv" and "out/dR.csv";
    the images go to "out/dL.0123456789" and "out/dR.0123456789". *)
Theorem text_paths_keep_the_tail_of_a_long_extension :
  StdString.replace "out/d.0123456789"
    (StdString.rfind "out/d.0123456789" "."%char) 10 "L.csv"
  = inr "out/dL.csv9" /\
  StdString.replace "out/d.0123456789"
    (StdString.rfind "out/d.0123456789" "."%char) 10 "R.csv"
  = inr "out/dR.csv9" /\
  flat_map
    (fun ev =>
       match ev with
       | EvWriteText p _ => [p]
       | EvWriteImage i => [imgPath i]
       | _ => []
       end)
    (fst (main Example.plain
            ["spmatch"; "left.png"; "right.png";
             "--output"; "out/d.0123456789"]))
  = ["out/dL.csv9"; "out/dR.csv9"; "out/dL.0123456789"; "out/dR.0123456789"].
Proof.
  repeat split.
Qed.

(** ** The defaults *)

(** X2.  The block [setDefaults] leaves meets the constraints its comments note:
    the window size, 35, is odd, and the maximum disparity, 70, is positive
    and above the minimum, 0. *)
Theorem defaults_are_valid :
  WINDOW_SIZE setDefaults = 35%Z /\
  MIN_D setDefaults = 0%Z /\
  MAX_D setDefaults = 70%Z /\
  OUT_OF_BOUNDS setDefaults = NAN_COST /\
  USE_PSEUDORAND setDefaults = false /\
  ~ invalid_parameters setDefaults.
Proof.
  repeat split.
  intros [H|[H|H]]; cbn in H; [discriminate | lia | lia].
Qed.

(** ** A complete run *)

(** X3.  When the command line is stored and notified without error, help is
    not asked for, the two inputs can be opened and loaded, the four paths are
    derived, the core returns two maps and both images are written, [main]
    returns 0 and the whole run is: the two inputs opened, the two images
    loaded, the core called, the left then the right text file, the left then
    the right image. *)
Theorem complete_run :
  forall (env : Env) (argv : list string) (vMap : variables_map) (vars : Vars)
         (l r pL pR tL tR : string) (il ir dl dr : Image),
    parse_and_store env argv = inr vMap ->
    count vMap "help" = 0%nat ->
    Store.notify allOpts vMap initial_vars = inr vars ->
    inputImages vars = [l; r] ->
    ifstream_good env l = true ->
    ifstream_good env r = true ->
    StdString.insert (outputPath vars)
      (StdString.rfind (outputPath vars) "."%char) "L" = inr pL ->
    StdString.insert (outputPath vars)
      (StdString.rfind (outputPath vars) "."%char) "R" = inr pR ->
    StdString.replace (outputPath vars)
      (StdString.rfind (outputPath vars) "."%char) 10 "L.csv" = inr tL ->
    StdString.replace (outputPath vars)
      (StdString.rfind (outputPath vars) "."%char) 10 "R.csv" = inr tR ->
    Image_load env l = inr il ->
    Image_load env r = inr ir ->
    computeDisparity env (params vars) {| leftImg := il; rightImg := ir |}
    = inr (dl, dr) ->
    Image_write env (setPath (normalize env dl) pL) = inr tt ->
    Image_write env (setPath (normalize env dr) pR) = inr tt ->
    main env argv =
    (([EvOpenInput l; EvOpenInput r; EvLoadImage l; EvLoadImage r;
       EvComputeDisparity (params vars)]
      ++ text_events env tL
           (join (csv_rows env (size dl 0) (size dl 1) (get dl)))
      ++ text_events env tR
           (join (csv_rows env (size dl 0) (size dl 1) (get dr)))
      ++ [EvWriteImage (setPath (normalize env dl) pL);
          EvWriteImage (setPath (normalize env dr) pR)])%list,
     Returned 0).
Proof.
  intros env argv vMap vars l r pL pR tL tR il ir dl dr
         H Hh Hn Hi Hl Hr HpL HpR HtL HtR Hil Hir Hcore HwL HwR.
  rewrite (main_enters_writeDisparityMap env argv vMap vars l r
             H Hh Hn Hi Hl Hr).
  rewrite (writeDisparityMap_runs env (params vars) l r (outputPath vars)
             pL pR tL tR il ir dl dr HpL HpR HtL HtR Hil Hir Hcore HwL HwR).
  rewrite csv_loops_rows. reflexivity.
Qed.

Lemma complete_run_witness :
  main Example.plain ["spmatch"; "left.png"; "right.png"]
  = ([EvOpenInput "left.png"; EvOpenInput "right.png";
      EvLoadImage "left.png"; EvLoadImage "right.png";
      EvComputeDisparity setDefaults;
      EvWriteText "disparityL.csv"
        (join ["0, 0, 3" ++ newline; "0, 1, 3" ++ newline;
               "1, 0, 4" ++ newline; "1, 1, 4" ++ newline]);
      EvWriteText "disparityR.csv"
        (join ["0, 0, 7" ++ newline; "0, 1, 7" ++ newline;
               "1, 0, 8" ++ newline; "1, 1, 8" ++ newline]);
      EvWriteImage (Example.ramp "disparityL.png" 3);
      EvWriteImage (Example.ramp "disparityR.png" 7)],
     Returned 0).
Proof.
  apply (complete_run Example.plain ["spmatch"; "left.png"; "right.png"]
           (Example.stored Example.plain ["spmatch"; "left.png"; "right.png"])
           (Example.notified Example.plain ["spmatch"; "left.png"; "right.png"])
           "left.png" "right.png"
           "disparityL.png" "disparityR.png" "disparityL.csv" "disparityR.csv"
           (Example.ramp "left.png" 0) (Example.ramp "right.png" 0)
           (Example.ramp "" 3) (Example.ramp "" 7));
    vm_compute; reflexivity.
Defined.

(** * Further properties of the driver *)

(** ** The loop over the input paths *)

(** X4.  The loop of lines 121-126 opens the paths in order and stops at the
    first that cannot be opened: when every path can be opened it opens them
    all and returns; otherwise it has opened the paths up to and including the
    first bad one, and throws "File not found: " followed by that path. *)
Theorem check_inputs_stops_at_the_first_unreadable :
  forall (env : Env) (paths : list string),
    match List.find (fun s => negb (ifstream_good env s)) paths with
    | None =>
        forallb (ifstream_good env) paths = true /\
        check_inputs env paths = (map EvOpenInput paths, inr tt)
    | Some bad =>
        exists before after,
          paths = (before ++ bad :: after)%list /\
          forallb (ifstream_good env) before = true /\
          ifstream_good env bad = false /\
          check_inputs env paths
          = (map EvOpenInput (before ++ [bad]),
             inl (runtime_error ("File not found: " ++ bad)))
    end.
Proof.
  intros env paths. induction paths as [|s rest IH]; [now split |].
  cbn [List.find check_inputs forallb].
  destruct (ifstream_good env s) eqn:Es; cbn [negb].
  - destruct (List.find (fun s => negb (ifstream_good env s)) rest) as [bad|].
    + destruct IH as [before [after [Hl [Hgood [Hbad Hrun]]]]].
      exists (s :: before), after. cbn [forallb app map].
      rewrite Es, Hgood, Hrun. repeat split; try assumption.
      now rewrite Hl.
    + destruct IH as [Hgood Hrun]. rewrite Hgood, Hrun. now split.
  - exists [], rest. repeat split. exact Es.
Qed.

(** ** The extractor and its stream *)

(** X5.  [operator>>] consumes the token and nothing more: when it succeeds,
    what it started from is the token of the variant it selected followed by
    what it leaves in the stream, and the [skipws] flag is as before.  Each
    variant is selected by its own token: a stream that holds just that token
    yields the variant and is left empty. *)
Theorem operator_shr_consumes_the_token :
  (forall (in_ in' : IStream.istream) (selection : OutOfBounds),
      operator_shr in_ = inr (in', selection) ->
      unread in_ = token_of selection ++ IStream.buf in' /\
      fst (IStream.extract_string in_) = token_of selection /\
      IStream.skipws in' = IStream.skipws in_) /\
  (forall (selection : OutOfBounds) (flag : bool),
      operator_shr {| IStream.buf := token_of selection;
                      IStream.skipws := flag |}
      = inr ({| IStream.buf := ""; IStream.skipws := flag |}, selection)).
Proof.
  split.
  - intros in_ in' selection H.
    rewrite operator_shr_by_token in H. cbv zeta in H.
    unfold unread. unfold IStream.extract_string in *.
    destruct (IStream.read_word
                (if IStream.skipws in_ then IStream.skip_ws (IStream.buf in_)
                 else IStream.buf in_)) as [w r] eqn:Ew.
    apply read_word_splits in Ew. cbn [fst snd] in H.
    repeat match type of H with
           | context [String.eqb ?a ?b] =>
               destruct (String.eqb_spec a b) as [Et|_];
               [inversion H; subst in'; subst selection; cbn;
                rewrite Ew, Et; repeat split |]
           end.
    discriminate H.
  - intros [] []; reflexivity.
Qed.

(** ** Collisions between the output paths *)

Section PathCollisions.

Import StdString.

Lemma append_cancel_l (a b c : string) : a ++ b = a ++ c -> b = c.
Proof.
  induction a as [|x a IH]; simpl; intros H; [exact H |].
  inversion H. now apply IH.
Qed.

Lemma length_drop (n : nat) (s : string) :
  String.length (drop n s) = (String.length s - n)%nat.
Proof.
  revert s; induction n as [|n IH]; intros [|c s]; simpl; try reflexivity.
  apply IH.
Qed.

Lemma insert_value (s t p : string) (pos : Z) :
  insert s pos t = inr p ->
  p = take (Z.to_nat pos) s ++ t ++ drop (Z.to_nat pos) s.
Proof.
  unfold insert. destruct (size s <? pos)%Z; intros H; inversion H.
  reflexivity.
Qed.

Lemma replace_value (s t p : string) (pos len : Z) :
  replace s pos len t = inr p ->
  p = take (Z.to_nat pos) s ++ t
      ++ drop (Z.to_nat (pos + Z.min len (size s - pos))) s.
Proof.
  unfold replace. destruct (size s <? pos)%Z; intros H; inversion H.
  reflexivity.
Qed.

End PathCollisions.

(** X6.  The paths of the left view never coincide with those of the right
    view: whenever the four paths are derived, the two image paths differ, the
    two text paths differ, and no image path of one view is the text path of
    the other. *)
Theorem left_and_right_paths_differ :
  forall (disparityPath pL pR tL tR : string),
    StdString.insert disparityPath
      (StdString.rfind disparityPath "."%char) "L" = inr pL ->
    StdString.insert disparityPath
      (StdString.rfind disparityPath "."%char) "R" = inr pR ->
    StdString.replace disparityPath
      (StdString.rfind disparityPath "."%char) 10 "L.csv" = inr tL ->
    StdString.replace disparityPath
      (StdString.rfind disparityPath "."%char) 10 "R.csv" = inr tR ->
    pL <> pR /\ tL <> tR /\ pL <> tR /\ pR <> tL.
Proof.
  intros out pL pR tL tR HpL HpR HtL HtR.
  apply insert_value in HpL, HpR. apply replace_value in HtL, HtR.
  subst pL pR tL tR.
  repeat split; intros H; apply append_cancel_l in H; discriminate H.
Qed.

Lemma left_and_right_paths_differ_witness :
  "out/dL.png" <> "out/dR.png" /\ "out/dL.csv" <> "out/dR.csv" /\
  "out/dL.png" <> "out/dR.csv" /\ "out/dR.png" <> "out/dL.csv".
Proof.
  apply (left_and_right_paths_differ "out/d.png"); reflexivity.
Defined.

(** X7.  Within one view the text path is the image path exactly when the
    extension is "csv": for an output argument [stem ++ "." ++ ext] with no
    '.' in [ext], the path the image is written to equals the path of the text
    file if and only if [ext = "csv"].  Lines 232-241 write the text files
    first and the images afterwards. *)
Theorem text_and_image_paths_coincide_only_for_csv :
  forall (stem ext pL pR tL tR : string),
    ~ In "."%char (list_ascii_of_string ext) ->
    StdString.insert (stem ++ "." ++ ext)
      (StdString.rfind (stem ++ "." ++ ext) "."%char) "L" = inr pL ->
    StdString.insert (stem ++ "." ++ ext)
      (StdString.rfind (stem ++ "." ++ ext) "."%char) "R" = inr pR ->
    StdString.replace (stem ++ "." ++ ext)
      (StdString.rfind (stem ++ "." ++ ext) "."%char) 10 "L.csv" = inr tL ->
    StdString.replace (stem ++ "." ++ ext)
      (StdString.rfind (stem ++ "." ++ ext) "."%char) 10 "R.csv" = inr tR ->
    (pL = tL <-> ext = "csv") /\ (pR = tR <-> ext = "csv").
Proof.
  intros stem ext pL pR tL tR Hext HpL HpR HtL HtR.
  assert (Hpos : StdString.rfind (stem ++ "." ++ ext) "."%char
                 = StdString.size stem).
  { cbn [append]. exact (rfind_append stem ext "."%char Hext). }
  rewrite Hpos in *.
  rewrite (insert_at stem ("." ++ ext) "L") in HpL.
  rewrite (insert_at stem ("." ++ ext) "R") in HpR.
  change 10%Z with (Z.of_nat 10) in HtL, HtR.
  rewrite (replace_at stem ("." ++ ext) "L.csv" 10) in HtL.
  rewrite (replace_at stem ("." ++ ext) "R.csv" 10) in HtR.
  inversion HpL; inversion HpR; inversion HtL; inversion HtR.
  subst pL pR tL tR. clear HpL HpR HtL HtR.
  assert (Hcsv : ext = "csv" ++ StdString.drop 9 ext -> ext = "csv").
  { intros E. assert (Hlen := f_equal String.length E).
    rewrite length_append, length_drop in Hlen. cbn in Hlen.
    assert (Hshort : (String.length ext <= 9)%nat) by lia.
    rewrite (drop_all 9 ext Hshort) in E. exact E. }
  split; split; intros H.
  - apply append_cancel_l in H.
    apply (f_equal (StdString.drop 2)) in H.
    exact (Hcsv H).
  - subst ext. reflexivity.
  - apply append_cancel_l in H.
    apply (f_equal (StdString.drop 2)) in H.
    exact (Hcsv H).
  - subst ext. reflexivity.
Qed.

Lemma text_and_image_paths_coincide_only_for_csv_witness :
  ("out/dL.csv" = "out/dL.csv" <-> "csv" = "csv") /\
  ("out/dR.csv" = "out/dR.csv" <-> "csv" = "csv").
Proof.
  apply (text_and_image_paths_coincide_only_for_csv "out/d" "csv");
    try reflexivity.
  cbn. intros H. repeat (destruct H as [H|H]; [discriminate H |]). exact H.
Defined.

(** ** The runs of [writeDisparityMap] that throw *)

Ltac failing_stages H :=
  repeat match type of H with
         | context [match ?x with inl _ => _ | inr _ => _ end] =>
             let E := fresh "E" in
             destruct x as [?|?] eqn:E;
             cbn [lift bind emit ret fst snd app] in H
         | context [if ?b then _ else _] =>
             let E := fresh "E" in
             destruct b eqn:E;
             cbn [lift bind emit ret fst snd app] in H
         end.

Ltac finish_case :=
  repeat (split; [reflexivity || eassumption |]);
  repeat match goal with
         | E : ofstream_good _ _ = _ |- _ => rewrite E; clear E
         end;
  reflexivity.

Lemma insert_fails (s t : string) (pos : Z) (e : exn) :
  StdString.insert s pos t = inl e ->
  (StdString.size s < pos)%Z /\ e = out_of_range "basic_string::insert".
Proof.
  unfold StdString.insert.
  destruct (Z.ltb_spec (StdString.size s) pos) as [Hlt|Hge];
    intros H; inversion H.
  now split.
Qed.

Lemma insert_succeeds (s t p : string) (pos : Z) :
  StdString.insert s pos t = inr p -> (pos <= StdString.size s)%Z.
Proof.
  unfold StdString.insert.
  destruct (Z.ltb_spec (StdString.size s) pos) as [Hlt|Hge];
    intros H; inversion H.
  assumption.
Qed.

(** X8.  Every run of [writeDisparityMap] that throws is one of six.  The
    output path has no usable '.' and the first [insert] throws with nothing
    done.  Or the paths are derived and: the left image does not load (nothing
    done); the right image does not load (the left one is loaded); the core
    throws (both images loaded, nothing written); the left image cannot be
    written (both text files are already sent to their streams); or the right
    image cannot be written (the text files and the left image are already
    written).  The exception is the one the failing stage threw. *)
Theorem writeDisparityMap_throws :
  forall (env : Env) (params : Params)
         (leftImgPath rightImgPath disparityPath : string)
         (t : list Event) (e : exn),
    writeDisparityMap env params leftImgPath rightImgPath disparityPath
    = (t, inl e) ->
    let extPos := StdString.rfind disparityPath "."%char in
    ((StdString.size disparityPath < extPos)%Z /\
     e = out_of_range "basic_string::insert" /\ t = []) \/
    ((extPos <= StdString.size disparityPath)%Z /\
     ((Image_load env leftImgPath = inl e /\ t = []) \/
      (exists il,
          Image_load env leftImgPath = inr il /\
          Image_load env rightImgPath = inl e /\
          t = [EvLoadImage leftImgPath]) \/
      (exists il ir,
          Image_load env leftImgPath = inr il /\
          Image_load env rightImgPath = inr ir /\
          computeDisparity env params {| leftImg := il; rightImg := ir |}
          = inl e /\
          t = [EvLoadImage leftImgPath; EvLoadImage rightImgPath;
               EvComputeDisparity params]) \/
      (exists il ir dl dr pL tL tR,
          Image_load env leftImgPath = inr il /\
          Image_load env rightImgPath = inr ir /\
          computeDisparity env params {| leftImg := il; rightImg := ir |}
          = inr (dl, dr) /\
          StdString.insert disparityPath extPos "L" = inr pL /\
          StdString.replace disparityPath extPos 10 "L.csv" = inr tL /\
          StdString.replace disparityPath extPos 10 "R.csv" = inr tR /\
          Image_write env (setPath (normalize env dl) pL) = inl e /\
          t = ([EvLoadImage leftImgPath; EvLoadImage rightImgPath;
                EvComputeDisparity params]
               ++ text_events env tL (fst (csv_loops env dl dr))
               ++ text_events env tR (snd (csv_loops env dl dr)))%list) \/
      (exists il ir dl dr pL pR tL tR,
          Image_load env leftImgPath = inr il /\
          Image_load env rightImgPath = inr ir /\
          computeDisparity env params {| leftImg := il; rightImg := ir |}
          = inr (dl, dr) /\
          StdString.insert disparityPath extPos "L" = inr pL /\
          StdString.insert disparityPath extPos "R" = inr pR /\
          StdString.replace disparityPath extPos 10 "L.csv" = inr tL /\
          StdString.replace disparityPath extPos 10 "R.csv" = inr tR /\
          Image_write env (setPath (normalize env dl) pL) = inr tt /\
          Image_write env (setPath (normalize env dr) pR) = inl e /\
          t = ([EvLoadImage leftImgPath; EvLoadImage rightImgPath;
                EvComputeDisparity params]
               ++ text_events env tL (fst (csv_loops env dl dr))
               ++ text_events env tR (snd (csv_loops env dl dr))
               ++ [EvWriteImage (setPath (normalize env dl) pL)])%list))).
Proof.
  intros env params l r out t e H extPos.
  unfold writeDisparityMap, mkStereoImagePair, load, write, ofstream_close
    in H.
  fold extPos in H.
  destruct (StdString.insert out extPos "L") as [e0|pL] eqn:HpL.
  { cbn [lift bind] in H. inversion H; subst.
    destruct (insert_fails _ _ _ _ HpL) as [Hlt He]. left. auto. }
  right. split; [exact (insert_succeeds _ _ _ _ HpL) |].
  cbn [lift bind emit ret fst snd app] in H.
  failing_stages H.
  all: repeat match goal with
              | x : (Image * Image)%type |- _ => destruct x
              | x : unit |- _ => destruct x
              end.
  all: cbn [fst snd] in *.
  all: try discriminate H.
  all: inversion H; subst; clear H.
  all: try (exfalso;
            match goal with
            | E : StdString.insert _ _ _ = inl _ |- _ =>
                apply insert_fails in E; destruct E as [E _];
                apply insert_succeeds in HpL; lia
            | E : StdString.replace _ _ _ _ = inl _ |- _ =>
                unfold StdString.replace in E;
                apply insert_succeeds in HpL;
                match type of HpL with (?p <= ?n)%Z => destruct (Z.ltb_spec n p) end;
                [lia | discriminate E]
            end).
  all: unfold text_events.
  all: first
         [ left; finish_case
         | right; left; eexists; finish_case
         | right; right; left; do 2 eexists; finish_case
         | right; right; right; left; do 7 eexists; finish_case
         | right; right; right; right; do 8 eexists; finish_case ].
Qed.

Lemma writeDisparityMap_throws_witness :
  exists t dl dr,
    writeDisparityMap Faults.left_image_locked setDefaults
      "left.png" "right.png" "disparity.png"
    = (t, inl (io_error "disparityL.png")) /\
    computeDisparity Faults.left_image_locked setDefaults
      {| leftImg := Example.ramp "left.png" 0;
         rightImg := Example.ramp "right.png" 0 |} = inr (dl, dr) /\
    t = [EvLoadImage "left.png"; EvLoadImage "right.png";
         EvComputeDisparity setDefaults;
         EvWriteText "disparityL.csv" (fst (csv_loops Faults.left_image_locked dl dr));
         EvWriteText "disparityR.csv" (snd (csv_loops Faults.left_image_locked dl dr))].
Proof.
  pose (t0 := fst (writeDisparityMap Faults.left_image_locked setDefaults
                     "left.png" "right.png" "disparity.png")).
  assert (Hrun : writeDisparityMap Faults.left_image_locked setDefaults
                   "left.png" "right.png" "disparity.png"
                 = (t0, inl (io_error "disparityL.png")))
    by (vm_compute; reflexivity).
  exists t0.
  destruct (writeDisparityMap_throws _ _ _ _ _ _ _ Hrun) as [[Hlt _]|[_ C]].
  { vm_compute in Hlt. discriminate Hlt. }
  destruct C as [[Hl _]|C].
  { vm_compute in Hl. discriminate Hl. }
  destruct C as [[il [_ [Hr _]]]|C].
  { vm_compute in Hr. discriminate Hr. }
  destruct C as [[il [ir [_ [_ [Hc _]]]]]|C].
  { vm_compute in Hc. discriminate Hc. }
  destruct C as [C|C].
  - destruct C as [il [ir [dl [dr [pL [tL [tR
                  [Hil [Hir [Hc [HpL [HtL [HtR [Hw Ht]]]]]]]]]]]]]].
    exists dl, dr.
    inversion Hil; subst il. inversion Hir; subst ir.
    inversion HtL; subst tL. inversion HtR; subst tR.
    repeat split; [exact Hc | exact Ht].
  - destruct C as [il [ir [dl [dr [pL [pR [tL [tR
                  [_ [_ [_ [HpL [_ [_ [_ [Hw _]]]]]]]]]]]]]]]].
    exfalso. inversion HpL; subst pL. vm_compute in Hw. discriminate Hw.
Defined.

(** ** What [main] does before its checks have passed *)

(** Every event of [writeDisparityMap] is a load, the call of the core or
    a write. *)
Lemma writeDisparityMap_events_touch_pixels
      (env : Env) (params : Params) (l r out : string) (ev : Event) :
  In ev (fst (writeDisparityMap env params l r out)) ->
  touches_pixels ev = true.
Proof.
  unfold writeDisparityMap, mkStereoImagePair, load, write, ofstream_close.
  intros H. cbn [lift bind emit ret fst snd app] in H.
  failing_stages H.
  all: cbn in H.
  all: repeat (destruct H as [H|H]; [now subst ev |]).
  all: destruct H.
Qed.

(** The run of [main] is one of: nothing done and an exception; the help
    text and 1; the first input probed and found unreadable; both probed and
    the second unreadable; or both probed and then [writeDisparityMap]. *)
Lemma main_trace_cases (env : Env) (argv : list string) :
  fst (main env argv) = [] \/
  (fst (main env argv) = [EvStdout (help_text env)] /\
   exists vMap,
     parse_and_store env argv = inr vMap /\ count vMap "help" <> 0%nat) \/
  (exists vMap vars l r,
      parse_and_store env argv = inr vMap /\
      count vMap "help" = 0%nat /\
      Store.notify allOpts vMap initial_vars = inr vars /\
      inputImages vars = [l; r] /\
      ((ifstream_good env l = false /\
        fst (main env argv) = [EvOpenInput l]) \/
       (ifstream_good env l = true /\ ifstream_good env r = false /\
        fst (main env argv) = [EvOpenInput l; EvOpenInput r]) \/
       (ifstream_good env l = true /\ ifstream_good env r = true /\
        fst (main env argv)
        = ([EvOpenInput l; EvOpenInput r]
           ++ fst (writeDisparityMap env (params vars) l r
                     (outputPath vars)))%list))).
Proof.
  destruct (parse_and_store env argv) as [e|vMap] eqn:H.
  { left. now rewrite (main_parse_error env argv e H). }
  destruct (Nat.eq_dec (count vMap "help") 0) as [Hh|Hh].
  2:{ right; left. rewrite (main_help env argv vMap H Hh). eauto. }
  destruct (Store.notify allOpts vMap initial_vars) as [e|vars] eqn:Hn.
  { left. now rewrite (main_notify_error env argv vMap e H Hh Hn). }
  destruct (inputImages vars) as [|l [|r [|x rest]]] eqn:Hi;
    try (left;
         rewrite (main_wrong_count env argv vMap vars H Hh Hn);
         [reflexivity | rewrite Hi; cbn; lia]).
  right; right. exists vMap, vars, l, r.
  repeat (split; [reflexivity || assumption |]).
  destruct (ifstream_good env l) eqn:El.
  - destruct (ifstream_good env r) eqn:Er.
    + right; right. repeat split.
      now rewrite (main_enters_writeDisparityMap env argv vMap vars l r
                     H Hh Hn Hi El Er).
    + right; left. repeat split.
      rewrite (main_missing_input env argv vMap vars l r H Hh Hn Hi
                 (or_intror Er)), El.
      reflexivity.
  - left. split; [reflexivity |].
    rewrite (main_missing_input env argv vMap vars l r H Hh Hn Hi
               (or_introl El)), El.
    reflexivity.
Qed.

(** X9.  Whatever the command line and the world, every event of a run of
    [main] is accounted for by the checks before it.  The only text printed is
    the help, and only when "help" is counted.  An input is probed only when
    the command line was stored and notified without error, help was not asked
    for and exactly two inputs are named; the second only after the first
    could be opened.  An image is loaded, the core run or a file written only
    when, besides, both inputs could be opened, and then as an event of
    [writeDisparityMap] on these two paths. *)
Theorem main_acts_only_after_its_checks :
  forall (env : Env) (argv : list string) (ev : Event),
    In ev (fst (main env argv)) ->
    match ev with
    | EvStdout text =>
        text = help_text env /\
        exists vMap,
          parse_and_store env argv = inr vMap /\ count vMap "help" <> 0%nat
    | EvOpenInput path =>
        exists vMap vars l r,
          parse_and_store env argv = inr vMap /\
          count vMap "help" = 0%nat /\
          Store.notify allOpts vMap initial_vars = inr vars /\
          inputImages vars = [l; r] /\
          (path = l \/ (path = r /\ ifstream_good env l = true))
    | _ =>
        exists vMap vars l r,
          parse_and_store env argv = inr vMap /\
          count vMap "help" = 0%nat /\
          Store.notify allOpts vMap initial_vars = inr vars /\
          inputImages vars = [l; r] /\
          ifstream_good env l = true /\
          ifstream_good env r = true /\
          In ev (fst (writeDisparityMap env (params vars) l r
                        (outputPath vars)))
    end.
Proof.
  intros env argv ev Hin.
  destruct (main_trace_cases env argv)
    as [Ht|[[Ht Hhelp]|[vMap [vars [l [r [H [Hh [Hn [Hi Hcases]]]]]]]]]].
  - rewrite Ht in Hin. destruct Hin.
  - rewrite Ht in Hin. destruct Hin as [<-|[]]. split; [reflexivity | exact Hhelp].
  - destruct Hcases as [[El Ht]|[[El [Er Ht]]|[El [Er Ht]]]]; rewrite Ht in Hin.
    + destruct Hin as [<-|[]]. exists vMap, vars, l, r. auto 10.
    + destruct Hin as [<-|[<-|[]]]; exists vMap, vars, l, r; auto 10.
    + destruct Hin as [<-|[<-|Hin]];
        [exists vMap, vars, l, r; auto 10
        | exists vMap, vars, l, r; auto 10 |].
      pose proof (writeDisparityMap_events_touch_pixels _ _ _ _ _ _ Hin)
        as Htouch.
      destruct ev; try discriminate Htouch;
        exists vMap, vars, l, r; auto 10.
Qed.

Lemma main_acts_only_after_its_checks_witness :
  exists vMap vars l r,
    parse_and_store Example.plain ["spmatch"; "left.png"; "right.png"]
    = inr vMap /\
    count vMap "help" = 0%nat /\
    Store.notify allOpts vMap initial_vars = inr vars /\
    inputImages vars = [l; r] /\
    ifstream_good Example.plain l = true /\
    ifstream_good Example.plain r = true /\
    In (EvLoadImage "left.png")
       (fst (writeDisparityMap Example.plain (params vars) l r
               (outputPath vars))).
Proof.
  apply (main_acts_only_after_its_checks
           Example.plain ["spmatch"; "left.png"; "right.png"]
           (EvLoadImage "left.png")).
  vm_compute. tauto.
Defined.

(** ** The variables map *)

Section MapFacts.

Lemma find_set_same (m : variables_map) (k : string) (v : variable_value) :
  find (set m k v) k = Some v.
Proof.
  induction m as [|[k0 v0] m IH]; cbn [set find].
  - now rewrite String.eqb_refl.
  - destruct (String.eqb_spec k0 k) as [->|Hne]; cbn [find].
    + now rewrite String.eqb_refl.
    + destruct (String.eqb_spec k0 k); [contradiction | exact IH].
Qed.

Lemma find_set_other (m : variables_map) (k k' : string) (v : variable_value) :
  k <> k' -> find (set m k v) k' = find m k'.
Proof.
  intros Hne. induction m as [|[k0 v0] m IH]; cbn [set find].
  - destruct (String.eqb_spec k k'); [contradiction | reflexivity].
  - destruct (String.eqb_spec k0 k) as [->|Hne0]; cbn [find].
    + destruct (String.eqb_spec k k'); [contradiction | reflexivity].
    + destruct (String.eqb_spec k0 k'); [reflexivity | exact IH].
Qed.

Lemma in_keys_set (m : variables_map) (k k' : string) (v : variable_value) :
  In k' (map fst (set m k v)) -> k' = k \/ In k' (map fst m).
Proof.
  induction m as [|[k0 v0] m IH]; cbn [set map fst In].
  - intros [<-|[]]. now left.
  - destruct (String.eqb_spec k0 k) as [->|Hne]; cbn [map fst In].
    + tauto.
    + intros [<-|Hin]; [tauto |]. destruct (IH Hin); tauto.
Qed.

Lemma set_keeps_keys_apart (m : variables_map) (k : string)
      (v : variable_value) :
  NoDup (map fst m) -> NoDup (map fst (set m k v)).
Proof.
  induction m as [|[k0 v0] m IH]; cbn [set map fst]; intros Hnd.
  - constructor; [intros [] | constructor].
  - inversion Hnd as [|x xs Hout Hrest]; subst.
    destruct (String.eqb_spec k0 k) as [->|Hne]; cbn [map fst].
    + now constructor.
    + constructor; [| now apply IH].
      intros Hin. apply in_keys_set in Hin. destruct Hin; [congruence | tauto].
Qed.

Lemma set_keeps_entries {P : string * variable_value -> Prop}
      (m : variables_map) (k : string) (v : variable_value) :
  Forall P m -> P (k, v) -> Forall P (set m k v).
Proof.
  intros Hall Hnew. induction Hall as [|[k0 v0] m H0 Hall IH]; cbn [set].
  - now repeat constructor.
  - destruct (String.eqb_spec k0 k) as [->|Hne]; now constructor.
Qed.

Lemma find_absent (m : variables_map) (k : string) :
  ~ In k (map fst m) -> find m k = None.
Proof.
  induction m as [|[k0 v0] m IH]; cbn [find map fst In]; intros Hout.
  - reflexivity.
  - destruct (String.eqb_spec k0 k); [tauto | apply IH; tauto].
Qed.

Lemma find_option_name (desc : list option_description) (k : string)
      (d : option_description) :
  find_option desc k = Some d -> long_name d = k /\ In d desc.
Proof.
  induction desc as [|d0 desc IH]; cbn [find_option]; [discriminate |].
  destruct (String.eqb_spec (long_name d0) k) as [E|_].
  - intros H; inversion H; subst. split; [reflexivity | now left].
  - intros H. destruct (IH H). split; [assumption | now right].
Qed.

End MapFacts.

(** ** Storing keeps the map in step with the option table *)

Section StoreKeepsBound.

Variable env : Env.
Variable desc : list option_description.

(** What one turn of [po::store] does to the map: nothing for an option
    without a name; otherwise the entry of the option's key is set, to a value
    whose notifier is the assignment the option was declared with. *)
Lemma store_option_sets (m m' : variables_map) (o : basic_option) :
  Store.store_option env desc m o = inr m' ->
  (string_key o = "" /\ m' = m) \/
  (string_key o <> "" /\
   exists v, m' = set m (string_key o) v /\ entry_bound desc (string_key o, v)).
Proof.
  unfold Store.store_option.
  destruct (String.eqb_spec (string_key o) "") as [E|Hne].
  { intros H; inversion H. now left. }
  intros H. right. split; [exact Hne |].
  destruct (find_option desc (string_key o)) as [d|] eqn:Ed; [| discriminate].
  unfold entry_bound. cbn [fst snd]. rewrite Ed.
  destruct (semantic d) as [|T tv] eqn:Es.
  - destruct (option_map held (find m (string_key o))); [discriminate |].
    destruct (1 <? List.length (tokens o))%nat; [discriminate |].
    inversion H. eexists. split; [reflexivity |]. cbn. reflexivity.
  - assert (Hexp : forall x, exists v,
                 set m (string_key o) (Store.explicit T tv x)
                 = set m (string_key o) v /\
                 (exists x0 : sem T,
                     held v = any_typed T x0 /\ notifier v = store_to tv x0)).
    { intros x. exists (Store.explicit T tv x). split; [reflexivity |].
      exists x. now split. }
    destruct (tokens o) as [|tok toks]; [destruct (implicit_value tv) as [x|] |].
    + inversion H. apply Hexp.
    + destruct (Store.validate env T _ []) as [e|x]; [discriminate |].
      cbn [Store.and_then] in H. inversion H. apply Hexp.
    + destruct (Store.validate env T _ (tok :: toks)) as [e|x];
        [discriminate |].
      cbn [Store.and_then] in H. inversion H. apply Hexp.
Qed.

Lemma store_option_keeps_bound (m m' : variables_map) (o : basic_option) :
  Store.store_option env desc m o = inr m' ->
  well_bound desc m -> well_bound desc m'.
Proof.
  intros H [Hall Hnd].
  destruct (store_option_sets m m' o H) as [[_ ->]|[_ [v [-> Hv]]]].
  - now split.
  - split; [now apply set_keeps_entries | now apply set_keeps_keys_apart].
Qed.

Lemma store_option_keeps_others (m m' : variables_map) (o : basic_option)
      (k : string) :
  Store.store_option env desc m o = inr m' ->
  string_key o <> k -> find m' k = find m k.
Proof.
  intros H Hne.
  destruct (store_option_sets m m' o H) as [[_ ->]|[_ [v [-> _]]]].
  - reflexivity.
  - now apply find_set_other.
Qed.

Lemma store_options_keep_bound (parsed : list basic_option) :
  forall m m',
    Store.store_options env desc m parsed = inr m' ->
    well_bound desc m -> well_bound desc m'.
Proof.
  induction parsed as [|o rest IH]; intros m m'; cbn [Store.store_options].
  - intros H; inversion H; now subst.
  - destruct (Store.store_option env desc m o) as [e|m1] eqn:E;
      cbn [Store.and_then]; [discriminate |].
    intros H Hb. apply (IH m1 m' H).
    now apply (store_option_keeps_bound m m1 o).
Qed.

Lemma store_options_keep_others (parsed : list basic_option) (k : string) :
  not_given k parsed ->
  forall m m',
    Store.store_options env desc m parsed = inr m' -> find m' k = find m k.
Proof.
  induction parsed as [|o rest IH]; intros Hng m m'; cbn [Store.store_options].
  - intros H; inversion H; now subst.
  - destruct (Store.store_option env desc m o) as [e|m1] eqn:E;
      cbn [Store.and_then]; [discriminate |].
    intros H. rewrite (IH (fun o' Hin => Hng o' (or_intror Hin)) m1 m' H).
    apply (store_option_keeps_others m m1 o k E).
    apply Hng. now left.
Qed.

End StoreKeepsBound.

(** ** Defaults and notification *)

Section Notification.

Lemma inr_injective {A B : Type} (a b : B) :
  @inr A B a = inr b -> a = b.
Proof. intros H. now injection H. Qed.

Lemma apply_default_without (m : variables_map) (d : option_description) :
  match semantic d with
  | typed _ tv => default_value tv = None
  | untyped_value => True
  end ->
  Store.apply_default m d = m.
Proof.
  unfold Store.apply_default.
  destruct (find m (long_name d)); [reflexivity |].
  destruct (semantic d) as [|T tv]; [reflexivity |].
  now intros ->.
Qed.

(** "output" is the one option with a default. *)
Lemma defaults_of_allOpts (m : variables_map) :
  fold_left Store.apply_default allOpts m =
  match find m "output" with
  | Some _ => m
  | None => set m "output" default_output
  end.
Proof.
  unfold allOpts, generalOpts, paramsOpts. cbn [app fold_left].
  rewrite (apply_default_without m) by exact I.
  repeat match goal with
         | |- context [Store.apply_default (Store.apply_default ?a ?b) ?d] =>
             rewrite (apply_default_without (Store.apply_default a b) d)
               by reflexivity
         end.
  unfold Store.apply_default. cbn.
  destruct (find m "output"); reflexivity.
Qed.

Lemma defaults_keep_bound (m : variables_map) :
  well_bound allOpts m ->
  well_bound allOpts (fold_left Store.apply_default allOpts m).
Proof.
  intros [Hall Hnd]. rewrite defaults_of_allOpts.
  destruct (find m "output"); [now split |].
  split; [apply set_keeps_entries | now apply set_keeps_keys_apart].
  - exact Hall.
  - unfold entry_bound. cbn. exists "disparity.png". now split.
Qed.

Lemma defaults_keep_others (m : variables_map) (k : string) :
  k <> "output" ->
  find (fold_left Store.apply_default allOpts m) k = find m k.
Proof.
  intros Hne. rewrite defaults_of_allOpts.
  destruct (find m "output"); [reflexivity |].
  apply find_set_other. congruence.
Qed.

(** What [po::store] leaves is in step with the table. *)
Lemma store_keeps_bound (env : Env) (parsed : list basic_option)
      (vMap : variables_map) :
  Store.store env allOpts parsed [] = inr vMap -> well_bound allOpts vMap.
Proof.
  unfold Store.store.
  destruct (Store.store_options env allOpts [] parsed) as [e|m] eqn:E;
    cbn [Store.and_then]; [discriminate |].
  intros H. apply inr_injective in H. subst vMap.
  apply defaults_keep_bound.
  apply (store_options_keep_bound env allOpts parsed [] m E).
  split; constructor.
Qed.

Lemma parse_and_store_keeps_bound (env : Env) (argv : list string)
      (vMap : variables_map) :
  parse_and_store env argv = inr vMap -> well_bound allOpts vMap.
Proof.
  unfold parse_and_store.
  destruct (command_line_parser env allOpts positionalOpts argv) as [e|parsed];
    cbn [Store.and_then]; [discriminate |].
  apply store_keeps_bound.
Qed.

(** Each assignment of the table writes the variable of its own option and
    leaves the variables of the other options alone; the one option without a
    value is "help". *)
Lemma assignments_are_framed :
  Forall
    (fun d =>
       match semantic d with
       | untyped_value => long_name d = "help"
       | typed T tv =>
           forall x vars,
             bound_variable (long_name d) (store_to tv x vars)
             = Some (any_typed T x) /\
             forall k, k <> long_name d ->
                       bound_variable k (store_to tv x vars)
                       = bound_variable k vars
       end)
    allOpts.
Proof.
  unfold allOpts, generalOpts, paramsOpts. cbn [app].
  repeat (apply Forall_cons;
          [cbn [semantic opt long_name value with_default with_implicit
                with_multitoken with_required store_to];
           first
             [ reflexivity
             | intros x vars; (split; [reflexivity |]);
               intros k Hk; unfold bound_variable;
               repeat match goal with
                      | |- context [String.eqb k ?s] =>
                          destruct (String.eqb_spec k s) as [E|_];
                          [first [exfalso; exact (Hk E) | reflexivity] |]
                      end;
               reflexivity ] |]).
  apply Forall_nil.
Qed.

Lemma notifier_is_framed (kv : string * variable_value) (k : string)
      (vars : Vars) :
  entry_bound allOpts kv -> k <> fst kv ->
  bound_variable k (notifier (snd kv) vars) = bound_variable k vars.
Proof.
  unfold entry_bound. intros Hb Hne.
  destruct (find_option allOpts (fst kv)) as [d|] eqn:Ed; [| destruct Hb].
  destruct (find_option_name allOpts (fst kv) d Ed) as [Hname Hin].
  pose proof (proj1 (Forall_forall _ _) assignments_are_framed d Hin) as Hd.
  cbv beta in Hd. revert Hb Hd.
  destruct (semantic d) as [|T tv]; intros Hb Hd.
  - now rewrite Hb.
  - destruct Hb as [x [_ ->]]. apply (Hd x vars). congruence.
Qed.

Lemma notifier_assigns (kv : string * variable_value) (vars : Vars) :
  entry_bound allOpts kv -> fst kv <> "help" ->
  bound_variable (fst kv) (notifier (snd kv) vars) = Some (held (snd kv)).
Proof.
  unfold entry_bound. intros Hb Hne.
  destruct (find_option allOpts (fst kv)) as [d|] eqn:Ed; [| destruct Hb].
  destruct (find_option_name allOpts (fst kv) d Ed) as [Hname Hin].
  pose proof (proj1 (Forall_forall _ _) assignments_are_framed d Hin) as Hd.
  cbv beta in Hd. revert Hb Hd.
  destruct (semantic d) as [|T tv]; intros Hb Hd.
  - congruence.
  - destruct Hb as [x [-> ->]]. rewrite <- Hname. apply (Hd x vars).
Qed.

(** Running the notifiers of a map in step with the table leaves each
    option's variable at the value the map holds for it, and the variables of
    the options that are not in the map as they were. *)
Lemma notifiers_assign (m : variables_map) :
  well_bound allOpts m ->
  forall (vars0 : Vars) (k : string),
    match find m k with
    | Some v =>
        k <> "help" ->
        bound_variable k (fold_left (fun v kv => notifier (snd kv) v) m vars0)
        = Some (held v)
    | None =>
        bound_variable k (fold_left (fun v kv => notifier (snd kv) v) m vars0)
        = bound_variable k vars0
    end.
Proof.
  induction m as [|[k0 v0] m IH]; intros [Hall Hnd] vars0 k.
  - reflexivity.
  - inversion Hall as [|x xs Hb Hall']; subst.
    cbn [map fst] in Hnd. inversion Hnd as [|y ys Hout Hnd']; subst.
    cbn [find fold_left snd].
    specialize (IH (conj Hall' Hnd') (notifier v0 vars0) k).
    destruct (String.eqb_spec k0 k) as [->|Hne].
    + rewrite (find_absent m k Hout) in IH. intros Hhelp.
      rewrite IH. exact (notifier_assigns (k, v0) vars0 Hb Hhelp).
    + assert (Hframe : bound_variable k (notifier v0 vars0)
                       = bound_variable k vars0).
      { apply (notifier_is_framed (k0, v0) k vars0 Hb). cbn. congruence. }
      destruct (find m k); [exact IH | now rewrite IH].
Qed.

End Notification.

(** ** What the command line leaves in the variables *)

Section CommandLineFacts.

Variable env : Env.

Lemma store_after_parse (argv : list string) (parsed : list basic_option)
      (vMap : variables_map) :
  command_line_parser env allOpts positionalOpts argv = inr parsed ->
  parse_and_store env argv = inr vMap ->
  exists m,
    Store.store_options env allOpts [] parsed = inr m /\
    vMap = fold_left Store.apply_default allOpts m.
Proof.
  intros Hp. unfold parse_and_store, Store.store. rewrite Hp.
  cbn [Store.and_then].
  destruct (Store.store_options env allOpts [] parsed) as [e|m];
    cbn [Store.and_then]; [discriminate |].
  intros H. apply inr_injective in H. eauto.
Qed.

Lemma missing_required_of_allOpts (m : variables_map) :
  Store.missing_required allOpts m = None <-> count m "inputs" <> 0%nat.
Proof.
  unfold Store.missing_required, allOpts, generalOpts, paramsOpts.
  cbn. destruct (count m "inputs"); cbn; split; congruence.
Qed.

Lemma notify_succeeds (m : variables_map) (vars0 vars : Vars) :
  Store.notify allOpts m vars0 = inr vars ->
  count m "inputs" <> 0%nat /\
  vars = fold_left (fun v kv => notifier (snd kv) v) m vars0.
Proof.
  unfold Store.notify.
  destruct (Store.missing_required allOpts m) as [d|] eqn:E; [discriminate |].
  intros H. apply inr_injective in H. split; [| now symmetry].
  now apply missing_required_of_allOpts.
Qed.

Lemma notify_without_inputs (m : variables_map) (vars0 : Vars) :
  count m "inputs" = 0%nat ->
  Store.notify allOpts m vars0 = inl (po_error required_option "inputs").
Proof.
  intros H. unfold Store.notify, Store.missing_required, allOpts,
    generalOpts, paramsOpts.
  cbn. rewrite H. reflexivity.
Qed.

(** One turn of [po::store] on an "inputs" option appends its tokens. *)
Lemma store_option_inputs (m m' : variables_map) (o : basic_option) :
  string_key o = "inputs" ->
  Store.store_option env allOpts m o = inr m' ->
  exists v,
    find m' "inputs" = Some v /\
    held v = any_typed TStrings
               (Store.as_strings (option_map held (find m "inputs"))
                ++ tokens o)%list.
Proof.
  intros Hk. unfold Store.store_option. rewrite Hk.
  change (String.eqb "inputs" "") with false. cbv iota.
  change (find_option allOpts "inputs")
    with (Some (opt "inputs" (Some "I"%char)
                  (typed TStrings
                     (with_required
                        (with_multitoken (value TStrings Assign.to_inputImages))))
                  "Left and right images")).
  cbn [semantic opt implicit_value value with_required with_multitoken
       Store.validate Store.and_then].
  destruct (tokens o) as [|tok toks]; intros H; apply inr_injective in H;
    subst m'; rewrite find_set_same; eexists; split; reflexivity.
Qed.

Lemma store_options_inputs (parsed : list basic_option) :
  forall m m',
    Store.store_options env allOpts m parsed = inr m' ->
    Store.as_strings (option_map held (find m' "inputs"))
    = (Store.as_strings (option_map held (find m "inputs"))
       ++ tokens_for "inputs" parsed)%list.
Proof.
  induction parsed as [|o rest IH]; intros m m'; cbn [Store.store_options].
  - intros H. apply inr_injective in H. subst. cbn. now rewrite app_nil_r.
  - destruct (Store.store_option env allOpts m o) as [e|m1] eqn:E;
      cbn [Store.and_then]; [discriminate |].
    intros H. rewrite (IH m1 m' H). unfold tokens_for. cbn [flat_map].
    destruct (String.eqb_spec (string_key o) "inputs") as [Hk|Hk].
    + destruct (store_option_inputs m m1 o Hk E) as [v [Hf Hv]].
      rewrite Hf. cbn [option_map]. rewrite Hv. cbn [Store.as_strings].
      now rewrite app_assoc.
    + now rewrite (store_option_keeps_others env allOpts m m1 o "inputs" E Hk).
Qed.

(** One turn of [po::store] on an "output" option: it must be the first,
    with exactly one token, which becomes the value. *)
Lemma store_option_output (m m' : variables_map) (o : basic_option) :
  string_key o = "output" ->
  Store.store_option env allOpts m o = inr m' ->
  find m "output" = None /\
  exists s v,
    tokens o = [s] /\ find m' "output" = Some v /\
    held v = any_typed TString s.
Proof.
  intros Hk. unfold Store.store_option. rewrite Hk.
  change (String.eqb "output" "") with false. cbv iota.
  change (find_option allOpts "output") with (Some output_option).
  cbn [semantic opt output_option implicit_value value with_default
       Store.validate].
  destruct (find m "output") as [old|];
    cbn [option_map Store.check_first_occurrence Store.and_then].
  { destruct (tokens o); discriminate. }
  destruct (tokens o) as [|s [|s' toks]];
    cbn [Store.get_single_string Store.and_then]; try discriminate.
  intros H. apply inr_injective in H. subst m'.
  split; [reflexivity |]. exists s. eexists.
  rewrite find_set_same. repeat split.
Qed.

Lemma stored_output_stays (parsed : list basic_option) :
  forall m m' v,
    Store.store_options env allOpts m parsed = inr m' ->
    find m "output" = Some v -> find m' "output" = Some v.
Proof.
  induction parsed as [|o rest IH]; intros m m' v; cbn [Store.store_options].
  - intros H. apply inr_injective in H. now subst.
  - destruct (Store.store_option env allOpts m o) as [e|m1] eqn:E;
      cbn [Store.and_then]; [discriminate |].
    intros H Hf. apply (IH m1 m' v H).
    destruct (String.eqb_spec (string_key o) "output") as [Hk|Hk].
    + destruct (store_option_output m m1 o Hk E) as [Hnone _]. congruence.
    + now rewrite (store_option_keeps_others env allOpts m m1 o "output" E Hk).
Qed.

Lemma store_options_output (parsed : list basic_option) (s : string) :
  In {| string_key := "output"; tokens := [s] |} parsed ->
  forall m m',
    Store.store_options env allOpts m parsed = inr m' ->
    exists v, find m' "output" = Some v /\ held v = any_typed TString s.
Proof.
  induction parsed as [|o rest IH]; intros Hin m m'; [destruct Hin |].
  cbn [Store.store_options].
  destruct (Store.store_option env allOpts m o) as [e|m1] eqn:E;
    cbn [Store.and_then]; [discriminate |].
  intros H. destruct Hin as [->|Hin].
  - destruct (store_option_output m m1
                {| string_key := "output"; tokens := [s] |} eq_refl E)
      as [_ [s' [v [Ht [Hf Hv]]]]].
    cbn [tokens] in Ht. inversion Ht; subst s'.
    exists v. split; [| exact Hv].
    exact (stored_output_stays rest m1 m' v H Hf).
  - exact (IH Hin m1 m' H).
Qed.

End CommandLineFacts.

(** X10.  After [po::notify] every variable of the option table holds what the
    variables map holds for its option, and the variable of an option that is
    not in the map is as it was before the command line was read (empty for
    the two locals, the value of [setDefaults] for a parameter).  So each
    option reaches the variable it was declared with, and no other. *)
Theorem notify_writes_each_option_to_its_variable :
  forall (env : Env) (argv : list string) (vMap : variables_map) (vars : Vars),
    parse_and_store env argv = inr vMap ->
    Store.notify allOpts vMap initial_vars = inr vars ->
    forall key,
      match find vMap key with
      | Some v => key <> "help" -> bound_variable key vars = Some (held v)
      | None => bound_variable key vars = bound_variable key initial_vars
      end.
Proof.
  intros env argv vMap vars H Hn key.
  destruct (notify_succeeds vMap initial_vars vars Hn) as [_ ->].
  apply notifiers_assign.
  exact (parse_and_store_keeps_bound env argv vMap H).
Qed.

Lemma notify_writes_each_option_to_its_variable_witness :
  bound_variable "window_size"
    (Example.notified Example.plain
       ["spmatch"; "left.png"; "right.png"; "--window_size"; "4"])
  = Some (any_typed TUnsigned 4%Z) /\
  bound_variable "max_d"
    (Example.notified Example.plain
       ["spmatch"; "left.png"; "right.png"; "--window_size"; "4"])
  = Some (any_typed TInt 70%Z).
Proof.
  pose (argv := ["spmatch"; "left.png"; "right.png"; "--window_size"; "4"]).
  assert (Hs : parse_and_store Example.plain argv
               = inr (Example.stored Example.plain argv))
    by (vm_compute; reflexivity).
  assert (Hn : Store.notify allOpts (Example.stored Example.plain argv)
                 initial_vars
               = inr (Example.notified Example.plain argv))
    by (vm_compute; reflexivity).
  pose proof (notify_writes_each_option_to_its_variable
                Example.plain argv _ _ Hs Hn) as Hall.
  subst argv. split.
  - specialize (Hall "window_size").
    destruct (find (Example.stored Example.plain
                      ["spmatch"; "left.png"; "right.png";
                       "--window_size"; "4"]) "window_size")
      as [v|] eqn:Ef; [| vm_compute in Ef; discriminate Ef].
    rewrite Hall by discriminate.
    vm_compute in Ef. injection Ef as <-. reflexivity.
  - specialize (Hall "max_d").
    destruct (find (Example.stored Example.plain
                      ["spmatch"; "left.png"; "right.png";
                       "--window_size"; "4"]) "max_d")
      as [v|] eqn:Ef; [vm_compute in Ef; discriminate Ef |].
    rewrite Hall. reflexivity.
Defined.

Section DriverVariables.

Variable env : Env.

(** The variables after a successful [po::store] and [po::notify]. *)
Lemma notified_variables (argv : list string) (vMap : variables_map)
      (vars : Vars) (key : string) :
  parse_and_store env argv = inr vMap ->
  Store.notify allOpts vMap initial_vars = inr vars ->
  match find vMap key with
  | Some v => key <> "help" -> bound_variable key vars = Some (held v)
  | None => bound_variable key vars = bound_variable key initial_vars
  end.
Proof.
  intros H Hn.
  destruct (notify_succeeds vMap initial_vars vars Hn) as [_ ->].
  apply notifiers_assign.
  exact (parse_and_store_keeps_bound env argv vMap H).
Qed.

Lemma stored_inputs_stay (parsed : list basic_option) :
  forall m m',
    Store.store_options env allOpts m parsed = inr m' ->
    find m "inputs" <> None -> find m' "inputs" <> None.
Proof.
  induction parsed as [|o rest IH]; intros m m'; cbn [Store.store_options].
  - intros H. apply inr_injective in H. now subst.
  - destruct (Store.store_option env allOpts m o) as [e|m1] eqn:E;
      cbn [Store.and_then]; [discriminate |].
    intros H Hne. apply (IH m1 m' H).
    destruct (String.eqb_spec (string_key o) "inputs") as [Hk|Hk].
    + destruct (store_option_inputs env m m1 o Hk E) as [w [Hw _]]. congruence.
    + now rewrite (store_option_keeps_others env allOpts m m1 o "inputs" E Hk).
Qed.

Lemma given_inputs_are_stored (parsed : list basic_option) :
  ~ not_given "inputs" parsed ->
  forall m m',
    Store.store_options env allOpts m parsed = inr m' ->
    find m' "inputs" <> None.
Proof.
  induction parsed as [|o rest IH]; intros Hgiven m m'.
  - exfalso. apply Hgiven. intros o [].
  - cbn [Store.store_options].
    destruct (Store.store_option env allOpts m o) as [e|m1] eqn:E;
      cbn [Store.and_then]; [discriminate |].
    intros H.
    destruct (String.eqb_spec (string_key o) "inputs") as [Hk|Hk].
    + apply (stored_inputs_stay rest m1 m' H).
      destruct (store_option_inputs env m m1 o Hk E) as [w [Hw _]]. congruence.
    + refine (IH _ m1 m' H).
      intros Hng. apply Hgiven. intros o' [<-|Hin]; [exact Hk |].
      exact (Hng o' Hin).
Qed.

End DriverVariables.

(** X11.  The output path [main] passes on is the token of the one [--output]
    option of the command line, and "disparity.png" (line 58) when the command
    line has none. *)
Theorem output_path_is_the_option_or_the_default :
  forall (env : Env) (argv : list string) (parsed : list basic_option)
         (vMap : variables_map) (vars : Vars),
    command_line_parser env allOpts positionalOpts argv = inr parsed ->
    parse_and_store env argv = inr vMap ->
    Store.notify allOpts vMap initial_vars = inr vars ->
    (not_given "output" parsed -> outputPath vars = "disparity.png") /\
    (forall s, In {| string_key := "output"; tokens := [s] |} parsed ->
               outputPath vars = s).
Proof.
  intros env argv parsed vMap vars Hp H Hn.
  destruct (store_after_parse env argv parsed vMap Hp H) as [m [Hm HvMap]].
  pose proof (notified_variables env argv vMap vars "output" H Hn) as Hout.
  assert (Hread : forall v s,
             find vMap "output" = Some v -> held v = any_typed TString s ->
             outputPath vars = s).
  { intros v s Hf Hv. rewrite Hf in Hout.
    specialize (Hout ltac:(discriminate)).
    apply (f_equal held_string) in Hout. rewrite Hv in Hout.
    cbn in Hout. now injection Hout. }
  rewrite defaults_of_allOpts in HvMap. split.
  - intros Hng.
    rewrite (store_options_keep_others env allOpts parsed "output" Hng [] m Hm)
      in HvMap.
    cbn [find] in HvMap.
    apply (Hread default_output "disparity.png"); [| reflexivity].
    subst vMap. apply find_set_same.
  - intros s Hin.
    destruct (store_options_output env parsed s Hin [] m Hm) as [v [Hf Hv]].
    rewrite Hf in HvMap. subst vMap. exact (Hread v s Hf Hv).
Qed.

Lemma output_path_is_the_option_or_the_default_witness :
  outputPath (Example.notified Example.plain
                ["spmatch"; "left.png"; "right.png"]) = "disparity.png" /\
  outputPath (Example.notified Example.plain
                ["spmatch"; "left.png"; "right.png"; "--output"; "o/d.png"])
  = "o/d.png".
Proof.
  split.
  - refine (proj1 (output_path_is_the_option_or_the_default
                     Example.plain ["spmatch"; "left.png"; "right.png"]
                     [ {| string_key := "inputs"; tokens := ["left.png"] |};
                       {| string_key := "inputs"; tokens := ["right.png"] |} ]
                     (Example.stored Example.plain
                        ["spmatch"; "left.png"; "right.png"])
                     _ _ _ _) _).
    + vm_compute. reflexivity.
    + vm_compute. reflexivity.
    + vm_compute. reflexivity.
    + intros o [<-|[<-|[]]]; discriminate.
  - refine (proj2 (output_path_is_the_option_or_the_default
                     Example.plain
                     ["spmatch"; "left.png"; "right.png"; "--output"; "o/d.png"]
                     [ {| string_key := "inputs"; tokens := ["left.png"] |};
                       {| string_key := "inputs"; tokens := ["right.png"] |};
                       {| string_key := "output"; tokens := ["o/d.png"] |} ]
                     (Example.stored Example.plain
                        ["spmatch"; "left.png"; "right.png";
                         "--output"; "o/d.png"])
                     _ _ _ _) "o/d.png" _).
    + vm_compute. reflexivity.
    + vm_compute. reflexivity.
    + vm_compute. reflexivity.
    + cbn. tauto.
Defined.

(** X12.  The images [main] works on are the tokens given to "inputs",
    positional or not, in the order of the command line.  So, when help is not
    asked for, a command line with no "inputs" option ends on the
    [required_option] error of [po::notify], and one whose "inputs" tokens are
    not two in number on "Need two images"; nothing is printed, read or
    written in either case. *)
Theorem input_images_are_the_inputs_tokens :
  forall (env : Env) (argv : list string) (parsed : list basic_option)
         (vMap : variables_map),
    command_line_parser env allOpts positionalOpts argv = inr parsed ->
    parse_and_store env argv = inr vMap ->
    (forall vars,
        Store.notify allOpts vMap initial_vars = inr vars ->
        inputImages vars = tokens_for "inputs" parsed) /\
    (count vMap "help" = 0%nat ->
     not_given "inputs" parsed ->
     main env argv = ([], Terminated (po_error required_option "inputs"))) /\
    (count vMap "help" = 0%nat ->
     ~ not_given "inputs" parsed ->
     List.length (tokens_for "inputs" parsed) <> 2%nat ->
     main env argv = ([], Terminated (runtime_error "Need two images"))).
Proof.
  intros env argv parsed vMap Hp H.
  destruct (store_after_parse env argv parsed vMap Hp H) as [m [Hm HvMap]].
  assert (Hfind : find vMap "inputs" = find m "inputs").
  { subst vMap. apply defaults_keep_others. discriminate. }
  pose proof (store_options_inputs env parsed [] m Hm) as Htok.
  cbn [find option_map Store.as_strings app] in Htok.
  assert (Himages : forall vars,
             Store.notify allOpts vMap initial_vars = inr vars ->
             inputImages vars = tokens_for "inputs" parsed).
  { intros vars Hn.
    destruct (notify_succeeds vMap initial_vars vars Hn) as [Hcount _].
    pose proof (notified_variables env argv vMap vars "inputs" H Hn) as Hin.
    unfold count in Hcount.
    destruct (find vMap "inputs") as [v|] eqn:Ef; [| congruence].
    specialize (Hin ltac:(discriminate)).
    apply (f_equal (fun a => Store.as_strings a)) in Hin.
    cbn in Hin.
    rewrite Hin, <- Htok, <- Hfind. reflexivity. }
  split; [exact Himages |]. split.
  - intros Hh Hng. apply (main_notify_error env argv vMap _ H Hh).
    apply notify_without_inputs. unfold count. rewrite Hfind.
    now rewrite (store_options_keep_others env allOpts parsed "inputs"
                   Hng [] m Hm).
  - intros Hh Hgiven Hlen.
    assert (Hcount : count vMap "inputs" <> 0%nat).
    { unfold count. rewrite Hfind.
      pose proof (given_inputs_are_stored env parsed Hgiven [] m Hm) as Hne.
      destruct (find m "inputs"); [discriminate | congruence]. }
    pose proof (proj2 (missing_required_of_allOpts vMap) Hcount) as Hnone.
    assert (Hn : Store.notify allOpts vMap initial_vars
                 = inr (fold_left (fun v kv => notifier (snd kv) v)
                          vMap initial_vars)).
    { unfold Store.notify. now rewrite Hnone. }
    apply (main_wrong_count env argv vMap _ H Hh Hn).
    now rewrite (Himages _ Hn).
Qed.

Lemma input_images_are_the_inputs_tokens_witness :
  inputImages (Example.notified Example.plain
                 ["spmatch"; "left.png"; "right.png"])
  = ["left.png"; "right.png"] /\
  main Example.plain ["spmatch"]
  = ([], Terminated (po_error required_option "inputs")) /\
  main Example.plain ["spmatch"; "one.png"]
  = ([], Terminated (runtime_error "Need two images")).
Proof.
  split; [| split].
  - refine (proj1 (input_images_are_the_inputs_tokens
                     Example.plain ["spmatch"; "left.png"; "right.png"]
                     [ {| string_key := "inputs"; tokens := ["left.png"] |};
                       {| string_key := "inputs"; tokens := ["right.png"] |} ]
                     (Example.stored Example.plain
                        ["spmatch"; "left.png"; "right.png"])
                     _ _) _ _).
    + vm_compute. reflexivity.
    + vm_compute. reflexivity.
    + vm_compute. reflexivity.
  - refine (proj1 (proj2 (input_images_are_the_inputs_tokens
                            Example.plain ["spmatch"] []
                            (Example.stored Example.plain ["spmatch"])
                            _ _)) _ _).
    + vm_compute. reflexivity.
    + vm_compute. reflexivity.
    + vm_compute. reflexivity.
    + intros o [].
  - refine (proj2 (proj2 (input_images_are_the_inputs_tokens
                            Example.plain ["spmatch"; "one.png"]
                            [ {| string_key := "inputs";
                                 tokens := ["one.png"] |} ]
                            (Example.stored Example.plain
                               ["spmatch"; "one.png"])
                            _ _)) _ _ _).
    + vm_compute. reflexivity.
    + vm_compute. reflexivity.
    + vm_compute. reflexivity.
    + intros Hng. exact (Hng _ (or_introl eq_refl) eq_refl).
    + vm_compute. discriminate.
Defined.

Section CsvReadBack.

Lemma to_uint_not_Nil (n : nat) : Nat.to_uint n <> Decimal.Nil.
Proof.
  rewrite <- (DecimalNat.Unsigned.of_to n) at 1.
  rewrite DecimalNat.Unsigned.to_of. apply DecimalFacts.unorm_nonnil.
Qed.

Lemma read_size_t_format (n : nat) : read_size_t (format_size_t n) = Some n.
Proof.
  unfold read_size_t, format_size_t.
  rewrite (NilZero.usu _ (to_uint_not_Nil n)). cbn [option_map].
  now rewrite DecimalNat.Unsigned.of_to.
Qed.

Lemma leading_digits_of_uint (d : Decimal.uint) (rest : string) :
  leading_digits (NilEmpty.string_of_uint d ++ String ","%char rest)
  = (NilEmpty.string_of_uint d, String ","%char rest).
Proof.
  induction d; cbn [NilEmpty.string_of_uint append leading_digits];
    [reflexivity | ..];
    (change (is_digit _) with true; cbv iota; now rewrite IHd).
Qed.

Lemma leading_digits_format (n : nat) (rest : string) :
  leading_digits (format_size_t n ++ String ","%char rest)
  = (format_size_t n, String ","%char rest).
Proof.
  unfold format_size_t, NilZero.string_of_uint.
  pose proof (to_uint_not_Nil n) as Hn.
  destruct (Nat.to_uint n) eqn:E; try contradiction;
    rewrite <- E; apply leading_digits_of_uint.
Qed.

Lemma read_csv_line_csv_line (env : Env) (w h : nat) (d : float) :
  read_csv_line (csv_line env w h d)
  = Some (w, h, format_double env 8 d ++ newline).
Proof.
  unfold csv_line, read_csv_line.
  change (format_size_t w ++ ", " ++ format_size_t h ++ ", " ++
          format_double env 8 d ++ newline)
    with (format_size_t w ++
          String ","%char
            (String " "%char
               (format_size_t h ++
                String ","%char
                  (String " "%char (format_double env 8 d ++ newline))))).
  rewrite leading_digits_format, leading_digits_format.
  now rewrite !read_size_t_format.
Qed.

Lemma csv_rows_In (env : Env) (W H : nat) (f : nat -> nat -> float)
      (line : string) :
  In line (csv_rows env W H f) <->
  exists w h, w < W /\ h < H /\ line = csv_line env w h (f w h).
Proof.
  unfold csv_rows. rewrite in_flat_map. split.
  - intros [w [Hw Hin]]. apply in_map_iff in Hin.
    destruct Hin as [h [<- Hh]]. apply in_seq in Hw. apply in_seq in Hh.
    exists w, h. repeat split; lia.
  - intros [w [h [Hw [Hh ->]]]]. exists w. split; [apply in_seq; lia |].
    apply in_map_iff. exists h. split; [reflexivity | apply in_seq; lia].
Qed.

Lemma NoDup_flat_map {A B : Type} (g : A -> list B) (l : list A) :
  NoDup l ->
  (forall a, In a l -> NoDup (g a)) ->
  (forall a a' b, In a l -> In a' l -> In b (g a) -> In b (g a') -> a = a') ->
  NoDup (flat_map g l).
Proof.
  induction l as [|a l IH]; intros Hnd Hg Hsep; cbn [flat_map].
  - constructor.
  - inversion Hnd as [|x xs Hout Hnd']; subst.
    assert (Hrest : NoDup (flat_map g l)).
    { apply IH; [assumption | intros; apply Hg; now right |].
      intros a1 a2 b H1 H2. apply Hsep; now right. }
    clear IH. revert Hrest.
    assert (Hga : NoDup (g a)) by (apply Hg; now left).
    assert (Hdisj : forall b, In b (g a) -> ~ In b (flat_map g l)).
    { intros b Hb Hin. apply in_flat_map in Hin. destruct Hin as [a' [Ha' Hb']].
      apply Hout. rewrite (Hsep a a' b); auto; [now left | now right]. }
    induction (g a) as [|b bs IHb]; intros Hrest; [exact Hrest |].
    cbn [app]. inversion Hga; subst. constructor.
    + rewrite in_app_iff. intros [Hin|Hin]; [contradiction |].
      exact (Hdisj b (or_introl eq_refl) Hin).
    + apply IHb; [assumption | | assumption].
      intros b' Hb'. apply Hdisj. now right.
Qed.

End CsvReadBack.

(** X13.  Each line of a CSV file can be read back: the digits before the
    first ", " are the pixel's [w], those before the second its [h], and the
    rest of the line is the disparity at precision 8 with its line feed.  So
    the lines of a file name their pixels without ambiguity: every line reads
    back as a pixel of the map, and no line occurs twice, whatever the
    disparities are and however [operator<<] prints a double. *)
Theorem csv_lines_name_their_pixels :
  forall (env : Env) (W H : nat) (f : nat -> nat -> float),
    (forall line,
        In line (csv_rows env W H f) ->
        exists w h,
          w < W /\ h < H /\
          read_csv_line line
          = Some (w, h, format_double env 8 (f w h) ++ newline)) /\
    NoDup (csv_rows env W H f).
Proof.
  intros env W H f. split.
  - intros line Hin. apply csv_rows_In in Hin.
    destruct Hin as [w [h [Hw [Hh ->]]]]. exists w, h.
    repeat split; try assumption. apply read_csv_line_csv_line.
  - assert (Hinj : forall w h w' h',
               csv_line env w h (f w h) = csv_line env w' h' (f w' h') ->
               w = w' /\ h = h').
    { intros w h w' h' E. apply (f_equal read_csv_line) in E.
      rewrite !read_csv_line_csv_line in E. inversion E. now split. }
    unfold csv_rows. apply NoDup_flat_map.
    + apply seq_NoDup.
    + intros w _. apply Finite.Injective_map_NoDup; [| apply seq_NoDup].
      intros h h' E. exact (proj2 (Hinj _ _ _ _ E)).
    + intros w w' line _ _ Hin Hin'.
      apply in_map_iff in Hin. destruct Hin as [h [<- _]].
      apply in_map_iff in Hin'. destruct Hin' as [h' [E _]].
      symmetry in E. exact (proj1 (Hinj _ _ _ _ E)).
Qed.

(** * Invalid parameters *)

Section InvalidParameters.

Variable env : Env.
Variable invalid : exn.
Variable compute : disparity_core.

Hypothesis core_validates :
  computeDisparity env = validating_core invalid compute.







End InvalidParameters.



(** * Help *)

Section HelpFacts.

Variable env : Env.
Variable desc : list option_description.

Lemma stored_option_stays (k : string) (m m' : variables_map)
      (o : basic_option) :
  find m k <> None ->
  Store.store_option env desc m o = inr m' ->
  find m' k <> None.
Proof.
  intros Hk H.
  destruct (store_option_sets env desc m m' o H) as [[_ ->]|[_ [v [-> _]]]];
    [exact Hk |].
  destruct (String.eqb_spec (string_key o) k) as [->|Hne].
  - rewrite find_set_same. discriminate.
  - now rewrite find_set_other.
Qed.

Lemma stored_options_stay (k : string) (parsed : list basic_option) :
  forall m m',
    find m k <> None ->
    Store.store_options env desc m parsed = inr m' ->
    find m' k <> None.
Proof.
  induction parsed as [|o rest IH]; intros m m' Hk; cbn [Store.store_options].
  - intros H. apply inr_injective in H. now subst.
  - destruct (Store.store_option env desc m o) as [e|m1] eqn:E;
      cbn [Store.and_then]; [discriminate |].
    intros H. exact (IH m1 m' (stored_option_stays k m m1 o Hk E) H).
Qed.

(** An option the parser found is in the map when [po::store] succeeds. *)
Lemma given_option_is_stored (k : string) (parsed : list basic_option) :
  k <> "" ->
  (exists o, In o parsed /\ string_key o = k) ->
  forall m m',
    Store.store_options env desc m parsed = inr m' ->
    find m' k <> None.
Proof.
  intros Hk. induction parsed as [|o rest IH]; intros [o' [Hin Ho']] m m'.
  - destruct Hin.
  - cbn [Store.store_options].
    destruct (Store.store_option env desc m o) as [e|m1] eqn:E;
      cbn [Store.and_then]; [discriminate |].
    intros H. destruct Hin as [->|Hin].
    + apply (stored_options_stay k rest m1 m'); [| exact H].
      destruct (store_option_sets env desc m m1 o' E)
        as [[Hempty _]|[_ [v [-> _]]]]; [congruence |].
      rewrite Ho', find_set_same. discriminate.
    + apply (IH (ex_intro _ o' (conj Hin Ho')) m1 m' H).
Qed.

End HelpFacts.

(** The text [main] prints for help is the options' text under the caption
    of lines 98-102, followed by the line feed of [std::endl]. *)
Lemma help_text_lines (env : Env) :
  help_text env
  = options_text env (terminated usage_lines) allOpts
    ++ String line_feed EmptyString.
Proof. reflexivity. Qed.

(** C10, as stated, fails: [spmatch --help --out_of_bounds white] has
    "--help" among its arguments and the parser reads the help option, but
    [operator>>] throws on the token "white" while [po::store] runs, before
    line 110 tests for help; nothing is printed and the run does not return. *)
Lemma help_after_a_bad_value_is_not_shown :
  command_line_parser Example.plain allOpts positionalOpts
    ["spmatch"; "--help"; "--out_of_bounds"; "white"]
  = inr [ {| string_key := "help"; tokens := [] |};
          {| string_key := "out_of_bounds"; tokens := ["white"] |} ] /\
  main Example.plain ["spmatch"; "--help"; "--out_of_bounds"; "white"]
  = ([], Terminated (runtime_error "Invalid OutOfBounds selection")) /\
  ~ help_is_shown_whenever_asked
      Example.plain ["spmatch"; "--help"; "--out_of_bounds"; "white"].
Proof.
  assert (Hrun : main Example.plain
                   ["spmatch"; "--help"; "--out_of_bounds"; "white"]
                 = ([], Terminated
                          (runtime_error "Invalid OutOfBounds selection")))
    by (vm_compute; reflexivity).
  split; [vm_compute; reflexivity |]. split; [exact Hrun |].
  intros H. destruct H as [text Htext]; [cbn; tauto |].
  rewrite Hrun in Htext. discriminate Htext.
Qed.

(** C10, amended.  When the parser finds the help option and [po::store]
    accepts the command line, [main] prints the usage text (the caption of
    lines 98-102 and the options, [help] to [const_disparities], followed by a
    line feed) and returns 1.  That is before [po::notify]: with no "inputs"
    option on the command line, [po::notify] would throw [required_option],
    and the help is shown all the same.  When [po::store] throws, nothing is
    printed and the exception ends the run. *)
Theorem help_is_shown_once_the_command_line_is_stored :
  forall (env : Env) (argv : list string) (parsed : list basic_option),
    command_line_parser env allOpts positionalOpts argv = inr parsed ->
    (exists o, In o parsed /\ string_key o = "help") ->
    (forall vMap,
        parse_and_store env argv = inr vMap ->
        main env argv
        = ([EvStdout (options_text env (terminated usage_lines) allOpts
                      ++ String line_feed EmptyString)],
           Returned 1) /\
        (not_given "inputs" parsed ->
         Store.notify allOpts vMap initial_vars
         = inl (po_error required_option "inputs"))) /\
    (forall e,
        parse_and_store env argv = inl e ->
        main env argv = ([], Terminated e)) /\
    map long_name allOpts = option_names.
Proof.
  intros env argv parsed Hp Hhelp.
  split; [| split; [| reflexivity]].
  - intros vMap H.
    destruct (store_after_parse env argv parsed vMap Hp H) as [m [Hm HvMap]].
    split.
    + rewrite <- help_text_lines. apply (main_help env argv vMap H).
      unfold count. subst vMap.
      rewrite defaults_keep_others by discriminate.
      pose proof (given_option_is_stored env allOpts "help" parsed
                    ltac:(discriminate) Hhelp [] m Hm) as Hfound.
      destruct (find m "help"); [discriminate | congruence].
    + intros Hng. apply notify_without_inputs.
      unfold count. subst vMap.
      rewrite defaults_keep_others by discriminate.
      now rewrite (store_options_keep_others env allOpts parsed "inputs"
                     Hng [] m Hm).
  - intros e He. exact (main_parse_error env argv e He).
Qed.

(** [spmatch --help] names no input. *)
Lemma help_is_shown_once_the_command_line_is_stored_witness :
  main Example.plain ["spmatch"; "--help"]
  = ([EvStdout (options_text Example.plain (terminated usage_lines) allOpts
                ++ String line_feed EmptyString)],
     Returned 1) /\
  Store.notify allOpts (Example.stored Example.plain ["spmatch"; "--help"])
    initial_vars
  = inl (po_error required_option "inputs").
Proof.
  destruct (proj1 (help_is_shown_once_the_command_line_is_stored
                     Example.plain ["spmatch"; "--help"]
                     [ {| string_key := "help"; tokens := [] |} ]
                     eq_refl
                     (ex_intro _ {| string_key := "help"; tokens := [] |}
                        (conj (or_introl eq_refl) eq_refl)))
              (Example.stored Example.plain ["spmatch"; "--help"]))
    as [Hrun Hnotify].
  - vm_compute. reflexivity.
  - split; [exact Hrun |]. apply Hnotify. intros o [<-|[]]. discriminate.
Defined.

(** * The CSV files after a run *)

Section Lines.

Lemma in_append (c : ascii) (a b : string) :
  In c (list_ascii_of_string (a ++ b)) ->
  In c (list_ascii_of_string a) \/ In c (list_ascii_of_string b).
Proof.
  induction a as [|x a IH]; cbn; [now right |].
  intros [H|H]; [now left; left |].
  destruct (IH H); [left; now right | now right].
Qed.

Lemma lines_line (l rest : string) :
  ~ In line_feed (list_ascii_of_string l) ->
  lines (l ++ String line_feed rest) = l :: lines rest.
Proof.
  induction l as [|c l IH]; intros Hfree.
  - reflexivity.
  - cbn [append lines].
    destruct (Ascii.eqb_spec c line_feed) as [->|_].
    + exfalso. apply Hfree. now left.
    + rewrite IH; [reflexivity |].
      intros Hin. apply Hfree. now right.
Qed.

Lemma lines_terminated (ls : list string) :
  Forall (fun l => ~ In line_feed (list_ascii_of_string l)) ls ->
  lines (terminated ls) = ls.
Proof.
  unfold terminated.
  induction 1 as [|l ls Hl _ IH]; [reflexivity |].
  cbn [map join fold_right].
  change (fold_right append "" ?x) with (join x).
  rewrite append_associative. cbn [append].
  now rewrite (lines_line l _ Hl), IH.
Qed.

Lemma digits_have_no_line_feed (d : Decimal.uint) :
  ~ In line_feed (list_ascii_of_string (NilEmpty.string_of_uint d)).
Proof.
  induction d; cbn; [tauto | ..];
    (intros [H|H]; [discriminate H | exact (IHd H)]).
Qed.

Lemma format_size_t_has_no_line_feed (n : nat) :
  ~ In line_feed (list_ascii_of_string (format_size_t n)).
Proof.
  unfold format_size_t, NilZero.string_of_uint.
  destruct (Nat.to_uint n) eqn:E; try (rewrite <- E);
    try apply digits_have_no_line_feed.
  cbn. intros [H|[]]. discriminate H.
Qed.

Lemma pixel_line_has_no_line_feed (env : Env) (w h : nat) (d : float) :
  ~ In line_feed (list_ascii_of_string (format_double env 8 d)) ->
  ~ In line_feed (list_ascii_of_string (pixel_line env w h d)).
Proof.
  intros Hd Hin. unfold pixel_line in Hin.
  apply in_append in Hin. destruct Hin as [Hin|Hin];
    [exact (format_size_t_has_no_line_feed w Hin) |].
  apply in_append in Hin. destruct Hin as [Hin|Hin].
  { cbn in Hin. destruct Hin as [H|[H|[]]]; discriminate H. }
  apply in_append in Hin. destruct Hin as [Hin|Hin];
    [exact (format_size_t_has_no_line_feed h Hin) |].
  apply in_append in Hin. destruct Hin as [Hin|Hin]; [| exact (Hd Hin)].
  cbn in Hin. destruct Hin as [H|[H|[]]]; discriminate H.
Qed.

Lemma pixel_lines_have_no_line_feed
      (env : Env) (W H : nat) (f : nat -> nat -> float) :
  (forall d, ~ In line_feed (list_ascii_of_string (format_double env 8 d))) ->
  Forall (fun l => ~ In line_feed (list_ascii_of_string l))
         (pixel_lines env W H f).
Proof.
  intros Hd. apply Forall_forall. intros l Hin.
  unfold pixel_lines in Hin. apply in_flat_map in Hin.
  destruct Hin as [w [_ Hin]]. apply in_map_iff in Hin.
  destruct Hin as [h [<- _]]. apply pixel_line_has_no_line_feed, Hd.
Qed.

(** What the loops send is the line of each pixel and a line feed. *)
Lemma csv_line_pixel_line (env : Env) (w h : nat) (d : float) :
  csv_line env w h d = pixel_line env w h d ++ String line_feed EmptyString.
Proof.
  unfold csv_line, pixel_line, newline, line_feed.
  now rewrite !append_associative.
Qed.

Lemma csv_rows_terminated (env : Env) (W H : nat) (f : nat -> nat -> float) :
  join (csv_rows env W H f) = terminated (pixel_lines env W H f).
Proof.
  unfold csv_rows, pixel_lines, terminated.
  induction (seq 0 W) as [|w ws IH]; [reflexivity |].
  cbn [flat_map]. rewrite map_app, !join_app, IH. f_equal.
  rewrite map_map. f_equal. apply map_ext. intros h.
  apply csv_line_pixel_line.
Qed.

End Lines.

Section FilesAfter.

Variable env : Env.

(** A run that returns 0 went through [writeDisparityMap]. *)
Lemma main_returns_zero (argv : list string) :
  snd (main env argv) = Returned 0 ->
  exists vMap vars l r t,
    parse_and_store env argv = inr vMap /\
    Store.notify allOpts vMap initial_vars = inr vars /\
    inputImages vars = [l; r] /\
    writeDisparityMap env (params vars) l r (outputPath vars) = (t, inr tt) /\
    fst (main env argv) = ([EvOpenInput l; EvOpenInput r] ++ t)%list.
Proof.
  destruct (parse_and_store env argv) as [e|vMap] eqn:H.
  { rewrite (main_parse_error env argv e H). discriminate. }
  destruct (Nat.eq_dec (count vMap "help") 0) as [Hh|Hh].
  2:{ rewrite (main_help env argv vMap H Hh). discriminate. }
  destruct (Store.notify allOpts vMap initial_vars) as [e|vars] eqn:Hn.
  { rewrite (main_notify_error env argv vMap e H Hh Hn). discriminate. }
  destruct (inputImages vars) as [|l [|r [|x rest]]] eqn:Hi;
    try (rewrite (main_wrong_count env argv vMap vars H Hh Hn);
         [discriminate | rewrite Hi; cbn; lia]).
  destruct (ifstream_good env l) eqn:El.
  - destruct (ifstream_good env r) eqn:Er.
    + rewrite (main_enters_writeDisparityMap env argv vMap vars l r
                 H Hh Hn Hi El Er).
      cbv zeta. cbn [fst snd].
      destruct (writeDisparityMap env (params vars) l r (outputPath vars))
        as [t [e|[]]] eqn:Ew; cbn [fst snd]; [discriminate |].
      intros _. exists vMap, vars, l, r, t.
      repeat (split; [assumption || reflexivity |]). reflexivity.
    + rewrite (main_missing_input env argv vMap vars l r H Hh Hn Hi
                 (or_intror Er)), El.
      discriminate.
  - rewrite (main_missing_input env argv vMap vars l r H Hh Hn Hi
               (or_introl El)), El.
    discriminate.
Qed.

(** What the two text paths hold after a run that returned: the last
    write to a path is what stays. *)
Lemma left_text_stays (p : Params) (l r tL tR cL cR : string)
      (iL iR : Image) :
  ofstream_good env tL = true ->
  tR <> tL -> imgPath iL <> tL -> imgPath iR <> tL ->
  file_after
    ([EvOpenInput l; EvOpenInput r]
     ++ [EvLoadImage l; EvLoadImage r; EvComputeDisparity p]
     ++ text_events env tL cL ++ text_events env tR cR
     ++ [EvWriteImage iL; EvWriteImage iR])%list tL
  = Some (TextFile cL).
Proof.
  intros Hgood HtR HiL HiR. unfold text_events. rewrite Hgood.
  apply String.eqb_neq in HtR, HiL, HiR.
  destruct (ofstream_good env tR);
    cbn [app file_after fold_left written_by];
    now rewrite String.eqb_refl, ?HtR, HiL, HiR.
Qed.

Lemma right_text_stays (p : Params) (l r tL tR cL cR : string)
      (iL iR : Image) :
  ofstream_good env tR = true ->
  imgPath iL <> tR -> imgPath iR <> tR ->
  file_after
    ([EvOpenInput l; EvOpenInput r]
     ++ [EvLoadImage l; EvLoadImage r; EvComputeDisparity p]
     ++ text_events env tL cL ++ text_events env tR cR
     ++ [EvWriteImage iL; EvWriteImage iR])%list tR
  = Some (TextFile cR).
Proof.
  intros Hgood HiL HiR. unfold text_events. rewrite Hgood.
  apply String.eqb_neq in HiL, HiR.
  destruct (ofstream_good env tL);
    cbn [app file_after fold_left written_by];
    destruct (String.eqb tL tR);
    now rewrite String.eqb_refl, HiL, HiR.
Qed.

End FilesAfter.

(** C4, as stated, fails, in two ways.  Where "disparityL.csv" and
    "disparityR.csv" cannot be opened for writing, [spmatch left.png
    right.png] completes with 0 and leaves no text file: the streams of lines
    222-223 are never tested.  And [spmatch left.png right.png --output
    out/d.csv] completes with 0 and leaves the left image, not the lines, at
    "out/dL.csv": the image of line 240 is written to the path of the text
    file. *)
Lemma completed_runs_without_their_csv_files :
  (snd (main Example.csv_locked ["spmatch"; "left.png"; "right.png"])
   = Returned 0 /\
   file_after
     (fst (main Example.csv_locked ["spmatch"; "left.png"; "right.png"]))
     "disparityL.csv" = None /\
   ~ completed_runs_leave_both_csv_files
       Example.csv_locked ["spmatch"; "left.png"; "right.png"]) /\
  (snd (main Example.plain
          ["spmatch"; "left.png"; "right.png"; "--output"; "out/d.csv"])
   = Returned 0 /\
   file_after
     (fst (main Example.plain
             ["spmatch"; "left.png"; "right.png"; "--output"; "out/d.csv"]))
     "out/dL.csv"
   = Some (ImageFile (setPath (Example.ramp "" 3) "out/dL.csv")) /\
   ~ completed_runs_leave_both_csv_files
       Example.plain
       ["spmatch"; "left.png"; "right.png"; "--output"; "out/d.csv"]).
Proof.
  split.
  - assert (Hexit : snd (main Example.csv_locked
                           ["spmatch"; "left.png"; "right.png"])
                    = Returned 0) by (vm_compute; reflexivity).
    assert (Hfile : file_after
                      (fst (main Example.csv_locked
                              ["spmatch"; "left.png"; "right.png"]))
                      "disparityL.csv" = None) by (vm_compute; reflexivity).
    split; [exact Hexit |]. split; [exact Hfile |].
    intros H.
    destruct (H Hexit
                (Example.stored Example.csv_locked
                   ["spmatch"; "left.png"; "right.png"])
                (Example.notified Example.csv_locked
                   ["spmatch"; "left.png"; "right.png"])
                "left.png" "right.png"
                (Example.ramp "left.png" 0) (Example.ramp "right.png" 0)
                (Example.ramp "" 3) (Example.ramp "" 7)
                "disparityL.csv" "disparityR.csv") as [HL _];
      try (vm_compute; reflexivity).
    rewrite Hfile in HL. discriminate HL.
  - assert (Hexit : snd (main Example.plain
                           ["spmatch"; "left.png"; "right.png";
                            "--output"; "out/d.csv"])
                    = Returned 0) by (vm_compute; reflexivity).
    assert (Hfile : file_after
                      (fst (main Example.plain
                              ["spmatch"; "left.png"; "right.png";
                               "--output"; "out/d.csv"]))
                      "out/dL.csv"
                    = Some (ImageFile
                              (setPath (Example.ramp "" 3) "out/dL.csv")))
      by (vm_compute; reflexivity).
    split; [exact Hexit |]. split; [exact Hfile |].
    intros H.
    destruct (H Hexit
                (Example.stored Example.plain
                   ["spmatch"; "left.png"; "right.png";
                    "--output"; "out/d.csv"])
                (Example.notified Example.plain
                   ["spmatch"; "left.png"; "right.png";
                    "--output"; "out/d.csv"])
                "left.png" "right.png"
                (Example.ramp "left.png" 0) (Example.ramp "right.png" 0)
                (Example.ramp "" 3) (Example.ramp "" 7)
                "out/dL.csv" "out/dR.csv") as [HL _];
      try (vm_compute; reflexivity).
    rewrite Hfile in HL. discriminate HL.
Qed.

(** C4, amended.  Every run that completes has computed two maps [dl] and
    [dr] and derived two text paths.  A text path that could be opened for
    writing and is not the path of the image of its view (the output
    extension is not "csv") holds, after the run, one line per pixel of the
    left map's dimensions, each ended by a line feed: "w, h, d" with d the
    disparity at (w, h) printed under [setprecision(8)]; the left file has
    the disparities of the left map, the right file those of the right map.
    The lines are in row-major order of (w, h), w being the outer index: line
    number w * H + h is the line of (w, h).  As long as a printed double
    holds no line feed, splitting the text at its line feeds gives back these
    lines and no other. *)
Theorem csv_files_hold_one_line_per_pixel :
  forall (env : Env) (argv : list string),
    snd (main env argv) = Returned 0 ->
    exists vMap vars l r il ir dl dr pL pR tL tR,
      parse_and_store env argv = inr vMap /\
      Store.notify allOpts vMap initial_vars = inr vars /\
      inputImages vars = [l; r] /\
      Image_load env l = inr il /\
      Image_load env r = inr ir /\
      computeDisparity env (params vars) {| leftImg := il; rightImg := ir |}
      = inr (dl, dr) /\
      StdString.insert (outputPath vars)
        (StdString.rfind (outputPath vars) "."%char) "L" = inr pL /\
      StdString.insert (outputPath vars)
        (StdString.rfind (outputPath vars) "."%char) "R" = inr pR /\
      StdString.replace (outputPath vars)
        (StdString.rfind (outputPath vars) "."%char) 10 "L.csv" = inr tL /\
      StdString.replace (outputPath vars)
        (StdString.rfind (outputPath vars) "."%char) 10 "R.csv" = inr tR /\
      let W := size dl 0 in
      let H := size dl 1 in
      let left_lines := pixel_lines env W H (get dl) in
      let right_lines := pixel_lines env W H (get dr) in
      (ofstream_good env tL = true -> tL <> pL ->
       file_after (fst (main env argv)) tL
       = Some (TextFile (terminated left_lines))) /\
      (ofstream_good env tR = true -> tR <> pR ->
       file_after (fst (main env argv)) tR
       = Some (TextFile (terminated right_lines))) /\
      ((forall d,
           ~ In line_feed (list_ascii_of_string (format_double env 8 d))) ->
       lines (terminated left_lines) = left_lines /\
       lines (terminated right_lines) = right_lines) /\
      List.length left_lines = (W * H)%nat /\
      List.length right_lines = (W * H)%nat /\
      (forall w h, (w < W)%nat -> (h < H)%nat ->
         nth_error left_lines (w * H + h)
         = Some (format_size_t w ++ ", " ++ format_size_t h ++ ", " ++
                 format_double env 8 (get dl w h)) /\
         nth_error right_lines (w * H + h)
         = Some (format_size_t w ++ ", " ++ format_size_t h ++ ", " ++
                 format_double env 8 (get dr w h))).
Proof.
  intros env argv Hexit.
  destruct (main_returns_zero env argv Hexit)
    as [vMap [vars [l [r [t [H [Hn [Hi [Hrun Htrace]]]]]]]]].
  destruct (writeDisparityMap_returns env (params vars) l r (outputPath vars)
              t Hrun)
    as [pL [pR [tL [tR [il [ir [dl [dr
        [HpL [HpR [HtL [HtR [Hil [Hir [Hcore [HwL [HwR Ht]]]]]]]]]]]]]]]]].
  exists vMap, vars, l, r, il, ir, dl, dr, pL, pR, tL, tR.
  repeat (split; [assumption |]).
  cbv zeta. unfold size, get.
  rewrite csv_loops_rows in Ht. cbn [fst snd] in Ht.
  rewrite !csv_rows_terminated in Ht.
  rewrite Htrace, Ht.
  pose proof (insert_value _ _ _ _ HpL) as EpL.
  pose proof (insert_value _ _ _ _ HpR) as EpR.
  pose proof (replace_value _ _ _ _ _ HtL) as EtL.
  pose proof (replace_value _ _ _ _ _ HtR) as EtR.
  assert (Hapart : tR <> tL /\ pR <> tL /\ pL <> tR).
  { rewrite EpL, EpR, EtL, EtR.
    repeat split; intros E; apply append_cancel_l in E; discriminate E. }
  destruct Hapart as [HtRL [HpRtL HpLtR]].
  split; [| split; [| split; [| split; [| split]]]].
  - intros Hgood Hdiff. apply left_text_stays; cbn [imgPath setPath];
      congruence.
  - intros Hgood Hdiff. apply right_text_stays; cbn [imgPath setPath];
      congruence.
  - intros Hfree.
    split; apply lines_terminated, pixel_lines_have_no_line_feed, Hfree.
  - unfold pixel_lines. apply rows_length.
  - unfold pixel_lines. apply rows_length.
  - intros w h Hw Hh. unfold pixel_lines. split.
    + now rewrite (rows_nth (fun w h => pixel_line env w h (pix dl w h))
                     (height dl) (width dl) 0 w h Hw Hh).
    + now rewrite (rows_nth (fun w h => pixel_line env w h (pix dr w h))
                     (height dl) (width dl) 0 w h Hw Hh).
Qed.

(** [spmatch left.png right.png]: the two maps are two by two, and each
    file holds four lines. *)
Lemma csv_files_hold_one_line_per_pixel_witness :
  file_after (fst (main Example.plain ["spmatch"; "left.png"; "right.png"]))
    "disparityL.csv"
  = Some (TextFile (terminated ["0, 0, 3"; "0, 1, 3"; "1, 0, 4"; "1, 1, 4"])) /\
  file_after (fst (main Example.plain ["spmatch"; "left.png"; "right.png"]))
    "disparityR.csv"
  = Some (TextFile (terminated ["0, 0, 7"; "0, 1, 7"; "1, 0, 8"; "1, 1, 8"])) /\
  lines (terminated ["0, 0, 3"; "0, 1, 3"; "1, 0, 4"; "1, 1, 4"])
  = ["0, 0, 3"; "0, 1, 3"; "1, 0, 4"; "1, 1, 4"].
Proof.
  destruct (csv_files_hold_one_line_per_pixel
              Example.plain ["spmatch"; "left.png"; "right.png"])
    as (vMap & vars & l & r & il & ir & dl & dr & pL & pR & tL & tR &
        H & Hn & Hi & Hil & Hir & Hcore & HpL & HpR & HtL & HtR &
        HL & HR & Hlines & _).
  - vm_compute. reflexivity.
  - assert (Hv : inr vMap
                 = inr (A := exn)
                     (Example.stored Example.plain
                        ["spmatch"; "left.png"; "right.png"]))
      by (rewrite <- H; vm_compute; reflexivity).
    apply inr_injective in Hv. subst vMap.
    assert (Hvars : inr vars
                    = inr (A := exn)
                        (Example.notified Example.plain
                           ["spmatch"; "left.png"; "right.png"]))
      by (rewrite <- Hn; vm_compute; reflexivity).
    apply inr_injective in Hvars. subst vars.
    vm_compute in HtL, HtR, HpL, HpR.
    apply inr_injective in HtL, HtR, HpL, HpR. subst tL tR pL pR.
    vm_compute in Hcore. apply inr_injective in Hcore.
    injection Hcore as <- <-.
    specialize (HL eq_refl ltac:(discriminate)).
    specialize (HR eq_refl ltac:(discriminate)).
    assert (Hfree : forall d,
               ~ In line_feed
                   (list_ascii_of_string (format_double Example.plain 8 d))).
    { intros d. cbn [format_double Example.plain Example.world].
      unfold Example.show.
      repeat match goal with
             | |- context [if ?b then _ else _] => destruct b
             end; cbn; intros Hin;
        repeat (destruct Hin as [Hin|Hin]; [discriminate Hin |]);
        exact Hin. }
    destruct (Hlines Hfree) as [HlL _].
    vm_compute in HL, HR, HlL. vm_compute.
    split; [exact HL | split; [exact HR | exact HlL]].
Defined.
